(** * Spam-Email-Detection: the red-black reputation index and the Bloom filter

    A shallow embedding of [rbtree_core.py] and [bloom_filter.py].

    Python objects live in an explicit store: a tree node is a cell of a
    list-shaped heap and a reference is its index.  Methods are written in
    a state-and-exception monad, one monadic step per Python attribute
    read or write, so that every statement of the source re-reads the
    fields it names.  [while] loops take fuel; the public methods supply a
    fuel that the theorems show to be enough. *)

From Stdlib Require Import Floats ZArith Lia List Bool Ascii String Sorted Reals Lra.
From stdpp Require Import base tactics option list numbers sets sorting.

Open Scope Z_scope.

(** ** Outcomes and the method monad *)

Inductive exn : Type :=
| AttributeError
| ZeroDivisionError
| IndexError
| ValueError
| UnicodeEncodeError
| OverflowError.

(** [Ok a]: the call returned [a].  [Raise e]: it raised [e].  [Diverge]:
    a loop used up its fuel.  [Stuck]: a reference that names no cell of
    the store, which no Python object graph contains. *)
Inductive outcome (A : Type) : Type :=
| Ok (a : A)
| Raise (e : exn)
| Diverge
| Stuck.
Arguments Ok {A} a.
Arguments Raise {A} e.
Arguments Diverge {A}.
Arguments Stuck {A}.

Definition M (S A : Type) : Type := S -> outcome A * S.

Definition ret {S A} (a : A) : M S A := fun s => (Ok a, s).

Definition bind {S A B} (m : M S A) (k : A -> M S B) : M S B :=
  fun s =>
    match m s with
    | (Ok a, s') => k a s'
    | (Raise e, s') => (Raise e, s')
    | (Diverge, s') => (Diverge, s')
    | (Stuck, s') => (Stuck, s')
    end.

Definition raise {S A} (e : exn) : M S A := fun s => (Raise e, s).
Definition diverge {S A} : M S A := fun s => (Diverge, s).
Definition stuck {S A} : M S A := fun s => (Stuck, s).

Notation "x <- m ;; k" := (bind m (fun x => k))
  (at level 100, m at next level, right associativity).
Notation "m ;;; k" := (bind m (fun _ => k))
  (at level 100, right associativity).

(** ** Python [str]: a sequence of code points, ordered lexicographically *)

Definition str : Type := list Z.

Fixpoint str_ltb (a b : str) : bool :=
  match a, b with
  | [], [] => false
  | [], _ :: _ => true
  | _ :: _, [] => false
  | x :: a', y :: b' =>
      if x <? y then true else if y <? x then false else str_ltb a' b'
  end.

Definition str_lt (a b : str) : Prop := str_ltb a b = true.

Definition str_eqb (a b : str) : bool := bool_decide (a = b).

(** A string literal of the development, as code points. *)
Definition py (s : String.string) : str :=
  map (fun c => Z.of_nat (Ascii.nat_of_ascii c)) (String.list_ascii_of_string s).

(** ** rbtree_core.py *)

Module rbtree_core.

Inductive Color : Type := RED | BLACK.

Definition Color_eqb (a b : Color) : bool :=
  match a, b with
  | RED, RED | BLACK, BLACK => true
  | _, _ => false
  end.

Definition ref : Type := nat.

(** [RBNode]: [left] and [right] always hold a node ([insert_domain] sets
    them to the sentinel before the node is linked); [parent] is [None]
    for the root and for the sentinel. [last_updated] is never written. *)
Record RBNode : Type := mkNode {
  domain : str;
  reputation_score : Z;
  spam_reports : Z;
  legitimate_reports : Z;
  color : Color;
  left : ref;
  right : ref;
  parent : option ref
}.

Definition with_reputation_score (n : RBNode) (v : Z) : RBNode :=
  mkNode (domain n) v (spam_reports n) (legitimate_reports n)
         (color n) (left n) (right n) (parent n).
Definition with_spam_reports (n : RBNode) (v : Z) : RBNode :=
  mkNode (domain n) (reputation_score n) v (legitimate_reports n)
         (color n) (left n) (right n) (parent n).
Definition with_legitimate_reports (n : RBNode) (v : Z) : RBNode :=
  mkNode (domain n) (reputation_score n) (spam_reports n) v
         (color n) (left n) (right n) (parent n).
Definition with_color (n : RBNode) (v : Color) : RBNode :=
  mkNode (domain n) (reputation_score n) (spam_reports n) (legitimate_reports n)
         v (left n) (right n) (parent n).
Definition with_left (n : RBNode) (v : ref) : RBNode :=
  mkNode (domain n) (reputation_score n) (spam_reports n) (legitimate_reports n)
         (color n) v (right n) (parent n).
Definition with_right (n : RBNode) (v : ref) : RBNode :=
  mkNode (domain n) (reputation_score n) (spam_reports n) (legitimate_reports n)
         (color n) (left n) v (parent n).
Definition with_parent (n : RBNode) (v : option ref) : RBNode :=
  mkNode (domain n) (reputation_score n) (spam_reports n) (legitimate_reports n)
         (color n) (left n) (right n) v.

(** The tree object: the store of its nodes, [self.root], [self.size].
    [self.NIL] is the first object [__init__] allocates, cell 0. *)
Record RedBlackTree : Type := mkTree {
  heap : list RBNode;
  root : ref;
  size : Z
}.

Definition NIL : ref := 0%nat.

Definition T : Type -> Type := M RedBlackTree.

(** *** Attribute access *)

Definition load (x : ref) : T RBNode :=
  fun t => match heap t !! x with
           | Some n => (Ok n, t)
           | None => (Stuck, t)
           end.

Definition store (x : ref) (n : RBNode) : T unit :=
  fun t => (Ok tt, mkTree (<[x := n]> (heap t)) (root t) (size t)).

Definition get {A} (f : RBNode -> A) (x : ref) : T A :=
  n <- load x ;; ret (f n).

Definition set {A} (f : RBNode -> A -> RBNode) (x : ref) (v : A) : T unit :=
  n <- load x ;; store x (f n v).

Definition get_root : T ref := fun t => (Ok (root t), t).
Definition set_root (r : ref) : T unit :=
  fun t => (Ok tt, mkTree (heap t) r (size t)).
Definition incr_size : T unit :=
  fun t => (Ok tt, mkTree (heap t) (root t) (size t + 1)).

(** [o.attr] where [o] may be [None]: attribute access on [None] raises. *)
Definition deref (o : option ref) : T ref :=
  match o with
  | Some x => ret x
  | None => raise AttributeError
  end.

(** [x.parent], about to be dereferenced. *)
Definition parent_of (x : ref) : T ref := o <- get parent x ;; deref o.

(** A new object: the next free cell. *)
Definition alloc (n : RBNode) : T ref :=
  fun t => (Ok (length (heap t)), mkTree (heap t ++ [n]) (root t) (size t)).

(** *** [RedBlackTree.__init__] *)

Definition NIL_node : RBNode :=
  mkNode (py "NIL") 0 0 0 BLACK NIL NIL None.

Definition __init__ : RedBlackTree := mkTree [NIL_node] NIL 0.

(** *** Rotations *)

Definition _left_rotate (x : ref) : T unit :=
  y <- get right x ;;
  (yl <- get left y ;; set with_right x yl) ;;;
  (yl <- get left y ;;
   if negb (yl =? NIL)%nat then set with_parent yl (Some x) else ret tt) ;;;
  (xp <- get parent x ;; set with_parent y xp) ;;;
  (xp <- get parent x ;;
   match xp with
   | None => set_root y
   | Some p =>
       pl <- get left p ;;
       if (x =? pl)%nat then set with_left p y else set with_right p y
   end) ;;;
  set with_left y x ;;;
  set with_parent x (Some y).

Definition _right_rotate (y : ref) : T unit :=
  x <- get left y ;;
  (xr <- get right x ;; set with_left y xr) ;;;
  (xr <- get right x ;;
   if negb (xr =? NIL)%nat then set with_parent xr (Some y) else ret tt) ;;;
  (yp <- get parent y ;; set with_parent x yp) ;;;
  (yp <- get parent y ;;
   match yp with
   | None => set_root x
   | Some p =>
       pr <- get right p ;;
       if (y =? pr)%nat then set with_right p x else set with_left p x
   end) ;;;
  set with_right x y ;;;
  set with_parent y (Some x).

(** *** [_insert_fixup] *)

(** The body of the [while] loop when [node.parent] is a left child;
    returns the value of [node] at the end of the iteration. *)
Definition fixup_left (node : ref) : T ref :=
  uncle <- (p <- parent_of node ;; g <- parent_of p ;; get right g) ;;
  uc <- get color uncle ;;
  if Color_eqb uc RED then
    (p <- parent_of node ;; set with_color p BLACK) ;;;
    set with_color uncle BLACK ;;;
    (p <- parent_of node ;; g <- parent_of p ;; set with_color g RED) ;;;
    (p <- parent_of node ;; parent_of p)
  else
    node <- (p <- parent_of node ;;
             pr <- get right p ;;
             if (node =? pr)%nat
             then (p <- get parent node ;; node <- deref p ;;
                   _left_rotate node ;;; ret node)
             else ret node) ;;
    (p <- parent_of node ;; set with_color p BLACK) ;;;
    (p <- parent_of node ;; g <- parent_of p ;; set with_color g RED) ;;;
    (p <- parent_of node ;; g <- parent_of p ;; _right_rotate g) ;;;
    ret node.

Definition fixup_right (node : ref) : T ref :=
  uncle <- (p <- parent_of node ;; g <- parent_of p ;; get left g) ;;
  uc <- get color uncle ;;
  if Color_eqb uc RED then
    (p <- parent_of node ;; set with_color p BLACK) ;;;
    set with_color uncle BLACK ;;;
    (p <- parent_of node ;; g <- parent_of p ;; set with_color g RED) ;;;
    (p <- parent_of node ;; parent_of p)
  else
    node <- (p <- parent_of node ;;
             pl <- get left p ;;
             if (node =? pl)%nat
             then (p <- get parent node ;; node <- deref p ;;
                   _right_rotate node ;;; ret node)
             else ret node) ;;
    (p <- parent_of node ;; set with_color p BLACK) ;;;
    (p <- parent_of node ;; g <- parent_of p ;; set with_color g RED) ;;;
    (p <- parent_of node ;; g <- parent_of p ;; _left_rotate g) ;;;
    ret node.

(** [while node.parent and node.parent.color == Color.RED: ...] *)
Fixpoint fixup_loop (fuel : nat) (node : ref) : T unit :=
  match fuel with
  | O => diverge
  | S fuel =>
      np <- get parent node ;;
      match np with
      | None => ret tt
      | Some p =>
          pc <- get color p ;;
          if Color_eqb pc RED then
            onleft <- (p <- parent_of node ;; g <- parent_of p ;;
                       gl <- get left g ;; ret (p =? gl)%nat) ;;
            node <- (if onleft : bool then fixup_left node else fixup_right node) ;;
            fixup_loop fuel node
          else ret tt
      end
  end.

Definition _insert_fixup (fuel : nat) (node : ref) : T unit :=
  fixup_loop fuel node ;;;
  (r <- get_root ;; set with_color r BLACK).

(** *** [insert_domain] *)

(** The descent [while current != self.NIL]: [inl current] when the
    domain is found at [current], [inr parent] when the loop ends. *)
Fixpoint insert_descend (fuel : nat) (d : str) (parent : option ref)
    (current : ref) : T (ref + option ref) :=
  if (current =? NIL)%nat then ret (inr parent)
  else
    match fuel with
    | O => diverge
    | S fuel =>
        k <- get domain current ;;
        if str_ltb d k then
          l <- get left current ;; insert_descend fuel d (Some current) l
        else if str_ltb k d then
          r <- get right current ;; insert_descend fuel d (Some current) r
        else ret (inl current)
    end.

(** [new_node] is a local of the call until it is linked: the object is
    placed in the store when the descent has ended without a match. *)
Definition insert_domain (d : str) (reputation_score : Z) : T ref :=
  fuel <- (fun t => (Ok (length (heap t)), t)) ;;
  r <- get_root ;;
  pos <- insert_descend fuel d None r ;;
  match pos with
  | inl current =>
      set with_reputation_score current reputation_score ;;;
      ret current
  | inr parent =>
      new_node <- alloc (mkNode d reputation_score 0 0 RED NIL NIL parent) ;;
      match parent with
      | None => set_root new_node
      | Some p =>
          k <- get domain p ;;
          if str_ltb d k then set with_left p new_node
          else set with_right p new_node
      end ;;;
      set with_color new_node RED ;;;
      incr_size ;;;
      _insert_fixup fuel new_node ;;;
      ret new_node
  end.

(** *** [search_domain] and the score updates *)

Fixpoint search_loop (fuel : nat) (d : str) (current : ref) : T (option ref) :=
  if (current =? NIL)%nat then ret None
  else
    match fuel with
    | O => diverge
    | S fuel =>
        k <- get domain current ;;
        if str_eqb d k then ret (Some current)
        else if str_ltb d k then
          l <- get left current ;; search_loop fuel d l
        else
          r <- get right current ;; search_loop fuel d r
    end.

Definition search_domain (d : str) : T (option ref) :=
  fuel <- (fun t => (Ok (length (heap t)), t)) ;;
  r <- get_root ;;
  search_loop fuel d r.

Definition update_reputation_score (d : str) (new_score : Z) : T bool :=
  node <- search_domain d ;;
  match node with
  | Some node =>
      set with_reputation_score node (Z.max 0 (Z.min 100 new_score)) ;;;
      ret true
  | None => ret false
  end.

Definition increment_spam_reports (d : str) (amount : Z) : T (option Z) :=
  node <- search_domain d ;;
  match node with
  | Some node =>
      (v <- get spam_reports node ;; set with_spam_reports node (v + amount)) ;;;
      (v <- get reputation_score node ;;
       set with_reputation_score node (Z.max 0 (v - amount * 5))) ;;;
      v <- get reputation_score node ;;
      ret (Some v)
  | None => ret None
  end.

Definition increment_legitimate_reports (d : str) (amount : Z) : T (option Z) :=
  node <- search_domain d ;;
  match node with
  | Some node =>
      (v <- get legitimate_reports node ;;
       set with_legitimate_reports node (v + amount)) ;;;
      (v <- get reputation_score node ;;
       set with_reputation_score node (Z.min 100 (v + amount * 3))) ;;;
      v <- get reputation_score node ;;
      ret (Some v)
  | None => ret None
  end.

(** *** In-order traversals

    The recursive helpers take fuel for the depth of the recursion. *)

Fixpoint _inorder_collect_blacklisted (fuel : nat) (node : ref)
    (threshold : Z) (result : list (str * Z)) : T (list (str * Z)) :=
  if (node =? NIL)%nat then ret result
  else
    match fuel with
    | O => diverge
    | S fuel =>
        l <- get left node ;;
        result <- _inorder_collect_blacklisted fuel l threshold result ;;
        s <- get reputation_score node ;;
        result <- (if s <? threshold then
                     d <- get domain node ;;
                     s <- get reputation_score node ;;
                     ret (result ++ [(d, s)])
                   else ret result) ;;
        r <- get right node ;;
        _inorder_collect_blacklisted fuel r threshold result
    end.

Definition get_blacklisted_domains (threshold : Z) : T (list (str * Z)) :=
  fuel <- (fun t => (Ok (length (heap t)), t)) ;;
  r <- get_root ;;
  _inorder_collect_blacklisted fuel r threshold [].

Fixpoint _inorder_collect_all (fuel : nat) (node : ref)
    (result : list (str * Z)) : T (list (str * Z)) :=
  if (node =? NIL)%nat then ret result
  else
    match fuel with
    | O => diverge
    | S fuel =>
        l <- get left node ;;
        result <- _inorder_collect_all fuel l result ;;
        d <- get domain node ;;
        s <- get reputation_score node ;;
        r <- get right node ;;
        _inorder_collect_all fuel r (result ++ [(d, s)])
    end.

Definition get_all_domains : T (list (str * Z)) :=
  fuel <- (fun t => (Ok (length (heap t)), t)) ;;
  r <- get_root ;;
  _inorder_collect_all fuel r [].

(** *** [get_height] *)

Fixpoint _calculate_height (fuel : nat) (node : ref) : T Z :=
  if (node =? NIL)%nat then ret 0
  else
    match fuel with
    | O => diverge
    | S fuel =>
        l <- get left node ;;
        left_height <- _calculate_height fuel l ;;
        r <- get right node ;;
        right_height <- _calculate_height fuel r ;;
        ret (1 + Z.max left_height right_height)
    end.

Definition get_height : T Z :=
  fuel <- (fun t => (Ok (length (heap t)), t)) ;;
  r <- get_root ;;
  _calculate_height fuel r.

(** *** [verify_rb_properties] *)

(** [c.left != self.NIL and c.left.color == Color.RED], for the child
    reference [c] just read. *)
Definition is_red_node (c : ref) : T bool :=
  if negb (c =? NIL)%nat then
    cc <- get color c ;; ret (Color_eqb cc RED)
  else ret false.

Fixpoint _verify_no_red_red (fuel : nat) (node : ref) : T bool :=
  if (node =? NIL)%nat then ret true
  else
    match fuel with
    | O => diverge
    | S fuel =>
        c <- get color node ;;
        bad <- (if Color_eqb c RED then
                  l <- get left node ;;
                  lred <- is_red_node l ;;
                  if lred : bool then ret true
                  else r <- get right node ;; is_red_node r
                else ret false) ;;
        if bad : bool then ret false
        else
          l <- get left node ;;
          lok <- _verify_no_red_red fuel l ;;
          if lok : bool then
            r <- get right node ;; _verify_no_red_red fuel r
          else ret false
    end.

Fixpoint _get_black_height (fuel : nat) (node : ref) : T Z :=
  if (node =? NIL)%nat then ret 1
  else
    match fuel with
    | O => diverge
    | S fuel =>
        l <- get left node ;;
        left_height <- _get_black_height fuel l ;;
        r <- get right node ;;
        right_height <- _get_black_height fuel r ;;
        if (left_height =? -1) || (right_height =? -1)
           || negb (left_height =? right_height)
        then ret (-1)
        else
          c <- get color node ;;
          if Color_eqb c BLACK then ret (left_height + 1)
          else ret left_height
    end.

Definition verify_rb_properties : T (bool * list str) :=
  fuel <- (fun t => (Ok (length (heap t)), t)) ;;
  errors <- ret [] ;;
  errors <- (r <- get_root ;;
             if negb (r =? NIL)%nat then
               c <- get color r ;;
               if negb (Color_eqb c BLACK)
               then ret (errors ++ [py "Root is not black"])
               else ret errors
             else ret errors) ;;
  errors <- (r <- get_root ;;
             ok <- _verify_no_red_red fuel r ;;
             if negb ok then ret (errors ++ [py "Red-Red violation found"])
             else ret errors) ;;
  black_height <- (r <- get_root ;; _get_black_height fuel r) ;;
  errors <- (if black_height =? -1
             then ret (errors ++ [py "Black height violation found"])
             else ret errors) ;;
  ret (match errors with [] => true | _ => false end, errors).

End rbtree_core.

(** ** The tree a store holds

    The abstract view used to state the claims: the binary tree that the
    [left]/[right] references of a store spell out, with the address, the
    colour and the key of every node. *)

Module rbtree_model.
Import rbtree_core.

Inductive tree : Type :=
| Leaf
| Node (c : Color) (l : tree) (a : ref) (k : str) (r : tree).

(** The reference that stands for a subtree: the sentinel for a leaf. *)
Definition addr_of (t : tree) : ref :=
  match t with
  | Leaf => NIL
  | Node _ _ a _ _ => a
  end.

(** In-order sequence of (address, domain). *)
Fixpoint elems (t : tree) : list (ref * str) :=
  match t with
  | Leaf => []
  | Node _ l a k r => elems l ++ (a, k) :: elems r
  end.

Definition addrs (t : tree) : list ref := map fst (elems t).
Definition keys (t : tree) : list str := map snd (elems t).

(** Cell [a] of the store is a proper node with the given links. *)
Definition cell (h : list RBNode) (a : ref) (c : Color) (k : str)
    (par : option ref) (l r : ref) : Prop :=
  a <> NIL /\
  exists n, h !! a = Some n /\ color n = c /\ domain n = k /\
            parent n = par /\ left n = l /\ right n = r.

(** The store spells out [t] below a node whose address is [par]. *)
Fixpoint rep (h : list RBNode) (par : option ref) (t : tree) : Prop :=
  match t with
  | Leaf => True
  | Node c l a k r =>
      cell h a c k par (addr_of l) (addr_of r) /\
      rep h (Some a) l /\ rep h (Some a) r
  end.

(** The sentinel: cell 0, always BLACK. *)
Definition nil_ok (h : list RBNode) : Prop :=
  exists n, h !! NIL = Some n /\ color n = BLACK.

(** *** One-hole contexts

    The path from a node up to the root, innermost frame first. *)
Inductive side : Type := Lft | Rgt.

Record frame : Type := Frame {
  fside : side;      (* which child of the frame's node the hole is *)
  fcolor : Color;
  faddr : ref;
  fkey : str;
  fsib : tree        (* the other child *)
}.

Definition fill (f : frame) (t : tree) : tree :=
  match fside f with
  | Lft => Node (fcolor f) t (faddr f) (fkey f) (fsib f)
  | Rgt => Node (fcolor f) (fsib f) (faddr f) (fkey f) t
  end.

Fixpoint plug (t : tree) (ctx : list frame) : tree :=
  match ctx with
  | [] => t
  | f :: ctx' => plug (fill f t) ctx'
  end.

Definition ctx_parent (ctx : list frame) : option ref :=
  match ctx with
  | [] => None
  | f :: _ => Some (faddr f)
  end.

(** The store spells out the context of a hole whose subtree is reached
    through reference [child]; [rt] is [self.root]. *)
Fixpoint rep_ctx (h : list RBNode) (child : ref) (ctx : list frame)
    (rt : ref) : Prop :=
  match ctx with
  | [] => rt = child
  | f :: ctx' =>
      match fside f with
      | Lft => cell h (faddr f) (fcolor f) (fkey f) (ctx_parent ctx')
                    child (addr_of (fsib f))
      | Rgt => cell h (faddr f) (fcolor f) (fkey f) (ctx_parent ctx')
                    (addr_of (fsib f)) child
      end /\
      rep h (Some (faddr f)) (fsib f) /\
      rep_ctx h (faddr f) ctx' rt
  end.

(** The tree object [t] holds subtree [tr] in context [ctx]. *)
Definition zrep (t : RedBlackTree) (tr : tree) (ctx : list frame) : Prop :=
  nil_ok (heap t) /\
  rep (heap t) (ctx_parent ctx) tr /\
  rep_ctx (heap t) (addr_of tr) ctx (root t) /\
  NoDup (addrs (plug tr ctx)).

(** The tree object holds exactly the tree [tr]. *)
Definition holds (t : RedBlackTree) (tr : tree) : Prop := zrep t tr [].

(** *** The red-black invariants, on the tree a store holds *)

Definition root_black (t : tree) : Prop :=
  match t with
  | Leaf => True
  | Node c _ _ _ _ => c = BLACK
  end.

(** No RED node has a RED child. *)
Fixpoint no_red_red (t : tree) : Prop :=
  match t with
  | Leaf => True
  | Node c l _ _ r =>
      (c = RED -> root_black l /\ root_black r) /\
      no_red_red l /\ no_red_red r
  end.

Definition blacks (c : Color) : nat :=
  match c with BLACK => 1%nat | RED => 0%nat end.

(** The number of BLACK nodes on each path from the root of [t] down to
    a sentinel, one entry per path. *)
Fixpoint path_blacks (t : tree) : list nat :=
  match t with
  | Leaf => [0%nat]
  | Node c l _ _ r =>
      map (Nat.add (blacks c)) (path_blacks l ++ path_blacks r)
  end.

Definition black_balanced (t : tree) : Prop :=
  exists n, Forall (fun m => m = n) (path_blacks t).

(** In-order domains strictly ascending (hence pairwise distinct). *)
Definition ascending (t : tree) : Prop := StronglySorted str_lt (keys t).

Record red_black (t : tree) : Prop := {
  rb_root : root_black t;
  rb_red : no_red_red t;
  rb_black : black_balanced t;
  rb_order : ascending t
}.

(** [t] has no red-red pair and every path has [n] BLACK nodes. *)
Fixpoint rbh (t : tree) (n : nat) : Prop :=
  match t with
  | Leaf => n = 0%nat
  | Node RED l _ _ r => root_black l /\ root_black r /\ rbh l n /\ rbh r n
  | Node BLACK l _ _ r => exists m, n = S m /\ rbh l m /\ rbh r m
  end.

Definition ctx_black (ctx : list frame) : Prop :=
  match ctx with
  | [] => False
  | f :: _ => fcolor f = BLACK
  end.

(** The colour invariants of a context around a hole of black height [n]. *)
Fixpoint ctx_ok (n : nat) (ctx : list frame) : Prop :=
  match ctx with
  | [] => True
  | f :: ctx' =>
      match fcolor f with
      | RED => rbh (fsib f) n /\ root_black (fsib f) /\
               ctx_black ctx' /\ ctx_ok n ctx'
      | BLACK => rbh (fsib f) n /\ ctx_ok (S n) ctx'
      end
  end.

(** Domains to the left and to the right of the hole, in order. *)
Fixpoint ctx_lo (ctx : list frame) : list (ref * str) :=
  match ctx with
  | [] => []
  | f :: ctx' =>
      match fside f with
      | Lft => ctx_lo ctx'
      | Rgt => ctx_lo ctx' ++ elems (fsib f) ++ [(faddr f, fkey f)]
      end
  end.

Fixpoint ctx_hi (ctx : list frame) : list (ref * str) :=
  match ctx with
  | [] => []
  | f :: ctx' =>
      match fside f with
      | Lft => (faddr f, fkey f) :: elems (fsib f) ++ ctx_hi ctx'
      | Rgt => ctx_hi ctx'
      end
  end.

(** Addresses of the nodes of a context and of their other subtrees. *)
Definition ctx_addrs (ctx : list frame) : list ref :=
  map fst (ctx_lo ctx) ++ map fst (ctx_hi ctx).

(** The effect of [self.root.color = Color.BLACK] on the tree held. *)
Definition blacken (t : tree) : tree :=
  match t with
  | Leaf => Leaf
  | Node _ l a k r => Node BLACK l a k r
  end.

Definition ctx_red (ctx : list frame) : Prop :=
  match ctx with
  | [] => False
  | f :: _ => fcolor f = RED
  end.

(** Every domain left of the hole is below [d]; every one right of it
    is above. *)
Definition below (d : str) (ctx : list frame) : Prop :=
  Forall (fun k => str_lt k d) (map snd (ctx_lo ctx)).
Definition above (d : str) (ctx : list frame) : Prop :=
  Forall (fun k => str_lt d k) (map snd (ctx_hi ctx)).

(** Two node values with the same key, colour and links: they differ at
    most in the score and the report counters. *)
Definition same_links (n n' : RBNode) : Prop :=
  color n' = color n /\ domain n' = domain n /\ parent n' = parent n /\
  left n' = left n /\ right n' = right n.

(** Two address lists share no address. *)
Definition disj (l k : list ref) : Prop := forall x, x ∈ l -> x ∉ k.

(** The invariant every public operation keeps. *)
Definition tree_inv (t : RedBlackTree) (tr : tree) : Prop :=
  holds t tr /\ root_black tr /\ (exists n, rbh tr n) /\ ascending tr.

(** A sequence of [insert_domain] calls, stopping at the first call that
    does not return. *)
Fixpoint insert_all (ops : list (str * Z)) (t : RedBlackTree)
    : outcome unit * RedBlackTree :=
  match ops with
  | [] => (Ok tt, t)
  | (d, s) :: ops' =>
      match insert_domain d s t with
      | (Ok _, t') => insert_all ops' t'
      | (Raise e, t') => (Raise e, t')
      | (Diverge, t') => (Diverge, t')
      | (Stuck, t') => (Stuck, t')
      end
  end.

(** The node value [increment_spam_reports] and
    [increment_legitimate_reports] leave in place of [n]. *)
Definition spam_updated (n : RBNode) (amount : Z) : RBNode :=
  with_reputation_score (with_spam_reports n (spam_reports n + amount))
    (Z.max 0 (reputation_score n - amount * 5)).

Definition legit_updated (n : RBNode) (amount : Z) : RBNode :=
  with_reputation_score
    (with_legitimate_reports n (legitimate_reports n + amount))
    (Z.min 100 (reputation_score n + amount * 3)).

(** A call of one of the public methods, and a history of such calls on
    one tree; a history stops at the first call that does not return. *)
Inductive op : Type :=
| Insert (d : str) (score : Z)
| Search (d : str)
| UpdateScore (d : str) (score : Z)
| SpamReport (d : str) (amount : Z)
| LegitReport (d : str) (amount : Z).

Definition void {A} (r : outcome A) : outcome unit :=
  match r with
  | Ok _ => Ok tt
  | Raise e => Raise e
  | Diverge => Diverge
  | Stuck => Stuck
  end.

Definition run_op (o : op) (t : RedBlackTree) : outcome unit * RedBlackTree :=
  match o with
  | Insert d s => let '(r, t') := insert_domain d s t in (void r, t')
  | Search d => let '(r, t') := search_domain d t in (void r, t')
  | UpdateScore d s =>
      let '(r, t') := update_reputation_score d s t in (void r, t')
  | SpamReport d a =>
      let '(r, t') := increment_spam_reports d a t in (void r, t')
  | LegitReport d a =>
      let '(r, t') := increment_legitimate_reports d a t in (void r, t')
  end.

Fixpoint run (ops : list op) (t : RedBlackTree) : outcome unit * RedBlackTree :=
  match ops with
  | [] => (Ok tt, t)
  | o :: ops' =>
      match run_op o t with
      | (Ok _, t') => run ops' t'
      | (r, t') => (r, t')
      end
  end.

(** The domains a history inserts. *)
Fixpoint inserted (ops : list op) : list str :=
  match ops with
  | [] => []
  | Insert d _ :: ops' => d :: inserted ops'
  | _ :: ops' => inserted ops'
  end.

(** *** The tree as a sorted table

    What a caller can observe of a tree: its entries in domain order,
    each with its score and its two report counters. *)

Definition entry : Type := (Z * Z * Z)%type.

Definition node_entry (n : RBNode) : entry :=
  (reputation_score n, spam_reports n, legitimate_reports n).

Definition entry_at (h : list RBNode) (a : ref) : entry :=
  match h !! a with
  | Some n => node_entry n
  | None => (0, 0, 0)
  end.

(** The entries of the tree a store holds, in order. *)
Definition entries (h : list RBNode) (tr : tree) : list (str * entry) :=
  map (fun ak => (snd ak, entry_at h (fst ak))) (elems tr).

(** The same operations on a table sorted by domain. *)
Fixpoint table_insert (d : str) (s : Z) (tb : list (str * entry))
    : list (str * entry) :=
  match tb with
  | [] => [(d, (s, 0, 0))]
  | (k, e) :: tb' =>
      if str_ltb d k then (d, (s, 0, 0)) :: tb
      else if str_ltb k d then (k, e) :: table_insert d s tb'
      else (k, (s, snd (fst e), snd e)) :: tb'
  end.

Fixpoint table_adjust (d : str) (f : entry -> entry) (tb : list (str * entry))
    : list (str * entry) :=
  match tb with
  | [] => []
  | (k, e) :: tb' =>
      if str_eqb d k then (k, f e) :: tb'
      else (k, e) :: table_adjust d f tb'
  end.

Fixpoint table_find (d : str) (tb : list (str * entry)) : option entry :=
  match tb with
  | [] => None
  | (k, e) :: tb' => if str_eqb d k then Some e else table_find d tb'
  end.

Definition table_step (tb : list (str * entry)) (o : op) : list (str * entry) :=
  match o with
  | Insert d s => table_insert d s tb
  | Search _ => tb
  | UpdateScore d s =>
      table_adjust d (fun e => (Z.max 0 (Z.min 100 s), snd (fst e), snd e)) tb
  | SpamReport d a =>
      table_adjust d (fun e => (Z.max 0 (fst (fst e) - a * 5),
                                snd (fst e) + a, snd e)) tb
  | LegitReport d a =>
      table_adjust d (fun e => (Z.min 100 (fst (fst e) + a * 3),
                                snd (fst e), snd e + a)) tb
  end.

(** The table a history builds from nothing. *)
Definition table_of (ops : list op) : list (str * entry) :=
  fold_left table_step ops [].

(** [n'] carries the domain, score and counters of [n]. *)
Definition same_payload (n n' : RBNode) : Prop :=
  domain n' = domain n /\ node_entry n' = node_entry n.

(** Every cell of [h] is a cell of [h'] with the same payload. *)
Definition payload_kept (h h' : list RBNode) : Prop :=
  forall (a : ref) n, h !! a = Some n ->
    exists n', h' !! a = Some n' /\ same_payload n n'.

(** A method that, however it ends, has written links and colours only. *)
Definition links_only {A} (m : T A) : Prop :=
  forall t, payload_kept (heap t) (heap (snd (m t))).

(** A call with arguments in the ranges the callers of the repository
    use: a score from 0 to 100, a report amount that is not negative. *)
Definition in_range (o : op) : Prop :=
  match o with
  | Insert _ s => 0 <= s <= 100
  | Search _ => True
  | UpdateScore _ _ => True
  | SpamReport _ a => 0 <= a
  | LegitReport _ a => 0 <= a
  end.

Definition score_of (e : entry) : Z := fst (fst e).
Definition spam_of (e : entry) : Z := snd (fst e).
Definition legit_of (e : entry) : Z := snd e.

(** What [get_all_domains] shows of a table. *)
Definition scores (tb : list (str * entry)) : list (str * Z) :=
  map (fun r => (fst r, score_of (snd r))) tb.

(** What [verify_rb_properties] computes, on the tree a store holds. *)
Definition is_red (t : tree) : bool :=
  match t with
  | Node RED _ _ _ _ => true
  | _ => false
  end.

Fixpoint no_red_red_b (t : tree) : bool :=
  match t with
  | Leaf => true
  | Node c l _ _ r =>
      if Color_eqb c RED && (is_red l || is_red r) then false
      else no_red_red_b l && no_red_red_b r
  end.

Fixpoint black_height (t : tree) : Z :=
  match t with
  | Leaf => 1
  | Node c l _ _ r =>
      let lh := black_height l in
      let rh := black_height r in
      if (lh =? -1) || (rh =? -1) || negb (lh =? rh) then -1
      else if Color_eqb c BLACK then lh + 1 else lh
  end.

(** Height of a tree: nodes on the longest path to a sentinel. *)
Fixpoint height (t : tree) : Z :=
  match t with
  | Leaf => 0
  | Node _ l _ _ r => 1 + Z.max (height l) (height r)
  end.

(** The insert sequence of the repository's test scenario. *)
Definition demo_ops : list op :=
  [Insert (py "b.com") 50; Insert (py "a.com") 80; Insert (py "c.com") 20].

End rbtree_model.

(** ** bloom_filter.py *)

Module bloom_filter.

(** *** The Python values [add] and [contains] may be handed *)

Inductive pyobj : Type :=
| PyStr (s : str)
| PyNone
| PyInt (z : Z)
| PyBytes (b : list Z).

(** [isinstance(item, str)] *)
Definition is_str (item : pyobj) : bool :=
  match item with
  | PyStr _ => true
  | _ => false
  end.

(** *** [str] methods *)

(** [c.isspace()] for one code point (CPython's [_PyUnicode_IsWhitespace]). *)
Definition isspace (c : Z) : bool :=
  ((9 <=? c) && (c <=? 13)) || ((28 <=? c) && (c <=? 32)) ||
  (c =? 133) || (c =? 160) || (c =? 5760) ||
  ((8192 <=? c) && (c <=? 8202)) ||
  (c =? 8232) || (c =? 8233) || (c =? 8239) || (c =? 8287) || (c =? 12288).

Fixpoint lstrip (s : str) : str :=
  match s with
  | [] => []
  | c :: s' => if isspace c then lstrip s' else s
  end.

(** [s.strip()] *)
Definition strip (s : str) : str := rev (lstrip (rev (lstrip s))).

(** [str.lower] restricted to what it does on ASCII letters; the case
    mapping of the other code points comes from the Unicode database and
    is not reproduced.  The methods below take the lowering function as a
    parameter; this one instantiates it in the concrete examples. *)
Definition ascii_lower (s : str) : str :=
  map (fun c => if (65 <=? c) && (c <=? 90) then c + 32 else c) s.

(** [s.encode('utf-8')]: [None] for what the codec refuses (surrogates;
    numbers that are no code point cannot occur in a Python [str]). *)
Definition utf8_char (c : Z) : option (list Z) :=
  if (c <? 0) then None
  else if (c <? 128) then Some [c]
  else if (c <? 2048) then
    Some [Z.lor 192 (Z.shiftr c 6); Z.lor 128 (Z.land c 63)]
  else if (c <? 65536) then
    if (55296 <=? c) && (c <=? 57343) then None
    else Some [Z.lor 224 (Z.shiftr c 12);
               Z.lor 128 (Z.land (Z.shiftr c 6) 63);
               Z.lor 128 (Z.land c 63)]
  else if (c <? 1114112) then
    Some [Z.lor 240 (Z.shiftr c 18);
          Z.lor 128 (Z.land (Z.shiftr c 12) 63);
          Z.lor 128 (Z.land (Z.shiftr c 6) 63);
          Z.lor 128 (Z.land c 63)]
  else None.

Fixpoint encode_utf8 (s : str) : option (list Z) :=
  match s with
  | [] => Some []
  | c :: s' =>
      match utf8_char c, encode_utf8 s' with
      | Some b, Some bs => Some (b ++ bs)
      | _, _ => None
      end
  end.

(** *** The filter object *)

Record BloomFilter : Type := mkBloom {
  expected_items : Z;
  false_positive_rate : R;
  size : Z;
  num_hashes : Z;
  bit_array : list bool;
  items_added : Z
}.

Definition B : Type -> Type := M BloomFilter.

Definition get_size : B Z := fun bf => (Ok (size bf), bf).
Definition get_num_hashes : B Z := fun bf => (Ok (num_hashes bf), bf).

(** [x % m] on Python integers: the sign of the result follows [m]. *)
Definition py_mod (x m : Z) : B Z :=
  if m =? 0 then raise ZeroDivisionError else ret (x mod m).

(** A list index as Python resolves it: negative indices count from the
    end; [None] when out of range. *)
Definition py_index (len : nat) (idx : Z) : option nat :=
  let i := if idx <? 0 then idx + Z.of_nat len else idx in
  if (0 <=? i) && (i <? Z.of_nat len) then Some (Z.to_nat i) else None.

(** [self.bit_array[idx]] *)
Definition get_bit (idx : Z) : B bool :=
  fun bf =>
    match py_index (length (bit_array bf)) idx with
    | Some i =>
        match bit_array bf !! i with
        | Some v => (Ok v, bf)
        | None => (Raise IndexError, bf)
        end
    | None => (Raise IndexError, bf)
    end.

(** [self.bit_array[idx] = True] *)
Definition set_bit (idx : Z) : B unit :=
  fun bf =>
    match py_index (length (bit_array bf)) idx with
    | Some i =>
        (Ok tt, mkBloom (expected_items bf) (false_positive_rate bf) (size bf)
                        (num_hashes bf) (<[i := true]> (bit_array bf))
                        (items_added bf))
    | None => (Raise IndexError, bf)
    end.

Definition incr_items_added : B unit :=
  fun bf => (Ok tt, mkBloom (expected_items bf) (false_positive_rate bf)
                            (size bf) (num_hashes bf) (bit_array bf)
                            (items_added bf + 1)).

(** *** The four hash functions *)

Definition mask32 (x : Z) : Z := Z.land x 4294967295.

Definition _murmur_hash (key : str) (seed : Z) : B Z :=
  match encode_utf8 key with
  | None => raise UnicodeEncodeError
  | Some key_bytes =>
      let hash_val :=
        fold_left
          (fun h byte =>
             let h := Z.lxor h byte in
             let h := h * 1540483477 in
             let h := mask32 h in
             Z.lxor h (Z.shiftr h 15))
          key_bytes seed in
      sz <- get_size ;; py_mod hash_val sz
  end.

Definition _fnv_hash (key : str) (seed : Z) : B Z :=
  let fnv_prime := 16777619 in
  let fnv_offset := 2166136261 in
  let hash_val :=
    fold_left
      (fun h char => mask32 (Z.lxor h char * fnv_prime))
      key (mask32 (fnv_offset + seed)) in
  sz <- get_size ;; py_mod hash_val sz.

Definition _djb2_hash (key : str) (seed : Z) : B Z :=
  let hash_val :=
    fold_left
      (fun h char => mask32 ((Z.shiftl h 5 + h) + char))
      key (5381 + seed) in
  sz <- get_size ;; py_mod hash_val sz.

Definition _sdbm_hash (key : str) (seed : Z) : B Z :=
  let hash_val :=
    fold_left
      (fun h char => mask32 (char + Z.shiftl h 6 + Z.shiftl h 16 - h))
      key seed in
  sz <- get_size ;; py_mod hash_val sz.

(** [hash_functions[func_idx]] *)
Definition hash_function (func_idx : Z) : str -> Z -> B Z :=
  if func_idx =? 0 then _murmur_hash
  else if func_idx =? 1 then _fnv_hash
  else if func_idx =? 2 then _djb2_hash
  else _sdbm_hash.

(** [for x in l: body(x)] *)
Fixpoint for_each {S A} (l : list A) (body : A -> M S unit) : M S unit :=
  match l with
  | [] => ret tt
  | x :: l' => body x ;;; for_each l' body
  end.

(** [range(k)] *)
Definition range (k : Z) : list Z := map Z.of_nat (seq 0 (Z.to_nat k)).

Section methods.

(** Python's [str.lower]. *)
Variable lower : str -> str.

(** The loop of [_get_hash_values] over the values [js] of [i]; each
    hash value is appended to [indices]. *)
Fixpoint hash_loop (item_lower : str) (js : list Z) (indices : list Z)
    : B (list Z) :=
  match js with
  | [] => ret indices
  | i :: js' =>
      let func_idx := i mod 4 in
      let seed := i / 4 in
      hash_val <- hash_function func_idx item_lower seed ;;
      hash_loop item_lower js' (indices ++ [hash_val])
  end.

Definition _get_hash_values (item : str) : B (list Z) :=
  let item_lower := strip (lower item) in
  k <- get_num_hashes ;;
  hash_loop item_lower (range k) [].

(** [not isinstance(item, str) or not item.strip()] *)
Definition rejected (item : pyobj) : bool :=
  match item with
  | PyStr s => match strip s with [] => true | _ => false end
  | _ => true
  end.

Definition add (item : pyobj) : B unit :=
  if rejected item then ret tt
  else
    match item with
    | PyStr s =>
        indices <- _get_hash_values s ;;
        for_each indices set_bit ;;;
        incr_items_added
    | _ => ret tt
    end.

(** [for idx in indices: if not self.bit_array[idx]: return False] and
    the final [return True]. *)
Fixpoint all_set (indices : list Z) : B bool :=
  match indices with
  | [] => ret true
  | idx :: rest =>
      v <- get_bit idx ;;
      if negb v then ret false else all_set rest
  end.

Definition contains (item : pyobj) : B bool :=
  if rejected item then ret false
  else
    match item with
    | PyStr s =>
        indices <- _get_hash_values s ;;
        all_set indices
    | _ => ret false
    end.

End methods.

(** [self.bit_array = [False] * self.size; self.items_added = 0] *)
Definition clear : B unit :=
  fun bf => (Ok tt, mkBloom (expected_items bf) (false_positive_rate bf)
                            (size bf) (num_hashes bf)
                            (replicate (Z.to_nat (size bf)) false) 0).

(** *** [__init__]

    Python floats are taken as real numbers, with exact arithmetic: the
    sizing formulas evaluated exactly.  [bloom_filter_ieee] below has the
    same method in double precision. *)

Open Scope R_scope.

(** [math.log(x)]: a [ValueError] outside the domain. *)
Definition math_log (x : R) : outcome R :=
  if Rle_dec x 0 then Raise ValueError else Ok (ln x).

(** [math.ceil(x)] *)
Definition math_ceil (x : R) : Z := (- Int_part (- x))%Z.

(** [x / y] on floats and [m / n] on integers: division by zero raises. *)
Definition py_truediv (x y : R) : outcome R :=
  if Req_dec_T y 0 then Raise ZeroDivisionError else Ok (x / y).

Definition obind {A C} (r : outcome A) (k : A -> outcome C) : outcome C :=
  match r with
  | Ok a => k a
  | Raise e => Raise e
  | Diverge => Diverge
  | Stuck => Stuck
  end.

Definition _calculate_optimal_size (n : Z) (p : R) : outcome Z :=
  obind (math_log p) (fun lp =>
  obind (math_log 2) (fun l2 =>
  obind (py_truediv (- (IZR n * lp)) (l2 ^ 2)) (fun m =>
  Ok (math_ceil m)))).

Definition _calculate_optimal_hash_count (m n : Z) : outcome Z :=
  obind (py_truediv (IZR m) (IZR n)) (fun q =>
  obind (math_log 2) (fun l2 =>
  Ok (math_ceil (q * l2)))).

(** The object [__init__] leaves once the two sizes are computed. *)
Definition fresh (n : Z) (p : R) (m k : Z) : BloomFilter :=
  mkBloom n p m k (replicate (Z.to_nat m) false) 0%Z.

Definition __init__ (expected_items : Z) (false_positive_rate : R)
    : outcome BloomFilter :=
  obind (_calculate_optimal_size expected_items false_positive_rate) (fun m =>
  obind (_calculate_optimal_hash_count m expected_items) (fun k =>
  Ok (fresh expected_items false_positive_rate m k))).

Close Scope R_scope.

(** *** Notions used to state the properties *)

(** A method that leaves the object as it found it, however it ends. *)
Definition read_only {A} (m : B A) : Prop := forall bf, snd (m bf) = bf.

(** [bf'] has the configuration and the length of [bf], and every bit
    set in [bf] is set in [bf']. *)
Definition grows (bf bf' : BloomFilter) : Prop :=
  expected_items bf' = expected_items bf /\
  false_positive_rate bf' = false_positive_rate bf /\
  size bf' = size bf /\ num_hashes bf' = num_hashes bf /\
  length (bit_array bf') = length (bit_array bf) /\
  forall i, bit_array bf !! i = Some true -> bit_array bf' !! i = Some true.

(** Every index of the list names a bit of [bf] that is set. *)
Definition covers (bf : BloomFilter) (indices : list Z) : Prop :=
  Forall (fun idx => exists i, py_index (length (bit_array bf)) idx = Some i /\
                               bit_array bf !! i = Some true) indices.

(** The shape [__init__] gives a filter when the sizing yields at least
    one bit: as many bits as [size] says. *)
Definition well_formed (bf : BloomFilter) : Prop :=
  0 < size bf /\ Z.of_nat (length (bit_array bf)) = size bf.

(** The item is no string, or is empty once lowered and trimmed. *)
Definition normalizes_to_nothing (lower : str -> str) (item : pyobj) : Prop :=
  match item with
  | PyStr s => strip (lower s) = []
  | _ => True
  end.

(** A sequence of [add] calls, whatever each of them does. *)
Fixpoint add_all (lower : str -> str) (items : list pyobj) (bf : BloomFilter)
    : BloomFilter :=
  match items with
  | [] => bf
  | item :: items' => add_all lower items' (snd (add lower item bf))
  end.

(** *** Histories of calls on one filter *)

Inductive call : Type :=
| Add (item : pyobj)
| Contains (item : pyobj)
| Clear.

(** What a call hands back: nothing, a truth value, or an exception. *)
Inductive answer : Type :=
| Returned
| Answered (b : bool)
| Raised (e : exn)
| NoAnswer.

Definition answer_unit (r : outcome unit) : answer :=
  match r with
  | Ok _ => Returned
  | Raise e => Raised e
  | _ => NoAnswer
  end.

Definition answer_bool (r : outcome bool) : answer :=
  match r with
  | Ok b => Answered b
  | Raise e => Raised e
  | _ => NoAnswer
  end.

Definition do_call (lower : str -> str) (c : call) (bf : BloomFilter)
    : answer * BloomFilter :=
  match c with
  | Add item => let '(r, bf') := add lower item bf in (answer_unit r, bf')
  | Contains item =>
      let '(r, bf') := contains lower item bf in (answer_bool r, bf')
  | Clear => let '(r, bf') := clear bf in (answer_unit r, bf')
  end.

(** A caller that carries on after an exception: the answers of all the
    calls and the filter they leave. *)
Fixpoint do_calls (lower : str -> str) (cs : list call) (bf : BloomFilter)
    : list answer * BloomFilter :=
  match cs with
  | [] => ([], bf)
  | c :: cs' =>
      let '(a, bf') := do_call lower c bf in
      let '(answers, bf'') := do_calls lower cs' bf' in
      (a :: answers, bf'')
  end.

(** A small filter for the concrete examples: 16 bits, 3 hash evaluations. *)
Definition demo_filter : BloomFilter := fresh 10 (1 / 100) 16 3.

End bloom_filter.

(** ** bloom_filter.py: [__init__] in double precision

    The constructor once more, with a Python float as the IEEE-754 double
    it is: every operation rounds to the nearest double, ties to even.
    [math.log] is the C library's [log] behind CPython's argument and
    result checks; the library function is a parameter of the model. *)

Module bloom_filter_ieee.
Import bloom_filter.

(** The double nearest to an int. *)
Definition float_of_int (n : Z) : float :=
  SF2Prim (binary_normalize prec emax n 0 false).

(** An int operand of a float operation ([n * x]): an int beyond the
    doubles raises. *)
Definition int_to_float (n : Z) : outcome float :=
  let x := float_of_int n in
  if is_infinity x then Raise OverflowError else Ok x.

Definition int_spec (n : Z) : spec_float :=
  match n with
  | Z0 => S754_zero false
  | Zpos m => S754_finite false m 0
  | Zneg m => S754_finite true m 0
  end.

(** The double nearest to the quotient of two ints. *)
Definition int_quotient (a b : Z) : float :=
  SF2Prim (SFdiv prec emax (int_spec a) (int_spec b)).

(** [a / b] on ints. *)
Definition int_truediv (a b : Z) : outcome float :=
  if b =? 0 then Raise ZeroDivisionError
  else
    let q := int_quotient a b in
    if is_infinity q then Raise OverflowError else Ok q.

(** [x / y] on floats. *)
Definition float_truediv (x y : float) : outcome float :=
  if (y =? 0)%float then Raise ZeroDivisionError else Ok (x / y)%float.

(** [x ** 2]: the rounded square. *)
Definition float_pow_2 (x : float) : outcome float :=
  let r := (x * x)%float in
  if is_infinity r && negb (is_infinity x) then Raise OverflowError
  else Ok r.

(** The least integer not below a finite double. *)
Definition ceiling (x : float) : Z :=
  match Prim2SF x with
  | S754_finite s m e =>
      let v := if s then Z.neg m else Z.pos m in
      if 0 <=? e then v * 2 ^ e else - ((- v) / 2 ^ (- e))
  | _ => 0
  end.

(** [math.ceil(x)] on a float. *)
Definition math_ceil (x : float) : outcome Z :=
  if is_nan x then Raise ValueError
  else if is_infinity x then Raise OverflowError
  else Ok (ceiling x).

(** The real number a finite double is. *)
Definition float_val (x : float) : R :=
  match Prim2SF x with
  | S754_finite s m e =>
      let v := if s then Z.neg m else Z.pos m in
      if 0 <=? e then IZR (v * 2 ^ e) else (IZR v / IZR (2 ^ (- e)))%R
  | _ => 0%R
  end.

Section libm.
Variable log : float -> float.

(** [math.log(x)]: NaN and +inf pass through, any other argument that
    is not positive raises, and so does a result that is not finite. *)
Definition math_log (x : float) : outcome float :=
  if is_nan x then Ok x
  else if (x <=? 0)%float then Raise ValueError
  else if is_infinity x then Ok x
  else
    let r := log x in
    if is_nan r || is_infinity r then Raise ValueError else Ok r.

Definition _calculate_optimal_size (n : Z) (p : float) : outcome Z :=
  obind (math_log p) (fun lp =>
  obind (int_to_float n) (fun fn =>
  obind (math_log 2) (fun l2 =>
  obind (float_pow_2 l2) (fun sq =>
  obind (float_truediv (- (fn * lp)) sq) (fun m =>
  math_ceil m))))).

Definition _calculate_optimal_hash_count (m n : Z) : outcome Z :=
  obind (int_truediv m n) (fun q =>
  obind (math_log 2) (fun l2 =>
  math_ceil (q * l2))).

Definition __init__ (expected_items : Z) (false_positive_rate : float)
    : outcome BloomFilter :=
  obind (_calculate_optimal_size expected_items false_positive_rate) (fun m =>
  obind (_calculate_optimal_hash_count m expected_items) (fun k =>
  Ok (fresh expected_items (float_val false_positive_rate) m k))).

End libm.

(** The library logarithm at the arguments of the examples: 0 at 1, and
    the doubles nearest to [ln 2] and to [ln 0.0625 = -4 ln 2], which are
    the values [math.log(2)] and [math.log(0.0625)] print as
    0.6931471805599453 and -2.772588722239781. *)
Definition log_at (x : float) : float :=
  if (x =? 1)%float then 0%float
  else if (x =? 2)%float then 0x1.62e42fefa39efp-1%float
  else if (x =? 0.0625)%float then (-0x1.62e42fefa39efp+1)%float
  else nan.

(** Terms and partial sums of the exponential series, to bound [ln 2]. *)
Fixpoint exp_term (x : R) (i : nat) : R :=
  match i with
  | O => 1%R
  | S j => (exp_term x j * x / INR (S j))%R
  end.

Fixpoint exp_sum (x : R) (k : nat) : R :=
  match k with
  | O => exp_term x O
  | S j => (exp_sum x j + exp_term x (S j))%R
  end.

End bloom_filter_ieee.

(** ** Proofs about rbtree_core.py *)

Module rbtree_proofs.
Import rbtree_core rbtree_model.

(** *** The order on domains *)

Lemma str_ltb_irrefl (a : str) : str_ltb a a = false.
Proof.
  induction a as [|x a IH]; simpl; [done|].
  rewrite Z.ltb_irrefl. exact IH.
Qed.

Lemma str_ltb_trans (a b c : str) :
  str_ltb a b = true -> str_ltb b c = true -> str_ltb a c = true.
Proof.
  revert b c. induction a as [|x a IH]; intros [|y b] [|z c]; simpl; try done.
  destruct (Z.ltb_spec x y), (Z.ltb_spec y x), (Z.ltb_spec y z),
    (Z.ltb_spec z y), (Z.ltb_spec x z), (Z.ltb_spec z x);
    try lia; try done; eauto.
Qed.

Lemma str_ltb_total (a b : str) :
  str_ltb a b = false -> str_ltb b a = false -> a = b.
Proof.
  revert b. induction a as [|x a IH]; intros [|y b]; simpl; try done.
  destruct (Z.ltb_spec x y), (Z.ltb_spec y x); try lia; try done.
  intros. f_equal; [lia | eauto].
Qed.

Lemma str_ltb_asym (a b : str) : str_ltb a b = true -> str_ltb b a = false.
Proof.
  intros H. destruct (str_ltb b a) eqn:E; [|done].
  pose proof (str_ltb_trans _ _ _ H E) as H'.
  rewrite str_ltb_irrefl in H'. done.
Qed.

Lemma str_lt_ne (a b : str) : str_lt a b -> a <> b.
Proof. intros H ->. red in H. rewrite str_ltb_irrefl in H. done. Qed.

(** *** Stepping through monadic code *)

Lemma bind_ok {S A B} (m : M S A) (k : A -> M S B) s a s' :
  m s = (Ok a, s') -> bind m k s = k a s'.
Proof. unfold bind. intros ->. done. Qed.

Lemma load_ok t x n : heap t !! x = Some n -> load x t = (Ok n, t).
Proof. unfold load. intros ->. done. Qed.

Lemma get_ok {A} (f : RBNode -> A) t x n :
  heap t !! x = Some n -> get f x t = (Ok (f n), t).
Proof. intros H. unfold get. rewrite (bind_ok _ _ _ _ _ (load_ok _ _ _ H)). done. Qed.

Lemma set_ok {A} (f : RBNode -> A -> RBNode) t x v n :
  heap t !! x = Some n ->
  set f x v t = (Ok tt, mkTree (<[x := f n v]> (heap t)) (root t) (size t)).
Proof. intros H. unfold set. rewrite (bind_ok _ _ _ _ _ (load_ok _ _ _ H)). done. Qed.

Lemma parent_of_ok t x n p :
  heap t !! x = Some n -> parent n = Some p -> parent_of x t = (Ok p, t).
Proof.
  intros H Hp. unfold parent_of.
  rewrite (bind_ok _ _ _ _ _ (get_ok _ _ _ _ H)), Hp. done.
Qed.

(** *** Cells and frames of the store *)

Lemma elems_plug t ctx : elems (plug t ctx) = ctx_lo ctx ++ elems t ++ ctx_hi ctx.
Proof.
  revert t. induction ctx as [|[d c a k s] ctx IH]; intros t; simpl.
  - by rewrite app_nil_r.
  - rewrite IH. unfold fill. destruct d; simpl.
    + by rewrite <- !app_assoc.
    + by rewrite <- !app_assoc.
Qed.

Lemma addrs_plug_perm t ctx : addrs (plug t ctx) ≡ₚ addrs t ++ ctx_addrs ctx.
Proof.
  unfold addrs, ctx_addrs. rewrite elems_plug, !map_app.
  apply Permutation_app_swap_app.
Qed.

Lemma addrs_Node c l a k r : addrs (Node c l a k r) = addrs l ++ a :: addrs r.
Proof. unfold addrs. simpl. by rewrite map_app. Qed.

Lemma keys_Node c l a k r : keys (Node c l a k r) = keys l ++ k :: keys r.
Proof. unfold keys. simpl. by rewrite map_app. Qed.

Lemma ctx_addrs_cons f ctx :
  ctx_addrs (f :: ctx) ≡ₚ faddr f :: addrs (fsib f) ++ ctx_addrs ctx.
Proof.
  unfold ctx_addrs, addrs. destruct f as [[] c a k s]; simpl.
  - rewrite map_app, <- Permutation_middle. constructor.
    apply Permutation_app_swap_app.
  - rewrite !map_app. simpl. rewrite <- !app_assoc. simpl.
    rewrite app_assoc, <- Permutation_middle. constructor.
    rewrite <- app_assoc. apply Permutation_app_swap_app.
Qed.

Lemma cell_lookup h a c k par l r :
  cell h a c k par l r -> exists n, h !! a = Some n /\ color n = c /\
    domain n = k /\ parent n = par /\ left n = l /\ right n = r.
Proof. by intros [_ H]. Qed.

Lemma cell_insert_ne h a b n c k par l r :
  a <> b -> cell h a c k par l r -> cell (<[b := n]> h) a c k par l r.
Proof.
  intros Hne [H0 (m & Hm & Hf)]. split; [done|]. exists m.
  split; [|done]. by rewrite list_lookup_insert_ne.
Qed.

Lemma cell_insert_eq h a n0 n c k par l r :
  a <> NIL -> h !! a = Some n0 ->
  color n = c -> domain n = k -> parent n = par -> left n = l -> right n = r ->
  cell (<[a := n]> h) a c k par l r.
Proof.
  intros H0 Hl ? ? ? ? ?. split; [done|]. exists n. split; [|done].
  apply list_lookup_insert_eq. by eapply lookup_lt_Some.
Qed.

Lemma rep_addrs_lt h par t a : rep h par t -> a ∈ addrs t -> (a < length h)%nat /\ a <> NIL.
Proof.
  revert par. induction t as [|c l IHl b k r IHr]; intros par; simpl.
  - unfold addrs. simpl. intros _ H. by apply elem_of_nil in H.
  - intros ([H0 (n & Hn & _)] & Hl & Hr). rewrite addrs_Node.
    rewrite elem_of_app, elem_of_cons. intros [H|[->|H]]; eauto.
    split; [by eapply lookup_lt_Some | done].
Qed.

Lemma rep_insert_notin h par t b n :
  b ∉ addrs t -> rep h par t -> rep (<[b := n]> h) par t.
Proof.
  revert par. induction t as [|c l IHl a k r IHr]; intros par; simpl; [done|].
  rewrite addrs_Node, not_elem_of_app, not_elem_of_cons.
  intros (Hl & Hne & Hr) (Hc & Hrl & Hrr).
  split; [|split]; eauto using cell_insert_ne.
Qed.

Lemma rep_app h par t n : rep h par t -> rep (h ++ [n]) par t.
Proof.
  revert par. induction t as [|c l IHl a k r IHr]; intros par; simpl; [done|].
  intros ([H0 (m & Hm & Hf)] & Hrl & Hrr). split; [|split]; eauto.
  split; [done|]. exists m. split; [|done]. by apply lookup_app_l_Some.
Qed.

Lemma rep_ctx_insert_notin h child ctx rt b n :
  b ∉ ctx_addrs ctx -> rep_ctx h child ctx rt -> rep_ctx (<[b := n]> h) child ctx rt.
Proof.
  revert child. induction ctx as [|f ctx IH]; intros child; simpl; [done|].
  rewrite ctx_addrs_cons, not_elem_of_cons, not_elem_of_app.
  intros (Hne & Hs & Hc) (Hcell & Hsib & Hrest).
  split; [|split]; eauto using rep_insert_notin.
  destruct (fside f); eauto using cell_insert_ne.
Qed.

Lemma rep_ctx_app h child ctx rt n :
  rep_ctx h child ctx rt -> rep_ctx (h ++ [n]) child ctx rt.
Proof.
  revert child. induction ctx as [|f ctx IH]; intros child; simpl; [done|].
  intros (Hcell & Hsib & Hrest). split; [|split]; eauto using rep_app.
  assert (Hc : forall c k par l r, cell h (faddr f) c k par l r ->
                 cell (h ++ [n]) (faddr f) c k par l r).
  { intros c k par l r [H0 (m & Hm & Hf)]. split; [done|]. exists m.
    split; [|done]. by apply lookup_app_l_Some. }
  destruct (fside f); eauto.
Qed.

Lemma nil_ok_insert h b n : b <> NIL -> nil_ok h -> nil_ok (<[b := n]> h).
Proof.
  intros Hne (m & Hm & Hc). exists m. split; [|done].
  by rewrite list_lookup_insert_ne.
Qed.

(** *** Distinct addresses *)

Lemma NoDup_app_disj (l k : list ref) :
  NoDup (l ++ k) <-> NoDup l /\ disj l k /\ NoDup k.
Proof. apply NoDup_app. Qed.

Lemma disj_nil_l (k : list ref) : disj [] k <-> True.
Proof. split; [done|]. intros _ x Hx. by apply elem_of_nil in Hx. Qed.

Lemma disj_nil_r (l : list ref) : disj l [] <-> True.
Proof. split; [done|]. intros _ x _ Hx. by apply elem_of_nil in Hx. Qed.

Lemma disj_cons_l a (l k : list ref) : disj (a :: l) k <-> (a ∉ k) /\ disj l k.
Proof.
  unfold disj. split.
  - intros H. split; [apply H; left|]. intros x Hx. apply H. by right.
  - intros [Ha H] x Hx. apply elem_of_cons in Hx as [->|Hx]; auto.
Qed.

Lemma disj_app_l (l1 l2 k : list ref) :
  disj (l1 ++ l2) k <-> disj l1 k /\ disj l2 k.
Proof.
  unfold disj. split.
  - intros H. split; intros x Hx; apply H, elem_of_app; auto.
  - intros [H1 H2] x Hx. apply elem_of_app in Hx as [Hx|Hx]; auto.
Qed.

Lemma disj_cons_r a (l k : list ref) : disj l (a :: k) <-> (a ∉ l) /\ disj l k.
Proof.
  unfold disj. split.
  - intros H. split.
    + intros Ha. apply (H _ Ha). left.
    + intros x Hx Hk. apply (H _ Hx). by right.
  - intros [Ha H] x Hx Hk. apply elem_of_cons in Hk as [->|Hk]; [done|].
    by apply (H _ Hx).
Qed.

Lemma disj_app_r (l k1 k2 : list ref) :
  disj l (k1 ++ k2) <-> disj l k1 /\ disj l k2.
Proof.
  unfold disj. split.
  - intros H. split; intros x Hx Hk; apply (H _ Hx), elem_of_app; auto.
  - intros [H1 H2] x Hx Hk. apply elem_of_app in Hk as [Hk|Hk];
      [by apply (H1 _ Hx) | by apply (H2 _ Hx)].
Qed.

Lemma not_elem_of_nil_iff (a : ref) : a ∉ @nil ref <-> True.
Proof. split; [done|]. intros _ H. by apply elem_of_nil in H. Qed.

Lemma addrs_Leaf : addrs Leaf = [].
Proof. done. Qed.

(** Break a [NoDup] fact into atomic ones. *)
Ltac nodup_facts H :=
  repeat first
    [ rewrite addrs_Node in H | rewrite addrs_Leaf in H
    | rewrite ctx_addrs_cons in H
    | rewrite NoDup_app_disj in H | rewrite NoDup_cons in H
    | rewrite disj_app_l in H | rewrite disj_cons_l in H
    | rewrite disj_app_r in H | rewrite disj_cons_r in H
    | rewrite disj_nil_l in H | rewrite disj_nil_r in H
    | rewrite not_elem_of_app in H | rewrite not_elem_of_cons in H
    | rewrite not_elem_of_nil_iff in H ];
  cbn [faddr fsib] in H.

Ltac neq := first [ assumption | apply not_eq_sym; assumption | congruence ].

Ltac notin :=
  repeat first
    [ rewrite addrs_Node | rewrite addrs_Leaf | rewrite ctx_addrs_cons
    | rewrite not_elem_of_app | rewrite not_elem_of_cons
    | rewrite not_elem_of_nil_iff ];
  cbn [faddr fsib];
  repeat split; first [ done | assumption | neq ].

Lemma zrep_nodup t tr ctx :
  zrep t tr ctx -> NoDup (addrs tr ++ ctx_addrs ctx).
Proof. intros (_ & _ & _ & H). by rewrite <- addrs_plug_perm. Qed.

Lemma nodup_plug_same tr tr' ctx :
  elems tr' = elems tr -> NoDup (addrs (plug tr ctx)) -> NoDup (addrs (plug tr' ctx)).
Proof. unfold addrs. rewrite !elems_plug. by intros ->. Qed.

Lemma recolor_spec t c c' l a k r ctx :
  zrep t (Node c l a k r) ctx ->
  exists t', set with_color a c' t = (Ok tt, t') /\
             zrep t' (Node c' l a k r) ctx /\
             length (heap t') = length (heap t) /\ size t' = size t.
Proof.
  intros Hz. pose proof (zrep_nodup _ _ _ Hz) as Hnd.
  destruct Hz as (Hnil & Hrep & Hctx & Hnd0). simpl in Hrep.
  destruct Hrep as ([Ha0 (n & Hn & Hc & Hk & Hp & Hl & Hr)] & Hrl & Hrr).
  nodup_facts Hnd. destruct_and!.
  eexists. split; [by apply set_ok|]. simpl.
  split; [|by rewrite length_insert].
  split; [|split; [|split]]; simpl.
  - by apply nil_ok_insert.
  - split; [|split].
    + eapply cell_insert_eq; eauto.
    + apply rep_insert_notin; [|done]. notin.
    + apply rep_insert_notin; [|done]. notin.
  - apply rep_ctx_insert_notin; [|done]. notin.
  - eapply nodup_plug_same; [|done]. done.
Qed.


(** Lookups in a store after a series of field writes. *)
Lemma bind_assoc {S A B C} (m : M S A) (f : A -> M S B) (g : B -> M S C) s :
  bind (bind m f) g s = bind m (fun x => bind (f x) g) s.
Proof. unfold bind. destruct (m s) as [[]]; done. Qed.

Lemma bind_ret {S A B} (a : A) (k : A -> M S B) s : bind (ret a) k s = k a s.
Proof. done. Qed.

Ltac lk :=
  cbn [heap root size];
  repeat match goal with
  | |- (<[?a := _]> _) !! ?a = Some _ =>
      apply list_lookup_insert_eq; rewrite ?length_insert, ?length_app;
      first [ eapply lookup_lt_Some; eassumption | cbn [length]; lia ]
  | |- (<[_ := _]> _) !! _ = Some _ => rewrite list_lookup_insert_ne by neq
  | |- (?h ++ [_]) !! length ?h = Some _ => apply list_lookup_middle; reflexivity
  | |- (_ ++ _) !! _ = Some _ => apply lookup_app_l_Some
  | |- _ !! _ = Some _ => eassumption
  end.
Lemma bind_set_root {B} r (k : unit -> T B) t :
  bind (set_root r) k t = k tt (mkTree (heap t) r (size t)).
Proof. done. Qed.

Lemma bind_get_root {B} (k : ref -> T B) t :
  bind get_root k t = k (root t) t.
Proof. done. Qed.

Ltac fld :=
  cbn [domain reputation_score spam_reports legitimate_reports color left
       right parent with_color with_left with_right with_parent
       with_reputation_score with_spam_reports with_legitimate_reports
       heap root size addr_of ctx_parent faddr].
Ltac norm :=
  repeat first [ rewrite bind_assoc | rewrite bind_ret
               | rewrite bind_set_root | rewrite bind_get_root ];
  cbv beta; fld.
Ltac step_get :=
  norm; erewrite (bind_ok (get _ _)); [| eapply get_ok; lk]; norm;
  cbn [domain reputation_score spam_reports legitimate_reports color left right parent].
Ltac step_set :=
  norm;
  first [ erewrite (bind_ok (set _ _ _)); [| eapply set_ok; lk]
        | erewrite set_ok; [| lk] ]; norm.
Ltac step_if :=
  norm;
  first [ rewrite Nat.eqb_refl
        | rewrite (proj2 (Nat.eqb_neq _ _)) by neq ];
  cbn [negb].

Lemma nil_ok_app h n : nil_ok h -> nil_ok (h ++ [n]).
Proof.
  intros (m & Hm & Hc). exists m. split; [|done]. by apply lookup_app_l_Some.
Qed.

Lemma addr_of_notin a t : a <> NIL -> a ∉ addrs t -> a <> addr_of t.
Proof.
  destruct t as [|c l b k r]; simpl; [done|].
  rewrite addrs_Node, not_elem_of_app, not_elem_of_cons. tauto.
Qed.

Ltac exec := repeat first [ step_get | step_set | step_if ]; reflexivity.
Ltac cell_fin :=
  split; [ neq | eexists; split; [ lk | fld; repeat split; reflexivity ] ].
Ltac rep_frame :=
  repeat (apply rep_insert_notin; [ notin |]); try apply rep_app; assumption.
Ltac ctx_frame :=
  repeat (apply rep_ctx_insert_notin; [ notin |]); try apply rep_ctx_app;
  assumption.
Ltac nil_frame :=
  repeat (apply nil_ok_insert; [ neq |]); try apply nil_ok_app; assumption.

Ltac rep_fin :=
  lazymatch goal with
  | |- _ /\ _ => split; rep_fin
  | |- cell _ _ _ _ _ _ _ => cell_fin
  | |- rep _ _ _ => rep_frame
  | |- rep_ctx _ _ _ _ => ctx_frame
  | |- True => exact I
  | |- _ = _ => reflexivity
  end.

Lemma elems_rotate cx a x kx cy b y ky c :
  elems (Node cy (Node cx a x kx b) y ky c) =
  elems (Node cx a x kx (Node cy b y ky c)).
Proof. simpl. by rewrite <- app_assoc. Qed.

Lemma elems_rotate_r cx a x kx cy b y ky c :
  elems (Node cx a x kx (Node cy b y ky c)) =
  elems (Node cy (Node cx a x kx b) y ky c).
Proof. by rewrite elems_rotate. Qed.

Ltac open_frame H :=
  cbn [rep_ctx fside fcolor faddr fkey fsib] in H;
  let np := fresh "np" in
  let Hp0 := fresh "Hp0" in let Hnp := fresh "Hnp" in
  let Hpf := fresh "Hpf" in let Hrs := fresh "Hrs" in
  let Hrc := fresh "Hrest" in
  destruct H as ([Hp0 (np & Hnp & Hpf)] & Hrs & Hrc);
  destruct np; cbn [domain reputation_score spam_reports legitimate_reports
                    color left right parent] in Hpf;
  destruct_and!; subst.

Ltac open_cell H :=
  let n := fresh "n" in
  let H0 := fresh "Hc0" in let Hn := fresh "Hn" in let Hf := fresh "Hf" in
  destruct H as [H0 (n & Hn & Hf)];
  destruct n; cbn [domain reputation_score spam_reports legitimate_reports
                   color left right parent] in Hf;
  destruct_and!; subst.

Ltac zrep_fin Hnd0 lem :=
  fld; split; [| by rewrite ?length_insert ];
  split; [ nil_frame |];
  split; [ cbn [rep]; fld; rep_fin |];
  split; [ cbn [rep_ctx fside fcolor faddr fkey fsib]; fld; rep_fin |];
  eapply nodup_plug_same; [ apply lem | exact Hnd0 ].

Lemma left_rotate_spec t cx a x kx cy b y ky c ctx :
  zrep t (Node cx a x kx (Node cy b y ky c)) ctx ->
  exists t', _left_rotate x t = (Ok tt, t') /\
             zrep t' (Node cy (Node cx a x kx b) y ky c) ctx /\
             length (heap t') = length (heap t) /\ size t' = size t.
Proof.
  intros Hz. pose proof (zrep_nodup _ _ _ Hz) as Hnd.
  destruct Hz as (Hnil & Hrep & Hctx & Hnd0). cbn [rep] in Hrep.
  destruct Hrep as (Hcx & Hra & Hcy & Hrb & Hrc).
  open_cell Hcx. open_cell Hcy.
  destruct t as [h rt sz]. cbn [heap root size addr_of] in *.
  unfold _left_rotate.
  destruct b as [|cb bl ab kb br];
    [| cbn [rep] in Hrb; destruct Hrb as (Hcb & Hrbl & Hrbr); open_cell Hcb ];
  (destruct ctx as [|[[] fc p fk fs] ctx];
   [ cbn [rep_ctx] in Hctx; subst rt
   | open_frame Hctx | open_frame Hctx ]);
  nodup_facts Hnd; destruct_and!; cbn [ctx_parent faddr addr_of] in *;
  try (assert (x <> addr_of fs) by (apply addr_of_notin; assumption));
  (eexists; split; [ exec | zrep_fin Hnd0 elems_rotate ]).
Qed.

Lemma right_rotate_spec t cx a x kx cy b y ky c ctx :
  zrep t (Node cy (Node cx a x kx b) y ky c) ctx ->
  exists t', _right_rotate y t = (Ok tt, t') /\
             zrep t' (Node cx a x kx (Node cy b y ky c)) ctx /\
             length (heap t') = length (heap t) /\ size t' = size t.
Proof.
  intros Hz. pose proof (zrep_nodup _ _ _ Hz) as Hnd.
  destruct Hz as (Hnil & Hrep & Hctx & Hnd0). cbn [rep] in Hrep.
  destruct Hrep as (Hcy & (Hcx & Hra & Hrb) & Hrc).
  open_cell Hcy. open_cell Hcx.
  destruct t as [h rt sz]. cbn [heap root size addr_of] in *.
  unfold _right_rotate.
  destruct b as [|cb bl ab kb br];
    [| cbn [rep] in Hrb; destruct Hrb as (Hcb & Hrbl & Hrbr); open_cell Hcb ];
  (destruct ctx as [|[[] fc p fk fs] ctx];
   [ cbn [rep_ctx] in Hctx; subst rt
   | open_frame Hctx | open_frame Hctx ]);
  nodup_facts Hnd; destruct_and!; cbn [ctx_parent faddr addr_of] in *;
  try (assert (y <> addr_of fs) by (apply addr_of_notin; assumption));
  (eexists; split; [ exec | zrep_fin Hnd0 elems_rotate_r ]).
Qed.

(** *** Moving the focus *)

Lemma zrep_up t tr f ctx : zrep t tr (f :: ctx) -> zrep t (fill f tr) ctx.
Proof.
  intros (Hnil & Hrep & Hctx & Hnd). split; [done|].
  cbn [rep_ctx ctx_parent plug] in *.
  destruct Hctx as (Hc & Hs & Hrest).
  unfold fill in *. destruct (fside f); cbn [rep addr_of]; tauto.
Qed.

Lemma zrep_down_l t c l a k r ctx :
  zrep t (Node c l a k r) ctx -> zrep t l (Frame Lft c a k r :: ctx).
Proof.
  intros (Hnil & Hrep & Hctx & Hnd). split; [done|].
  cbn [rep_ctx ctx_parent plug rep addr_of fill fside fcolor faddr fkey fsib] in *.
  tauto.
Qed.

Lemma zrep_down_r t c l a k r ctx :
  zrep t (Node c l a k r) ctx -> zrep t r (Frame Rgt c a k l :: ctx).
Proof.
  intros (Hnil & Hrep & Hctx & Hnd). split; [done|].
  cbn [rep_ctx ctx_parent plug rep addr_of fill fside fcolor faddr fkey fsib] in *.
  tauto.
Qed.

Lemma zrep_whole t tr ctx : zrep t tr ctx -> zrep t (plug tr ctx) [].
Proof.
  revert tr. induction ctx as [|f ctx IH]; intros tr H; [done|].
  cbn [plug]. by apply IH, zrep_up.
Qed.

(** *** Reading fields at the focus *)

Lemma zrep_lookup t c l a k r ctx :
  zrep t (Node c l a k r) ctx ->
  exists n, heap t !! a = Some n /\ color n = c /\ domain n = k /\
            parent n = ctx_parent ctx /\ left n = addr_of l /\ right n = addr_of r.
Proof. intros (_ & (Hc & _) & _). by apply cell_lookup in Hc. Qed.

Lemma zrep_get_color t c l a k r ctx :
  zrep t (Node c l a k r) ctx -> get color a t = (Ok c, t).
Proof.
  intros H. apply zrep_lookup in H as (n & Hn & <- & _). by apply get_ok.
Qed.

Lemma zrep_get_domain t c l a k r ctx :
  zrep t (Node c l a k r) ctx -> get domain a t = (Ok k, t).
Proof.
  intros H. apply zrep_lookup in H as (n & Hn & _ & <- & _). by apply get_ok.
Qed.

Lemma zrep_get_parent t c l a k r ctx :
  zrep t (Node c l a k r) ctx -> get parent a t = (Ok (ctx_parent ctx), t).
Proof.
  intros H. apply zrep_lookup in H as (n & Hn & _ & _ & <- & _). by apply get_ok.
Qed.

Lemma zrep_get_left t c l a k r ctx :
  zrep t (Node c l a k r) ctx -> get left a t = (Ok (addr_of l), t).
Proof.
  intros H. apply zrep_lookup in H as (n & Hn & _ & _ & _ & <- & _). by apply get_ok.
Qed.

Lemma zrep_get_right t c l a k r ctx :
  zrep t (Node c l a k r) ctx -> get right a t = (Ok (addr_of r), t).
Proof.
  intros H. apply zrep_lookup in H as (n & Hn & _ & _ & _ & _ & <-). by apply get_ok.
Qed.

Lemma zrep_parent_of t c l a k r f ctx :
  zrep t (Node c l a k r) (f :: ctx) -> parent_of a t = (Ok (faddr f), t).
Proof.
  intros H. unfold parent_of. by rewrite (bind_ok _ _ _ _ _ (zrep_get_parent _ _ _ _ _ _ _ H)).
Qed.

Lemma zrep_get_color_nil t tr ctx :
  zrep t tr ctx -> get color NIL t = (Ok BLACK, t).
Proof. intros ((n & Hn & <-) & _). by apply get_ok. Qed.

Lemma elems_plug_same tr tr' ctx :
  elems tr' = elems tr -> elems (plug tr' ctx) = elems (plug tr ctx).
Proof. rewrite !elems_plug. by intros ->. Qed.

(** Resolve the next read of the code from the [zrep] facts at hand. *)
Ltac rd_with H :=
  first [ eapply zrep_parent_of; exact H
        | eapply zrep_get_color; exact H
        | eapply zrep_get_parent; exact H
        | eapply zrep_get_left; exact H
        | eapply zrep_get_right; exact H
        | eapply zrep_get_domain; exact H
        | eapply zrep_get_color_nil; exact H ].
Ltac rd1 := match goal with H : zrep _ _ _ |- _ => rd_with H end.
Ltac rd :=
  norm; erewrite bind_ok; [| rd1 ];
  norm; cbn [deref ctx_parent faddr Color_eqb].
Ltac rds := repeat rd.

Ltac foci H :=
  lazymatch type of H with
  | zrep _ (Node _ ?l _ _ ?r) _ =>
      (lazymatch l with
       | Node _ _ _ _ _ =>
           let Hl := fresh "Hf" in
           pose proof (zrep_down_l _ _ _ _ _ _ _ H) as Hl; foci Hl
       | _ => idtac
       end);
      (lazymatch r with
       | Node _ _ _ _ _ =>
           let Hr := fresh "Hf" in
           pose proof (zrep_down_r _ _ _ _ _ _ _ H) as Hr; foci Hr
       | _ => idtac
       end)
  | _ => idtac
  end.

Ltac clear_zrep t :=
  repeat match goal with H : zrep t _ _ |- _ => clear H end.

Ltac zip_up H :=
  repeat (apply zrep_up in H; cbn [fill fside fcolor faddr fkey fsib] in H).

(** Run the next write of the code through its specification. *)
Ltac mut_core E Hz t :=
  norm;
  first [ rewrite (bind_ok _ _ _ _ _ E) | rewrite E ];
  clear E; clear_zrep t; zip_up Hz; foci Hz; norm.

Ltac mut_color :=
  norm;
  lazymatch goal with
  | |- context [set with_color ?a ?c] =>
      match goal with
      | H : zrep ?t (Node _ _ a _ _) _ |- _ =>
          let t1 := fresh "t" in let E := fresh "E" in let Hz := fresh "Hz" in
          let Hl := fresh "Hlen" in let Hs := fresh "Hsz" in
          destruct (recolor_spec _ _ c _ _ _ _ _ H) as (t1 & E & Hz & Hl & Hs);
          mut_core E Hz t
      end
  end.

Ltac mut_lrot :=
  norm;
  lazymatch goal with
  | |- context [_left_rotate ?a] =>
      match goal with
      | H : zrep ?t (Node _ _ a _ (Node _ _ _ _ _)) _ |- _ =>
          let t1 := fresh "t" in let E := fresh "E" in let Hz := fresh "Hz" in
          let Hl := fresh "Hlen" in let Hs := fresh "Hsz" in
          destruct (left_rotate_spec _ _ _ _ _ _ _ _ _ _ _ H) as (t1 & E & Hz & Hl & Hs);
          mut_core E Hz t
      end
  end.

Ltac mut_rrot :=
  norm;
  lazymatch goal with
  | |- context [_right_rotate ?a] =>
      match goal with
      | H : zrep ?t (Node _ (Node _ _ _ _ _) a _ _) _ |- _ =>
          let t1 := fresh "t" in let E := fresh "E" in let Hz := fresh "Hz" in
          let Hl := fresh "Hlen" in let Hs := fresh "Hsz" in
          destruct (right_rotate_spec _ _ _ _ _ _ _ _ _ _ _ H) as (t1 & E & Hz & Hl & Hs);
          mut_core E Hz t
      end
  end.

Lemma zrep_ne_nil t c l a k r ctx : zrep t (Node c l a k r) ctx -> a <> NIL.
Proof. by intros (_ & ([H _] & _) & _). Qed.

Ltac fin_iter Hz n' :=
  lazymatch type of Hz with
  | zrep ?t' (Node RED ?l' ?x' ?k' ?r') ?ctx' =>
      exists t', x', l', k', r', ctx', n';
      split; [ first [ reflexivity | (etrans; [ rd1 | reflexivity ]) ] |];
      split; [ exact Hz |]
  end.

Ltac elems_tac :=
  apply elems_plug_same; cbn [elems];
  repeat (rewrite <- app_assoc; cbn [app]); reflexivity.

Ltac fin Hz n' :=
  fin_iter Hz n';
  cbn [plug fill fside fcolor faddr fkey fsib length];
  cbn [rbh root_black ctx_ok ctx_black fcolor fsib] in *; destruct_and?;
  repeat match goal with H : ex _ |- _ => destruct H end; destruct_and?;
  subst;
  repeat first [ split | eexists ];
  eauto; try lia; try congruence; try elems_tac.

Ltac fin_ret n' :=
  match goal with
  | |- context [ret ?x _] =>
      match goal with
      | H : zrep _ (Node RED _ x _ _) _ |- _ => fin H n'
      end
  end.

Lemma fixup_left_spec t l x k r fp cg g kg u ctx n :
  zrep t (Node RED l x k r) (fp :: Frame Lft cg g kg u :: ctx) ->
  fcolor fp = RED ->
  rbh (Node RED l x k r) n ->
  ctx_ok n (fp :: Frame Lft cg g kg u :: ctx) ->
  exists t' x' l' k' r' ctx' n',
    fixup_left x t = (Ok x', t') /\
    zrep t' (Node RED l' x' k' r') ctx' /\
    rbh (Node RED l' x' k' r') n' /\ ctx_ok n' ctx' /\
    elems (plug (Node RED l' x' k' r') ctx') =
      elems (plug (Node RED l x k r) (fp :: Frame Lft cg g kg u :: ctx)) /\
    (length ctx' < length ctx + 2)%nat /\
    length (heap t') = length (heap t) /\ size t' = size t.
Proof.
  intros Hz Hfp Hrb Hok.
  destruct fp as [d cp p kp s]. cbn [fcolor] in Hfp. subst cp.
  cbn [ctx_ok fcolor fsib ctx_black] in Hok.
  destruct Hok as (Hs & Hsb & -> & Hu & Hok).
  pose proof (zrep_ne_nil _ _ _ _ _ _ _ Hz) as Hx0.
  pose proof Hz as Hz0.
  zip_up Hz0. unfold fixup_left.
  pose proof (zrep_nodup _ _ _ Hz0) as Hnd.
  destruct u as [|[] ul ua uk ur];
    (destruct d; cbn [fill fside fcolor faddr fkey fsib] in Hz0, Hnd; foci Hz0;
     nodup_facts Hnd; destruct_and?).
  - (* uncle is the sentinel, node is a left child *)
    assert (x <> addr_of s) by (apply addr_of_notin; assumption).
    rds. step_if. rds. mut_color. rds. mut_color. rds. mut_rrot.
    fin_ret n.
  - (* uncle is the sentinel, node is a right child *)
    rds. step_if. rds. mut_lrot. rds. mut_color. rds. mut_color. rds. mut_rrot.
    fin_ret n.
  - (* uncle RED *)
    rds. mut_color. mut_color. rds. mut_color. rds. fin Hz0 (S n).
  - rds. mut_color. mut_color. rds. mut_color. rds. fin Hz0 (S n).
  - (* uncle BLACK *)
    assert (x <> addr_of s) by (apply addr_of_notin; assumption).
    rds. step_if. rds. mut_color. rds. mut_color. rds. mut_rrot.
    fin_ret n.
  - rds. step_if. rds. mut_lrot. rds. mut_color. rds. mut_color. rds. mut_rrot.
    fin_ret n.
Qed.

Lemma fixup_right_spec t l x k r fp cg g kg u ctx n :
  zrep t (Node RED l x k r) (fp :: Frame Rgt cg g kg u :: ctx) ->
  fcolor fp = RED ->
  rbh (Node RED l x k r) n ->
  ctx_ok n (fp :: Frame Rgt cg g kg u :: ctx) ->
  exists t' x' l' k' r' ctx' n',
    fixup_right x t = (Ok x', t') /\
    zrep t' (Node RED l' x' k' r') ctx' /\
    rbh (Node RED l' x' k' r') n' /\ ctx_ok n' ctx' /\
    elems (plug (Node RED l' x' k' r') ctx') =
      elems (plug (Node RED l x k r) (fp :: Frame Rgt cg g kg u :: ctx)) /\
    (length ctx' < length ctx + 2)%nat /\
    length (heap t') = length (heap t) /\ size t' = size t.
Proof.
  intros Hz Hfp Hrb Hok.
  destruct fp as [d cp p kp s]. cbn [fcolor] in Hfp. subst cp.
  cbn [ctx_ok fcolor fsib ctx_black] in Hok.
  destruct Hok as (Hs & Hsb & -> & Hu & Hok).
  pose proof (zrep_ne_nil _ _ _ _ _ _ _ Hz) as Hx0.
  pose proof Hz as Hz0.
  zip_up Hz0. unfold fixup_right.
  pose proof (zrep_nodup _ _ _ Hz0) as Hnd.
  destruct u as [|[] ul ua uk ur];
    (destruct d; cbn [fill fside fcolor faddr fkey fsib] in Hz0, Hnd; foci Hz0;
     nodup_facts Hnd; destruct_and?).
  - (* uncle is the sentinel, node is a left child *)
    rds. step_if. rds. mut_rrot. rds. mut_color. rds. mut_color. rds. mut_lrot.
    fin_ret n.
  - (* uncle is the sentinel, node is a right child *)
    assert (x <> addr_of s) by (apply addr_of_notin; assumption).
    rds. step_if. rds. mut_color. rds. mut_color. rds. mut_lrot.
    fin_ret n.
  - (* uncle RED *)
    rds. mut_color. mut_color. rds. mut_color. rds. fin Hz0 (S n).
  - rds. mut_color. mut_color. rds. mut_color. rds. fin Hz0 (S n).
  - (* uncle BLACK *)
    rds. step_if. rds. mut_rrot. rds. mut_color. rds. mut_color. rds. mut_lrot.
    fin_ret n.
  - assert (x <> addr_of s) by (apply addr_of_notin; assumption).
    rds. step_if. rds. mut_color. rds. mut_color. rds. mut_lrot.
    fin_ret n.
Qed.

(** *** Colour invariants of a plugged context *)

Lemma rbh_blacken t n : rbh t n -> exists m, rbh (blacken t) m.
Proof.
  destruct t as [|[] l a k r]; cbn [blacken rbh].
  - eauto.
  - intros (_ & _ & Hl & Hr). exists (S n). eauto.
  - intros (m & -> & Hl & Hr). exists (S m). eauto.
Qed.

Lemma plug_rbh ctx : forall tr n,
  rbh tr n -> ctx_ok n ctx -> (ctx_red ctx -> root_black tr) ->
  exists m, rbh (plug tr ctx) m.
Proof.
  induction ctx as [|[d c a k s] ctx IH]; intros tr n Hrb Hok Hred; cbn [plug].
  - eauto.
  - cbn [ctx_ok fcolor fsib ctx_red] in *. destruct c.
    + destruct Hok as (Hs & Hsb & Hb & Hok).
      apply (IH _ n); [|done|].
      * unfold fill; destruct d; cbn [fside fcolor fsib faddr fkey rbh]; auto.
      * intros Hr. destruct ctx as [|f ctx']; [done|].
        cbn [ctx_black ctx_red] in *. congruence.
    + destruct Hok as (Hs & Hok).
      apply (IH _ (S n)); [|done|].
      * unfold fill; destruct d; cbn [fside fcolor fsib faddr fkey rbh]; eauto.
      * intros _. unfold fill; by destruct d.
Qed.

Lemma plug_not_leaf tr ctx : tr <> Leaf -> plug tr ctx <> Leaf.
Proof.
  revert tr. induction ctx as [|f ctx IH]; intros tr H; cbn [plug]; [done|].
  apply IH. unfold fill. by destruct (fside f).
Qed.

(** *** The fix-up loop *)

Lemma fixup_loop_spec fuel : forall t l x k r ctx n,
  zrep t (Node RED l x k r) ctx ->
  rbh (Node RED l x k r) n -> ctx_ok n ctx ->
  (length ctx < fuel)%nat ->
  exists t' tr m,
    fixup_loop fuel x t = (Ok tt, t') /\
    zrep t' tr [] /\ tr <> Leaf /\ rbh (blacken tr) m /\
    elems tr = elems (plug (Node RED l x k r) ctx) /\
    length (heap t') = length (heap t) /\ size t' = size t.
Proof.
  induction fuel as [|fuel IH]; intros t l x k r ctx n Hz Hrb Hok Hfuel; [lia|].
  cbn [fixup_loop].
  destruct ctx as [|[d cp p kp s] ctx].
  { (* node is the root *)
    rds. exists t, (Node RED l x k r), (S n).
    cbn [rbh] in Hrb. cbn [rbh blacken plug]. destruct_and?.
    split; [reflexivity|]. split; [exact Hz|]. split; [done|].
    split; [eauto|]. done. }
  pose proof Hz as Hz0. zip_up Hz0.
  destruct cp.
  2: { (* parent BLACK *)
    destruct d; cbn [fill fside fcolor faddr fkey fsib] in Hz0; foci Hz0; rds.
    all: destruct (plug_rbh _ _ _ Hrb Hok) as (m & Hm); [done|];
      destruct (rbh_blacken _ _ Hm) as (m' & Hm');
      eexists t, _, m'; split; [reflexivity|];
      split; [by apply zrep_whole|];
      split; [by apply plug_not_leaf|]; done. }
  (* parent RED *)
  pose proof Hok as Hok0.
  cbn [ctx_ok fcolor fsib] in Hok0. destruct Hok0 as (_ & _ & Hb & _).
  destruct ctx as [|[d' cg g kg u] ctx]; [done|].
  cbn [ctx_black fcolor] in Hb. subst cg.
  zip_up Hz0.
  pose proof (zrep_nodup _ _ _ Hz0) as Hnd.
  pose proof (zrep_ne_nil _ _ _ _ _ _ _ Hz) as Hx0.
  destruct d'.
  - (* parent is a left child *)
    assert (Hstep : exists t1 x1 l1 k1 r1 ctx1 n1,
      (node <- fixup_left x ;; fixup_loop fuel node) t =
        fixup_loop fuel x1 t1 /\
      zrep t1 (Node RED l1 x1 k1 r1) ctx1 /\
      rbh (Node RED l1 x1 k1 r1) n1 /\ ctx_ok n1 ctx1 /\
      elems (plug (Node RED l1 x1 k1 r1) ctx1) =
        elems (plug (Node RED l x k r)
                 (Frame d RED p kp s :: Frame Lft BLACK g kg u :: ctx)) /\
      (length ctx1 < length ctx + 2)%nat /\
      length (heap t1) = length (heap t) /\ size t1 = size t).
    { destruct (fixup_left_spec _ _ _ _ _ _ _ _ _ _ _ _ Hz eq_refl Hrb Hok)
        as (t1 & x1 & l1 & k1 & r1 & ctx1 & n1 & E & H).
      exists t1, x1, l1, k1, r1, ctx1, n1. split; [|exact H].
      by rewrite (bind_ok _ _ _ _ _ E). }
    destruct Hstep as (t1 & x1 & l1 & k1 & r1 & ctx1 & n1 & E & Hz1 & Hrb1 &
                       Hok1 & Hel & Hlen & Hh & Hsz).
    destruct (IH _ _ _ _ _ _ _ Hz1 Hrb1 Hok1) as (t' & tr & m & E' & H');
      [cbn [length] in Hfuel; lia|].
    exists t', tr, m. split.
    + destruct d; cbn [fill fside fcolor faddr fkey fsib] in Hz0; foci Hz0;
        rds; rewrite Nat.eqb_refl; rewrite E; exact E'.
    + destruct H' as (Hz' & Hnl & Hm & Hel' & Hh' & Hsz').
      split; [done|]. split; [done|]. split; [done|].
      split; [by rewrite Hel', Hel|]. split; congruence.
  - (* parent is a right child *)
    assert (Hstep : exists t1 x1 l1 k1 r1 ctx1 n1,
      (node <- fixup_right x ;; fixup_loop fuel node) t =
        fixup_loop fuel x1 t1 /\
      zrep t1 (Node RED l1 x1 k1 r1) ctx1 /\
      rbh (Node RED l1 x1 k1 r1) n1 /\ ctx_ok n1 ctx1 /\
      elems (plug (Node RED l1 x1 k1 r1) ctx1) =
        elems (plug (Node RED l x k r)
                 (Frame d RED p kp s :: Frame Rgt BLACK g kg u :: ctx)) /\
      (length ctx1 < length ctx + 2)%nat /\
      length (heap t1) = length (heap t) /\ size t1 = size t).
    { destruct (fixup_right_spec _ _ _ _ _ _ _ _ _ _ _ _ Hz eq_refl Hrb Hok)
        as (t1 & x1 & l1 & k1 & r1 & ctx1 & n1 & E & H).
      exists t1, x1, l1, k1, r1, ctx1, n1. split; [|exact H].
      by rewrite (bind_ok _ _ _ _ _ E). }
    destruct Hstep as (t1 & x1 & l1 & k1 & r1 & ctx1 & n1 & E & Hz1 & Hrb1 &
                       Hok1 & Hel & Hlen & Hh & Hsz).
    destruct (IH _ _ _ _ _ _ _ Hz1 Hrb1 Hok1) as (t' & tr & m & E' & H');
      [cbn [length] in Hfuel; lia|].
    exists t', tr, m. split.
    + assert (Hp0 : p <> NIL).
      { destruct d; cbn [fill fside fcolor faddr fkey fsib] in Hz0;
          foci Hz0; eauto using zrep_ne_nil. }
      assert (Hpu : p <> addr_of u).
      { apply addr_of_notin; [done|].
        destruct d; cbn [fill fside fcolor faddr fkey fsib] in Hnd;
          nodup_facts Hnd; destruct_and?; done. }
      destruct d; cbn [fill fside fcolor faddr fkey fsib] in Hz0; foci Hz0;
        rds; rewrite (proj2 (Nat.eqb_neq _ _) Hpu); rewrite E; exact E'.
    + destruct H' as (Hz' & Hnl & Hm & Hel' & Hh' & Hsz').
      split; [done|]. split; [done|]. split; [done|].
      split; [by rewrite Hel', Hel|]. split; congruence.
Qed.

Lemma zrep_root t tr : zrep t tr [] -> root t = addr_of tr.
Proof. by intros (_ & _ & H & _). Qed.

Lemma insert_fixup_spec fuel t l x k r ctx n :
  zrep t (Node RED l x k r) ctx ->
  rbh (Node RED l x k r) n -> ctx_ok n ctx ->
  (length ctx < fuel)%nat ->
  exists t' tr m,
    _insert_fixup fuel x t = (Ok tt, t') /\
    zrep t' tr [] /\ root_black tr /\ rbh tr m /\
    elems tr = elems (plug (Node RED l x k r) ctx) /\
    length (heap t') = length (heap t) /\ size t' = size t.
Proof.
  intros Hz Hrb Hok Hfuel.
  destruct (fixup_loop_spec _ _ _ _ _ _ _ _ Hz Hrb Hok Hfuel)
    as (t1 & tr & m & E & Hz1 & Hnl & Hm & Hel & Hh & Hsz).
  destruct tr as [|c tl a tk tr]; [done|].
  destruct (recolor_spec _ _ BLACK _ _ _ _ _ Hz1) as (t2 & E2 & Hz2 & Hh2 & Hsz2).
  exists t2, (Node BLACK tl a tk tr), m.
  split.
  { unfold _insert_fixup. rewrite (bind_ok _ _ _ _ _ E).
    rewrite bind_get_root. by rewrite (zrep_root _ _ Hz1). }
  split; [done|]. split; [done|]. split; [done|]. split; [done|].
  split; congruence.
Qed.

(** *** Linking a new node *)

Lemma rep_ctx_addrs_lt h child ctx rt a :
  rep_ctx h child ctx rt -> a ∈ ctx_addrs ctx -> (a < length h)%nat.
Proof.
  revert child. induction ctx as [|f ctx IH]; intros child.
  - unfold ctx_addrs. simpl. intros _ H. by apply elem_of_nil in H.
  - cbn [rep_ctx]. intros (Hc & Hs & Hrest).
    rewrite ctx_addrs_cons, elem_of_cons, elem_of_app.
    intros [->|[H|H]].
    + destruct (fside f); destruct Hc as [_ (n & Hn & _)];
        by eapply lookup_lt_Some.
    + by eapply rep_addrs_lt.
    + by eapply IH.
Qed.

Lemma bind_alloc {B} n (k : ref -> T B) t :
  bind (alloc n) k t = k (length (heap t)) (mkTree (heap t ++ [n]) (root t) (size t)).
Proof. done. Qed.

Lemma bind_incr_size {B} (k : unit -> T B) t :
  bind incr_size k t = k tt (mkTree (heap t) (root t) (size t + 1)).
Proof. done. Qed.

Lemma attach_spec {B} t ctx d s (K : ref -> T B) :
  zrep t Leaf ctx ->
  match ctx with
  | [] => True
  | f :: _ => str_ltb d (fkey f) = match fside f with Lft => true | Rgt => false end
  end ->
  exists t',
    (new_node <- alloc (mkNode d s 0 0 RED NIL NIL (ctx_parent ctx)) ;;
     match ctx_parent ctx with
     | None => set_root new_node
     | Some p =>
         k <- get domain p ;;
         if str_ltb d k then set with_left p new_node
         else set with_right p new_node
     end ;;;
     set with_color new_node RED ;;;
     incr_size ;;;
     K new_node) t = K (length (heap t)) t' /\
    zrep t' (Node RED Leaf (length (heap t)) d Leaf) ctx /\
    length (heap t') = S (length (heap t)) /\ size t' = size t + 1.
Proof.
  intros Hz Hside. pose proof (zrep_nodup _ _ _ Hz) as Hnd.
  destruct Hz as (Hnil & _ & Hctx & Hnd0).
  destruct t as [h rt sz]. cbn [heap root size addr_of] in *.
  assert (Hnew0 : length h <> NIL).
  { destruct Hnil as (m & Hm & _). apply lookup_lt_Some in Hm. unfold NIL in *. lia. }
  assert (Hnewc : length h ∉ ctx_addrs ctx).
  { intros Hin. apply (rep_ctx_addrs_lt _ _ _ _ _ Hctx) in Hin. lia. }
  assert (Hnd1 : NoDup (addrs (plug (Node RED Leaf (length h) d Leaf) ctx))).
  { rewrite addrs_plug_perm. rewrite addrs_plug_perm in Hnd0.
    rewrite addrs_Node, addrs_Leaf in *. cbn [app] in *.
    apply NoDup_cons. done. }
  rewrite bind_alloc. cbn [heap root size].
  destruct ctx as [|[[] fc p fk fs] ctx]; cbn [ctx_parent faddr fside fkey] in *;
    [ cbn [rep_ctx] in Hctx; subst rt | open_frame Hctx | open_frame Hctx ];
    try (assert (p <> length h /\ (p < length h)%nat /\ length h ∉ addrs fs)
           as (Hpn & Hplt & Hnfs)
           by (split; [| split ];
               [ apply lookup_lt_Some in Hnp; lia
               | by apply lookup_lt_Some in Hnp
               | intros Hin; apply (rep_addrs_lt _ _ _ _ Hrs) in Hin; lia ]));
    nodup_facts Hnd; nodup_facts Hnewc; destruct_and?;
    cbn [ctx_parent faddr addr_of] in *.
  - eexists. split.
    { norm. step_set. rewrite bind_incr_size. reflexivity. }
    fld. split; [|split; [by rewrite ?length_insert, length_app; cbn; lia | done]].
    split; [ nil_frame |].
    split; [ cbn [rep]; fld; rep_fin |].
    split; [ cbn [rep_ctx fside fcolor faddr fkey fsib]; fld; rep_fin | done ].
  - eexists. split.
    { step_get. rewrite Hside. step_set. step_set. rewrite bind_incr_size. reflexivity. }
    fld. split; [|split; [by rewrite ?length_insert, length_app; cbn; lia | done]].
    split; [ nil_frame |].
    split; [ cbn [rep]; fld; rep_fin |].
    split; [ cbn [rep_ctx fside fcolor faddr fkey fsib]; fld; rep_fin | done ].
  - eexists. split.
    { step_get. rewrite Hside. step_set. step_set. rewrite bind_incr_size. reflexivity. }
    fld. split; [|split; [by rewrite ?length_insert, length_app; cbn; lia | done]].
    split; [ nil_frame |].
    split; [ cbn [rep]; fld; rep_fin |].
    split; [ cbn [rep_ctx fside fcolor faddr fkey fsib]; fld; rep_fin | done ].
Qed.

(** *** Order facts *)

Lemma keys_plug tr ctx :
  keys (plug tr ctx) = map snd (ctx_lo ctx) ++ keys tr ++ map snd (ctx_hi ctx).
Proof. unfold keys. by rewrite elems_plug, !map_app. Qed.

Lemma asc_node_l c l a k r ctx y :
  ascending (plug (Node c l a k r) ctx) -> y ∈ keys l -> str_lt y k.
Proof.
  unfold ascending. rewrite keys_plug, keys_Node.
  rewrite !StronglySorted_app, StronglySorted_cons.
  intros H Hy. destruct_and!.
  match goal with
  | H : forall x1 x2, x1 ∈ keys l -> x2 ∈ k :: keys r -> _ |- _ =>
      apply (H y k Hy); left
  end.
Qed.

Lemma asc_node_r c l a k r ctx y :
  ascending (plug (Node c l a k r) ctx) -> y ∈ keys r -> str_lt k y.
Proof.
  unfold ascending. rewrite keys_plug, keys_Node.
  rewrite !StronglySorted_app, StronglySorted_cons.
  intros H Hy. destruct_and!.
  match goal with
  | H : Forall (str_lt k) (keys r) |- _ => by eapply Forall_forall in H
  end.
Qed.

Lemma asc_insert (klo khi : list str) d :
  StronglySorted str_lt (klo ++ khi) ->
  Forall (fun k => str_lt k d) klo -> Forall (fun k => str_lt d k) khi ->
  StronglySorted str_lt (klo ++ d :: khi).
Proof.
  rewrite !StronglySorted_app, StronglySorted_cons.
  intros (H & Hl & Hh) Hlo Hhi. split; [|done].
  intros x1 x2 H1 H2. apply elem_of_cons in H2 as [->|H2]; [|by apply H].
  by eapply Forall_forall in Hlo.
Qed.

(** *** How many nodes a store can hold *)

Lemma addrs_bound h par tr :
  rep h par tr -> NoDup (addrs tr) -> (length (elems tr) < length h \/ length h = 0)%nat.
Proof.
  intros Hrep Hnd.
  assert (Hsub : addrs tr ⊆+ seq 1 (length h - 1)).
  { apply NoDup_submseteq; [done|]. intros a Ha.
    destruct (rep_addrs_lt _ _ _ _ Hrep Ha) as [Hlt H0].
    apply elem_of_seq. unfold NIL in H0. lia. }
  apply submseteq_length in Hsub. rewrite length_seq in Hsub.
  unfold addrs in Hsub. rewrite length_map in Hsub. lia.
Qed.

Lemma holds_bound t tr : holds t tr -> (length (elems tr) < length (heap t))%nat.
Proof.
  intros ((n & Hn & _) & Hrep & _ & Hnd). cbn [plug ctx_parent] in *.
  apply lookup_lt_Some in Hn.
  destruct (addrs_bound _ _ _ Hrep Hnd); lia.
Qed.

Lemma ctx_length ctx : (length ctx <= length (ctx_lo ctx ++ ctx_hi ctx))%nat.
Proof.
  induction ctx as [|[[] c a k s] ctx IH]; cbn [ctx_lo ctx_hi fside length app];
    [lia| |]; rewrite ?length_app in *; cbn [length] in *;
    rewrite ?length_app; cbn [length]; lia.
Qed.

Lemma ctx_length_plug tr ctx : (length ctx <= length (elems (plug tr ctx)))%nat.
Proof.
  pose proof (ctx_length ctx). rewrite elems_plug, !length_app in *. lia.
Qed.

(** *** The descent of [insert_domain] *)

Lemma insert_descend_nil fuel d par :
  insert_descend fuel d par NIL = ret (inr par).
Proof. by destruct fuel. Qed.

Lemma insert_descend_step fuel d par cur :
  cur <> NIL ->
  insert_descend (S fuel) d par cur =
    (k <- get domain cur ;;
     if str_ltb d k then
       l <- get left cur ;; insert_descend fuel d (Some cur) l
     else if str_ltb k d then
       r <- get right cur ;; insert_descend fuel d (Some cur) r
     else ret (inl cur)).
Proof.
  intros H. cbn [insert_descend]. by rewrite (proj2 (Nat.eqb_neq _ _) H).
Qed.

Lemma below_down_r d c l a k r ctx :
  ascending (plug (Node c l a k r) ctx) -> below d ctx -> str_lt k d ->
  below d (Frame Rgt c a k l :: ctx).
Proof.
  intros Hasc Hlo Hk. unfold below in *. cbn [ctx_lo fside fsib faddr fkey].
  rewrite !map_app, !Forall_app. split; [done|]. split.
  - apply Forall_forall. intros y Hy.
    pose proof (asc_node_l _ _ _ _ _ _ _ Hasc Hy) as Hlt.
    unfold str_lt in *. by eapply str_ltb_trans.
  - by repeat constructor.
Qed.

Lemma above_down_l d c l a k r ctx :
  ascending (plug (Node c l a k r) ctx) -> above d ctx -> str_lt d k ->
  above d (Frame Lft c a k r :: ctx).
Proof.
  intros Hasc Hhi Hk. unfold above in *. cbn [ctx_hi fside fsib faddr fkey map].
  constructor; [done|]. rewrite map_app, Forall_app. split; [|done].
  apply Forall_forall. intros y Hy.
  pose proof (asc_node_r _ _ _ _ _ _ _ Hasc Hy) as Hlt.
  unfold str_lt in *. by eapply str_ltb_trans.
Qed.

Lemma descend_spec tr : forall ctx fuel t d,
  zrep t tr ctx -> ascending (plug tr ctx) ->
  below d ctx -> above d ctx ->
  (length (elems tr) <= fuel)%nat ->
  (exists c l a r ctx',
      insert_descend fuel d (ctx_parent ctx) (addr_of tr) t = (Ok (inl a), t) /\
      zrep t (Node c l a d r) ctx' /\
      plug (Node c l a d r) ctx' = plug tr ctx) \/
  (exists ctx',
      insert_descend fuel d (ctx_parent ctx) (addr_of tr) t =
        (Ok (inr (ctx_parent ctx')), t) /\
      zrep t Leaf ctx' /\ plug Leaf ctx' = plug tr ctx /\
      below d ctx' /\ above d ctx').
Proof.
  induction tr as [|c l IHl a k r IHr]; intros ctx fuel t d Hz Hasc Hlo Hhi Hfuel.
  - right. exists ctx. cbn [addr_of]. rewrite insert_descend_nil. done.
  - cbn [elems] in Hfuel. rewrite length_app in Hfuel. cbn [length] in Hfuel.
    destruct fuel as [|fuel]; [lia|].
    cbn [addr_of]. rewrite insert_descend_step by (by eapply zrep_ne_nil).
    rds. destruct (str_ltb d k) eqn:Hdk.
    + rds.
      destruct (IHl (Frame Lft c a k r :: ctx) fuel t d) as [H|H];
        [ by apply zrep_down_l | done | done
        | by eapply above_down_l; [exact Hasc|done|done] | lia | by left | by right ].
    + destruct (str_ltb k d) eqn:Hkd.
      * rds.
        destruct (IHr (Frame Rgt c a k l :: ctx) fuel t d) as [H|H];
          [ by apply zrep_down_r | done
          | by eapply below_down_r; [exact Hasc|done|done] | done | lia | by left | by right ].
      * left. assert (d = k) as -> by (by apply str_ltb_total).
        exists c, l, a, r, ctx. done.
Qed.

(** *** Updating the payload of a node *)

Lemma cell_update h a (b : ref) n n' c k par l r :
  h !! b = Some n -> same_links n n' ->
  cell h a c k par l r -> cell (<[b := n']> h) a c k par l r.
Proof.
  intros Hb (Hc & Hd & Hp & Hl & Hr) [H0 (m & Hm & Hf)]. split; [done|].
  destruct (decide (a = b)) as [->|Hne].
  - exists n'. split.
    + apply list_lookup_insert_eq. by eapply lookup_lt_Some.
    + assert (m = n) as -> by congruence. destruct_and!. repeat split; congruence.
  - exists m. split; [|done]. by rewrite list_lookup_insert_ne.
Qed.

Lemma rep_update h par tr (b : ref) n n' :
  h !! b = Some n -> same_links n n' ->
  rep h par tr -> rep (<[b := n']> h) par tr.
Proof.
  intros Hb Hs. revert par.
  induction tr as [|c l IHl a k r IHr]; intros par; cbn [rep]; [done|].
  intros (Hc & Hl & Hr). split; [|split]; eauto using cell_update.
Qed.

Lemma rep_ctx_update h child ctx rt (b : ref) n n' :
  h !! b = Some n -> same_links n n' ->
  rep_ctx h child ctx rt -> rep_ctx (<[b := n']> h) child ctx rt.
Proof.
  intros Hb Hs. revert child.
  induction ctx as [|f ctx IH]; intros child; cbn [rep_ctx]; [done|].
  intros (Hc & Hsib & Hrest). split; [|split]; eauto using rep_update.
  destruct (fside f); eauto using cell_update.
Qed.

Lemma zrep_update t tr ctx (b : ref) n n' :
  heap t !! b = Some n -> same_links n n' ->
  zrep t tr ctx ->
  zrep (mkTree (<[b := n']> (heap t)) (root t) (size t)) tr ctx.
Proof.
  intros Hb Hs (Hnil & Hrep & Hctx & Hnd).
  split; [|split; [|split]]; cbn [heap root];
    eauto using rep_update, rep_ctx_update.
  destruct Hnil as (m & Hm & Hc).
  destruct (decide (b = NIL)) as [->|Hne].
  - exists n'. split.
    + apply list_lookup_insert_eq. by eapply lookup_lt_Some.
    + assert (m = n) as -> by congruence.
      destruct Hs as (-> & _). done.
  - exists m. by rewrite list_lookup_insert_ne.
Qed.

(** *** Colour invariants of the context of a subtree *)

Lemma ctx_ok_of_plug ctx : forall tr m,
  rbh (plug tr ctx) m -> root_black (plug tr ctx) ->
  exists n, rbh tr n /\ ctx_ok n ctx /\ (root_black tr \/ ctx_black ctx).
Proof.
  induction ctx as [|[d c a k s] ctx IH]; intros tr m Hrb Hroot; cbn [plug] in *.
  - exists m. split; [done|]. split; [done|]. by left.
  - destruct (IH _ _ Hrb Hroot) as (n1 & Hf & Hok & Hor).
    unfold fill in Hf, Hor. cbn [fside fcolor faddr fkey fsib] in *.
    destruct c.
    + assert (Hb : ctx_black ctx).
      { destruct Hor as [Hor|Hor]; [|done]. by destruct d. }
      exists n1. cbn [ctx_ok fcolor fsib].
      destruct d; cbn [rbh] in Hf; destruct_and!; auto 10.
    + destruct d; cbn [rbh] in Hf; destruct Hf as (m' & -> & H1 & H2);
        exists m'; cbn [ctx_ok fcolor fsib ctx_black]; auto.
Qed.

Lemma not_in_plug_leaf d ctx :
  below d ctx -> above d ctx -> d ∉ keys (plug Leaf ctx).
Proof.
  unfold below, above. rewrite keys_plug. cbn [keys elems map app].
  intros Hlo Hhi Hin. apply elem_of_app in Hin as [Hin|Hin].
  - eapply Forall_forall in Hlo; [|done]. by apply str_lt_ne in Hlo.
  - eapply Forall_forall in Hhi; [|done]. by apply str_lt_ne in Hhi.
Qed.

Lemma in_plug_node c l a k r ctx : (a, k) ∈ elems (plug (Node c l a k r) ctx).
Proof.
  rewrite elems_plug. cbn [elems]. rewrite !elem_of_app, elem_of_cons. auto.
Qed.

Lemma elem_keys a k tr : (a, k) ∈ elems tr -> k ∈ keys tr.
Proof. intros H. unfold keys. apply list_elem_of_fmap. by exists (a, k). Qed.

Lemma attach_side d ctx :
  below d ctx -> above d ctx ->
  match ctx with
  | [] => True
  | f :: _ => str_ltb d (fkey f) = match fside f with Lft => true | Rgt => false end
  end.
Proof.
  destruct ctx as [|[[] c a k s] ctx]; [done| |]; unfold below, above;
    cbn [ctx_lo ctx_hi fside fkey faddr fsib map]; intros Hlo Hhi.
  - by apply Forall_cons in Hhi as [H _].
  - rewrite !map_app, !Forall_app in Hlo. destruct Hlo as (_ & _ & H).
    apply Forall_cons in H as [H _]. by apply str_ltb_asym.
Qed.

Lemma below_nil d : below d [].
Proof. constructor. Qed.

Lemma above_nil d : above d [].
Proof. constructor. Qed.

Lemma tree_inv_descend t tr d :
  tree_inv t tr ->
  (exists c l a r ctx',
      insert_descend (length (heap t)) d None (root t) t = (Ok (inl a), t) /\
      zrep t (Node c l a d r) ctx' /\
      plug (Node c l a d r) ctx' = tr) \/
  (exists ctx',
      insert_descend (length (heap t)) d None (root t) t =
        (Ok (inr (ctx_parent ctx')), t) /\
      zrep t Leaf ctx' /\ plug Leaf ctx' = tr /\
      below d ctx' /\ above d ctx').
Proof.
  intros (Hz & _ & _ & Hasc).
  rewrite (zrep_root _ _ Hz).
  apply (descend_spec tr [] (length (heap t)) t d Hz Hasc
           (below_nil d) (above_nil d)).
  apply holds_bound in Hz. lia.
Qed.

Lemma same_links_score n v : same_links n (with_reputation_score n v).
Proof. by repeat split. Qed.

Lemma same_links_spam n v : same_links n (with_spam_reports n v).
Proof. by repeat split. Qed.

Lemma same_links_legit n v : same_links n (with_legitimate_reports n v).
Proof. by repeat split. Qed.

Lemma tree_inv_update t tr (b : ref) n n' :
  heap t !! b = Some n -> same_links n n' ->
  tree_inv t tr ->
  tree_inv (mkTree (<[b := n']> (heap t)) (root t) (size t)) tr.
Proof.
  intros Hb Hs (Hz & H). split; [|done]. by eapply zrep_update.
Qed.

Lemma insert_domain_unfold d s t :
  insert_domain d s t =
  (pos <- insert_descend (length (heap t)) d None (root t) ;;
   match pos with
   | inl current =>
       set with_reputation_score current s ;;; ret current
   | inr parent =>
       new_node <- alloc (mkNode d s 0 0 RED NIL NIL parent) ;;
       match parent with
       | None => set_root new_node
       | Some p =>
           k <- get domain p ;;
           if str_ltb d k then set with_left p new_node
           else set with_right p new_node
       end ;;;
       set with_color new_node RED ;;;
       incr_size ;;;
       _insert_fixup (length (heap t)) new_node ;;;
       ret new_node
   end) t.
Proof. reflexivity. Qed.

(** Inserting a domain the tree holds: one score is overwritten. *)
Lemma insert_existing t tr d s :
  tree_inv t tr -> d ∈ keys tr ->
  exists a n,
    (a, d) ∈ elems tr /\ heap t !! a = Some n /\ domain n = d /\
    insert_domain d s t =
      (Ok a, mkTree (<[a := with_reputation_score n s]> (heap t))
                    (root t) (size t)) /\
    tree_inv (mkTree (<[a := with_reputation_score n s]> (heap t))
                     (root t) (size t)) tr.
Proof.
  intros Hinv Hin.
  destruct (tree_inv_descend _ _ d Hinv)
    as [(c & l & a & r & ctx' & E & Hz & Hp)|(ctx' & _ & _ & Hp & Hlo & Hhi)].
  2: { subst tr. by apply not_in_plug_leaf in Hin. }
  destruct (zrep_lookup _ _ _ _ _ _ _ Hz) as (n & Hn & _ & Hd & _).
  exists a, n. split; [subst tr; apply in_plug_node|].
  split; [done|]. split; [done|]. split.
  - rewrite insert_domain_unfold. rewrite (bind_ok _ _ _ _ _ E).
    rewrite (bind_ok _ _ _ _ _ (set_ok _ _ _ _ _ Hn)). done.
  - eapply tree_inv_update; eauto using same_links_score.
Qed.

(** Inserting a new domain: one RED node is linked and the tree fixed. *)
Lemma insert_fresh t tr d s :
  tree_inv t tr -> d ∉ keys tr ->
  exists t' tr' lo hi,
    insert_domain d s t = (Ok (length (heap t)), t') /\
    tree_inv t' tr' /\
    elems tr = lo ++ hi /\ elems tr' = lo ++ (length (heap t), d) :: hi /\
    size t' = size t + 1 /\ length (heap t') = S (length (heap t)).
Proof.
  intros Hinv Hnin.
  destruct (tree_inv_descend _ _ d Hinv)
    as [(c & l & a & r & ctx' & _ & _ & Hp)|(ctx' & E & Hz & Hp & Hlo & Hhi)].
  { subst tr. destruct Hnin. eapply elem_keys, in_plug_node. }
  destruct Hinv as (Hhold & Hroot & (n & Hrb) & Hasc).
  destruct (attach_spec t ctx' d s
              (fun new => _insert_fixup (length (heap t)) new ;;; ret new)
              Hz (attach_side _ _ Hlo Hhi))
    as (t1 & E1 & Hz1 & Hlen1 & Hsz1).
  rewrite <- Hp in Hrb, Hroot.
  destruct (ctx_ok_of_plug _ _ _ Hrb Hroot) as (n0 & Hn0 & Hok & _).
  cbn [rbh] in Hn0. subst n0.
  destruct (insert_fixup_spec (length (heap t)) _ _ _ _ _ _ 0%nat Hz1)
    as (t2 & tr2 & m & E2 & Hz2 & Hroot2 & Hrb2 & Hel2 & Hlen2 & Hsz2).
  { by cbn [rbh root_black]. }
  { done. }
  { pose proof (ctx_length_plug Leaf ctx'). rewrite Hp in *.
    apply holds_bound in Hhold. lia. }
  exists t2, tr2, (ctx_lo ctx'), (ctx_hi ctx').
  rewrite elems_plug in Hel2. cbn [elems app] in Hel2.
  assert (Hel : elems tr = ctx_lo ctx' ++ ctx_hi ctx').
  { rewrite <- Hp, elems_plug. done. }
  split.
  { rewrite insert_domain_unfold. rewrite (bind_ok _ _ _ _ _ E).
    rewrite E1. by rewrite (bind_ok _ _ _ _ _ E2). }
  split; [|split; [done|split; [done|split; congruence]]].
  split; [done|]. split; [done|]. split; [by exists m|].
  unfold ascending, keys in *. rewrite Hel2, map_app. cbn [map snd].
  rewrite Hel, map_app in Hasc. by apply asc_insert.
Qed.

(** *** [search_domain] *)

Lemma search_loop_nil fuel d : search_loop fuel d NIL = ret None.
Proof. by destruct fuel. Qed.

Lemma search_loop_step fuel d cur :
  cur <> NIL ->
  search_loop (S fuel) d cur =
    (k <- get domain cur ;;
     if str_eqb d k then ret (Some cur)
     else if str_ltb d k then
       l <- get left cur ;; search_loop fuel d l
     else
       r <- get right cur ;; search_loop fuel d r).
Proof.
  intros H. cbn [search_loop]. by rewrite (proj2 (Nat.eqb_neq _ _) H).
Qed.

Lemma search_spec tr : forall ctx fuel t d,
  zrep t tr ctx -> ascending (plug tr ctx) ->
  below d ctx -> above d ctx ->
  (length (elems tr) <= fuel)%nat ->
  (exists a, search_loop fuel d (addr_of tr) t = (Ok (Some a), t) /\
             (a, d) ∈ elems (plug tr ctx)) \/
  (search_loop fuel d (addr_of tr) t = (Ok None, t) /\
   d ∉ keys (plug tr ctx)).
Proof.
  induction tr as [|c l IHl a k r IHr]; intros ctx fuel t d Hz Hasc Hlo Hhi Hfuel.
  - right. cbn [addr_of]. rewrite search_loop_nil.
    split; [done|]. by apply not_in_plug_leaf.
  - cbn [elems] in Hfuel. rewrite length_app in Hfuel. cbn [length] in Hfuel.
    destruct fuel as [|fuel]; [lia|].
    cbn [addr_of]. rewrite search_loop_step by (by eapply zrep_ne_nil).
    rds. unfold str_eqb. case_bool_decide as Heq.
    { subst k. left. exists a. split; [done|]. apply in_plug_node. }
    destruct (str_ltb d k) eqn:Hdk.
    + rds.
      destruct (IHl (Frame Lft c a k r :: ctx) fuel t d) as [H|H];
        [ by apply zrep_down_l | done | done
        | by eapply above_down_l; [exact Hasc|done|done] | lia
        | by left | by right ].
    + assert (Hkd : str_ltb k d = true).
      { destruct (str_ltb k d) eqn:Hkd; [done|].
        destruct Heq. by apply str_ltb_total. }
      rds.
      destruct (IHr (Frame Rgt c a k l :: ctx) fuel t d) as [H|H];
        [ by apply zrep_down_r | done
        | by eapply below_down_r; [exact Hasc|done|done] | done | lia
        | by left | by right ].
Qed.

Lemma rep_elem h par tr a k :
  rep h par tr -> (a, k) ∈ elems tr ->
  exists n, h !! a = Some n /\ domain n = k /\ a <> NIL.
Proof.
  revert par. induction tr as [|c l IHl b kb r IHr]; intros par; cbn [rep elems].
  - intros _ H. by apply elem_of_nil in H.
  - intros ([H0 (n & Hn & _ & Hd & _)] & Hl & Hr).
    rewrite elem_of_app, elem_of_cons. intros [H|[H|H]]; eauto.
    injection H as -> ->. eauto.
Qed.

Lemma holds_elem t tr a k :
  holds t tr -> (a, k) ∈ elems tr ->
  exists n, heap t !! a = Some n /\ domain n = k /\ a <> NIL.
Proof. intros (_ & Hrep & _). by eapply rep_elem. Qed.

Lemma search_domain_spec t tr d :
  tree_inv t tr ->
  (exists a n, search_domain d t = (Ok (Some a), t) /\
               (a, d) ∈ elems tr /\ heap t !! a = Some n /\ domain n = d) \/
  (search_domain d t = (Ok None, t) /\ d ∉ keys tr).
Proof.
  intros (Hz & _ & _ & Hasc).
  assert (Hun : search_domain d t = search_loop (length (heap t)) d (root t) t)
    by reflexivity.
  rewrite Hun, (zrep_root _ _ Hz).
  destruct (search_spec tr [] (length (heap t)) t d Hz Hasc
              (below_nil d) (above_nil d)) as [(a & E & Hin)|H].
  { apply holds_bound in Hz. lia. }
  - left. cbn [plug] in Hin.
    destruct (holds_elem _ _ _ _ Hz Hin) as (n & Hn & Hd & _).
    by exists a, n.
  - by right.
Qed.

(** *** From the internal invariant to the four stated properties *)

Lemma rbh_no_red_red t : forall n, rbh t n -> no_red_red t.
Proof.
  induction t as [|c l IHl a k r IHr]; intros n; cbn [rbh no_red_red]; [done|].
  destruct c.
  - intros (Hl & Hr & H1 & H2). split; [auto|]. split; eauto.
  - intros (m & -> & H1 & H2). split; [done|]. split; eauto.
Qed.

Lemma rbh_path_blacks t : forall n, rbh t n -> Forall (fun m => m = n) (path_blacks t).
Proof.
  induction t as [|c l IHl a k r IHr]; intros n; cbn [rbh path_blacks].
  - intros ->. by constructor.
  - destruct c; cbn [blacks].
    + intros (_ & _ & H1 & H2). apply Forall_fmap, Forall_app.
      split; [apply IHl in H1 | apply IHr in H2];
        (eapply Forall_impl; [eassumption|]); by intros ? ->.
    + intros (m & -> & H1 & H2). apply Forall_fmap, Forall_app.
      split; [apply IHl in H1 | apply IHr in H2];
        (eapply Forall_impl; [eassumption|]); by intros ? ->.
Qed.

Lemma tree_inv_red_black t tr : tree_inv t tr -> red_black tr.
Proof.
  intros (_ & Hroot & (n & Hrb) & Hasc). split; [done| | |done].
  - by eapply rbh_no_red_red.
  - exists n. by apply rbh_path_blacks.
Qed.

Lemma tree_inv_init : tree_inv __init__ Leaf.
Proof.
  split; [|split; [done|split; [by exists 0%nat|constructor]]].
  split; [by exists NIL_node|]. split; [done|]. split; [done|]. constructor.
Qed.

Lemma insert_domain_inv t tr d s :
  tree_inv t tr ->
  exists t' tr' a, insert_domain d s t = (Ok a, t') /\ tree_inv t' tr' /\
    (forall k, k ∈ keys tr' <-> k = d \/ k ∈ keys tr) /\
    (exists n, heap t' !! a = Some n /\ domain n = d /\ (a, d) ∈ elems tr').
Proof.
  intros Hinv. destruct (decide (d ∈ keys tr)) as [Hin|Hnin].
  - destruct (insert_existing _ _ d s Hinv Hin) as (a & n & Hel & Hn & Hd & E & Hinv').
    eexists _, tr, a. split; [exact E|]. split; [done|]. split.
    + intros k. split; [auto|]. by intros [->|].
    + exists (with_reputation_score n s). split; [|done].
      cbn [heap]. apply list_lookup_insert_eq. by eapply lookup_lt_Some.
  - destruct (insert_fresh _ _ d s Hinv Hnin)
      as (t' & tr' & lo & hi & E & Hinv' & Hel & Hel' & _).
    exists t', tr', (length (heap t)). split; [done|]. split; [done|].
    assert (Hin' : (length (heap t), d) ∈ elems tr').
    { rewrite Hel', elem_of_app, elem_of_cons. auto. }
    split.
    + intros k. unfold keys. rewrite Hel, Hel', !map_app. cbn [map snd].
      rewrite !elem_of_app, elem_of_cons. tauto.
    + destruct Hinv' as (Hh & _).
      destruct (holds_elem _ _ _ _ Hh Hin') as (n & Hn & Hd & _). eauto.
Qed.

(** *** The score updates *)

Lemma increment_spam_present t (b : ref) n d amount :
  search_domain d t = (Ok (Some b), t) -> heap t !! b = Some n ->
  increment_spam_reports d amount t =
    (Ok (Some (Z.max 0 (reputation_score n - amount * 5))),
     mkTree (<[b := spam_updated n amount]> (heap t)) (root t) (size t)).
Proof.
  intros E Hn. unfold increment_spam_reports.
  rewrite (bind_ok _ _ _ _ _ E).
  destruct t as [h rt sz]. cbn [heap root size] in *.
  step_get. step_set. step_get. step_set. step_get.
  unfold ret. rewrite list_insert_insert_eq. reflexivity.
Qed.

Lemma increment_legit_present t (b : ref) n d amount :
  search_domain d t = (Ok (Some b), t) -> heap t !! b = Some n ->
  increment_legitimate_reports d amount t =
    (Ok (Some (Z.min 100 (reputation_score n + amount * 3))),
     mkTree (<[b := legit_updated n amount]> (heap t)) (root t) (size t)).
Proof.
  intros E Hn. unfold increment_legitimate_reports.
  rewrite (bind_ok _ _ _ _ _ E).
  destruct t as [h rt sz]. cbn [heap root size] in *.
  step_get. step_set. step_get. step_set. step_get.
  unfold ret. rewrite list_insert_insert_eq. reflexivity.
Qed.

Lemma update_score_present t (b : ref) n d v :
  search_domain d t = (Ok (Some b), t) -> heap t !! b = Some n ->
  update_reputation_score d v t =
    (Ok true,
     mkTree (<[b := with_reputation_score n (Z.max 0 (Z.min 100 v))]> (heap t))
            (root t) (size t)).
Proof.
  intros E Hn. unfold update_reputation_score.
  rewrite (bind_ok _ _ _ _ _ E).
  destruct t as [h rt sz]. cbn [heap root size] in *.
  step_set. reflexivity.
Qed.

Lemma increment_spam_absent t d amount :
  search_domain d t = (Ok None, t) ->
  increment_spam_reports d amount t = (Ok None, t).
Proof. intros E. unfold increment_spam_reports. by rewrite (bind_ok _ _ _ _ _ E). Qed.

Lemma increment_legit_absent t d amount :
  search_domain d t = (Ok None, t) ->
  increment_legitimate_reports d amount t = (Ok None, t).
Proof.
  intros E. unfold increment_legitimate_reports. by rewrite (bind_ok _ _ _ _ _ E).
Qed.

Lemma update_score_absent t d v :
  search_domain d t = (Ok None, t) ->
  update_reputation_score d v t = (Ok false, t).
Proof.
  intros E. unfold update_reputation_score. by rewrite (bind_ok _ _ _ _ _ E).
Qed.

Lemma same_links_spam_updated n a : same_links n (spam_updated n a).
Proof. by repeat split. Qed.

Lemma same_links_legit_updated n a : same_links n (legit_updated n a).
Proof. by repeat split. Qed.

(** *** Histories keep the invariant *)

Lemma run_op_inv o t tr :
  tree_inv t tr ->
  exists t' tr', run_op o t = (Ok tt, t') /\ tree_inv t' tr' /\
    (forall k, k ∈ keys tr' <-> k ∈ inserted [o] \/ k ∈ keys tr).
Proof.
  intros Hinv. destruct o as [d s|d|d s|d a|d a]; cbn [run_op inserted].
  - destruct (insert_domain_inv _ _ d s Hinv) as (t' & tr' & a & E & Hinv' & Hk & _).
    exists t', tr'. rewrite E. split; [done|]. split; [done|].
    intros k. rewrite Hk, elem_of_cons, elem_of_nil. tauto.
  - exists t, tr.
    destruct (search_domain_spec _ _ d Hinv) as [(a & n & E & _)|(E & _)];
      rewrite E; (split; [done|]); (split; [done|]);
      intros k; rewrite elem_of_nil; tauto.
  - destruct (search_domain_spec _ _ d Hinv) as [(b & n & E & _ & Hn & _)|(E & _)].
    + rewrite (update_score_present _ _ _ _ s E Hn).
      eexists _, tr. split; [done|].
      split; [eapply tree_inv_update; eauto using same_links_score|].
      intros k; rewrite elem_of_nil; tauto.
    + rewrite (update_score_absent _ _ s E). exists t, tr.
      split; [done|]. split; [done|]. intros k; rewrite elem_of_nil; tauto.
  - destruct (search_domain_spec _ _ d Hinv) as [(b & n & E & _ & Hn & _)|(E & _)].
    + rewrite (increment_spam_present _ _ _ _ a E Hn).
      eexists _, tr. split; [done|].
      split; [eapply tree_inv_update; eauto using same_links_spam_updated|].
      intros k; rewrite elem_of_nil; tauto.
    + rewrite (increment_spam_absent _ _ a E). exists t, tr.
      split; [done|]. split; [done|]. intros k; rewrite elem_of_nil; tauto.
  - destruct (search_domain_spec _ _ d Hinv) as [(b & n & E & _ & Hn & _)|(E & _)].
    + rewrite (increment_legit_present _ _ _ _ a E Hn).
      eexists _, tr. split; [done|].
      split; [eapply tree_inv_update; eauto using same_links_legit_updated|].
      intros k; rewrite elem_of_nil; tauto.
    + rewrite (increment_legit_absent _ _ a E). exists t, tr.
      split; [done|]. split; [done|]. intros k; rewrite elem_of_nil; tauto.
Qed.

Lemma inserted_cons o ops k :
  k ∈ inserted (o :: ops) <-> k ∈ inserted [o] \/ k ∈ inserted ops.
Proof.
  destruct o; simpl; rewrite ?elem_of_cons, ?elem_of_nil; tauto.
Qed.

Lemma run_inv ops : forall t tr,
  tree_inv t tr ->
  exists t' tr', run ops t = (Ok tt, t') /\ tree_inv t' tr' /\
    (forall k, k ∈ keys tr' <-> k ∈ inserted ops \/ k ∈ keys tr).
Proof.
  induction ops as [|o ops IH]; intros t tr Hinv.
  - exists t, tr. split; [done|]. split; [done|].
    intros k. cbn [inserted]. rewrite elem_of_nil. tauto.
  - destruct (run_op_inv o _ _ Hinv) as (t1 & tr1 & E1 & Hinv1 & Hk1).
    destruct (IH _ _ Hinv1) as (t2 & tr2 & E2 & Hinv2 & Hk2).
    exists t2, tr2. cbn [run]. rewrite E1. split; [done|]. split; [done|].
    intros k. rewrite (inserted_cons o ops), Hk2, Hk1. tauto.
Qed.

Lemma run_init ops :
  exists t tr, run ops __init__ = (Ok tt, t) /\ tree_inv t tr /\
    (forall k, k ∈ keys tr <-> k ∈ inserted ops).
Proof.
  destruct (run_inv ops _ _ tree_inv_init) as (t & tr & E & Hinv & Hk).
  exists t, tr. split; [done|]. split; [done|].
  intros k. rewrite Hk. cbn [keys elems map]. rewrite elem_of_nil. tauto.
Qed.

Lemma insert_all_inv ops : forall t tr,
  tree_inv t tr ->
  exists t' tr', insert_all ops t = (Ok tt, t') /\ tree_inv t' tr'.
Proof.
  induction ops as [|[d s] ops IH]; intros t tr Hinv; cbn [insert_all].
  - by exists t, tr.
  - destruct (insert_domain_inv _ _ d s Hinv) as (t1 & tr1 & a & E & Hinv1 & _).
    rewrite E. eauto.
Qed.

(** C1. For every sequence of [insert_domain] calls on an initially empty
    tree, after each insert (after the first [n] calls, for every [n]) the
    call has returned and the store holds a tree whose root is BLACK, in
    which no RED node has a RED child, all of whose root-to-sentinel paths
    count the same number of BLACK nodes, and whose in-order domains are
    strictly ascending. *)
Theorem C1_inserts_keep_red_black (ops : list (str * Z)) (n : nat) :
  exists t tr,
    insert_all (take n ops) __init__ = (Ok tt, t) /\
    holds t tr /\
    root_black tr /\ no_red_red tr /\ black_balanced tr /\ ascending tr.
Proof.
  destruct (insert_all_inv (take n ops) _ _ tree_inv_init) as (t & tr & E & Hinv).
  exists t, tr. split; [done|]. split; [by destruct Hinv|].
  by destruct (tree_inv_red_black _ _ Hinv).
Qed.

Lemma sorted_keys_unique (l : list (ref * str)) a b d :
  StronglySorted str_lt (map snd l) -> (a, d) ∈ l -> (b, d) ∈ l -> a = b.
Proof.
  induction l as [|[x k] l IH]; cbn [map snd].
  - intros _ H. by apply elem_of_nil in H.
  - rewrite StronglySorted_cons, !elem_of_cons. intros (Hall & Hs) Ha Hb.
    assert (Hno : forall c, (c, d) ∈ l -> k <> d).
    { intros c Hc. eapply Forall_forall in Hall;
        [ by apply str_lt_ne in Hall |].
      apply list_elem_of_fmap. by exists (c, d). }
    destruct Ha as [Ha|Ha], Hb as [Hb|Hb]; try congruence.
    + injection Ha as -> ->. by destruct (Hno _ Hb).
    + injection Hb as -> ->. by destruct (Hno _ Ha).
    + eauto.
Qed.

(** C3. In every state a history of calls reaches: [insert_domain d s]
    returns an entry and a following [search_domain d] returns that same
    entry, whose domain is [d], leaving the tree as it was; and if [d] was
    never inserted, [search_domain d] returns [None] and leaves the tree
    (structure, colours and all) as it was. *)
Theorem C3_search_finds_inserted (ops : list op) (d : str) (s : Z) :
  exists t,
    run ops __init__ = (Ok tt, t) /\
    (exists t' a n,
        insert_domain d s t = (Ok a, t') /\
        search_domain d t' = (Ok (Some a), t') /\
        heap t' !! a = Some n /\ domain n = d) /\
    (~ In d (inserted ops) -> search_domain d t = (Ok None, t)).
Proof.
  destruct (run_init ops) as (t & tr & E & Hinv & Hk).
  exists t. split; [done|]. split.
  - destruct (insert_domain_inv _ _ d s Hinv)
      as (t' & tr' & a & E' & Hinv' & _ & (n & Hn & Hd & Ha)).
    exists t', a, n. split; [done|]. split; [|done].
    destruct (search_domain_spec _ _ d Hinv') as [(b & m & Es & Hb & _)|(_ & Hnin)].
    + assert (b = a) as ->; [|done].
      destruct Hinv' as (_ & _ & _ & Hasc). by eapply sorted_keys_unique.
    + destruct Hnin. by eapply elem_keys.
  - intros Hnin.
    destruct (search_domain_spec _ _ d Hinv) as [(b & m & _ & Hb & _)|(Es & _)];
      [|done].
    destruct Hnin. apply list_elem_of_In, Hk. by eapply elem_keys.
Qed.

Lemma C3_witness :
  ~ In (py "d.com") (inserted demo_ops) /\
  exists t,
    run demo_ops __init__ = (Ok tt, t) /\
    search_domain (py "d.com") t = (Ok None, t).
Proof.
  assert (H : ~ In (py "d.com") (inserted demo_ops)).
  { vm_compute. intros [H|[H|[H|[]]]]; discriminate H. }
  split; [exact H|].
  destruct (C3_search_finds_inserted demo_ops (py "d.com") 0) as (t & E & _ & Hs).
  exists t. split; [exact E | exact (Hs H)].
Defined.

(** C4. In every state a history of calls reaches, for a domain [d] the
    history inserted: [increment_spam_reports d a] adds [a] to the entry's
    [spam_reports], sets its score to [max 0 (score - a*5)] and returns the
    new score; [increment_legitimate_reports d a] adds [a] to
    [legitimate_reports], sets the score to [min 100 (score + a*3)] and
    returns it; nothing else in the tree changes.  For a domain never
    inserted both return [None] and leave the tree as it was. *)
Theorem C4_report_increments (ops : list op) (d : str) (a : Z) :
  exists t,
    run ops __init__ = (Ok tt, t) /\
    (In d (inserted ops) ->
       exists b n,
         heap t !! b = Some n /\ domain n = d /\
         increment_spam_reports d a t =
           (Ok (Some (Z.max 0 (reputation_score n - a * 5))),
            mkTree (<[b := spam_updated n a]> (heap t)) (root t) (size t)) /\
         increment_legitimate_reports d a t =
           (Ok (Some (Z.min 100 (reputation_score n + a * 3))),
            mkTree (<[b := legit_updated n a]> (heap t)) (root t) (size t))) /\
    (~ In d (inserted ops) ->
       increment_spam_reports d a t = (Ok None, t) /\
       increment_legitimate_reports d a t = (Ok None, t)).
Proof.
  destruct (run_init ops) as (t & tr & E & Hinv & Hk).
  exists t. split; [done|].
  destruct (search_domain_spec _ _ d Hinv) as [(b & n & Es & Hb & Hn & Hd)|(Es & Hnin)].
  - split.
    + intros _. exists b, n. split; [done|]. split; [done|].
      split; [by apply increment_spam_present | by apply increment_legit_present].
    + intros Hnin. destruct Hnin. apply list_elem_of_In, Hk. by eapply elem_keys.
  - split.
    + intros Hin. destruct Hnin. by apply Hk, list_elem_of_In.
    + intros _.
      split; [by apply increment_spam_absent | by apply increment_legit_absent].
Qed.

Lemma C4_witness :
  In (py "a.com") (inserted demo_ops) /\
  exists t b n,
    run demo_ops __init__ = (Ok tt, t) /\
    heap t !! b = Some n /\ domain n = py "a.com" /\
    increment_spam_reports (py "a.com") 3 t =
      (Ok (Some (Z.max 0 (reputation_score n - 3 * 5))),
       mkTree (<[b := spam_updated n 3]> (heap t)) (root t) (size t)).
Proof.
  assert (H : In (py "a.com") (inserted demo_ops)).
  { vm_compute. right. left. reflexivity. }
  split; [exact H|].
  destruct (C4_report_increments demo_ops (py "a.com") 3) as (t & E & Hp & _).
  destruct (Hp H) as (b & n & Hn & Hd & Hs & _).
  exists t, b, n. repeat split; assumption.
Defined.

(** C6. In every state a history of calls reaches, inserting a domain
    the history already inserted returns the existing entry and changes
    the tree object in one place only: that entry's [reputation_score]
    now holds the new score.  [size], [root], every link and colour, and
    the entry's [spam_reports] and [legitimate_reports] are as before. *)
Theorem C6_reinsert_overwrites_score (ops : list op) (d : str) (s : Z) :
  In d (inserted ops) ->
  exists t a n,
    run ops __init__ = (Ok tt, t) /\
    heap t !! a = Some n /\ domain n = d /\
    insert_domain d s t =
      (Ok a, mkTree (<[a := with_reputation_score n s]> (heap t))
                    (root t) (size t)).
Proof.
  intros Hin. destruct (run_init ops) as (t & tr & E & Hinv & Hk).
  assert (Hin' : d ∈ keys tr) by (by apply Hk, list_elem_of_In).
  destruct (insert_existing _ _ d s Hinv Hin') as (a & n & _ & Hn & Hd & Ei & _).
  by exists t, a, n.
Qed.

Lemma C6_witness :
  In (py "a.com") (inserted demo_ops) /\
  exists t a n,
    run demo_ops __init__ = (Ok tt, t) /\
    heap t !! a = Some n /\ domain n = py "a.com" /\
    insert_domain (py "a.com") 7 t =
      (Ok a, mkTree (<[a := with_reputation_score n 7]> (heap t))
                    (root t) (size t)).
Proof.
  assert (H : In (py "a.com") (inserted demo_ops)).
  { vm_compute. right. left. reflexivity. }
  split; [exact H|].
  exact (C6_reinsert_overwrites_score demo_ops (py "a.com") 7 H).
Defined.

(** ** Rebalancing writes links and colours only *)

Lemma same_payload_refl n : same_payload n n.
Proof. by split. Qed.

Lemma payload_kept_refl h : payload_kept h h.
Proof. intros a n Hn. exists n. split; [done|apply same_payload_refl]. Qed.

Lemma payload_kept_trans h1 h2 h3 :
  payload_kept h1 h2 -> payload_kept h2 h3 -> payload_kept h1 h3.
Proof.
  intros H1 H2 a n Hn.
  destruct (H1 _ _ Hn) as (n2 & Hn2 & Hd2 & He2).
  destruct (H2 _ _ Hn2) as (n3 & Hn3 & Hd3 & He3).
  exists n3. split; [done|]. split; congruence.
Qed.

Lemma payload_kept_insert h (b : ref) n n' :
  h !! b = Some n -> same_payload n n' -> payload_kept h (<[b := n']> h).
Proof.
  intros Hb Hs a m Ha. destruct (decide (b = a)) as [->|Hne].
  - exists n'. split.
    + apply list_lookup_insert_eq. by eapply lookup_lt_Some.
    + assert (m = n) by congruence. by subst.
  - exists m. split; [|apply same_payload_refl].
    by rewrite list_lookup_insert_ne.
Qed.

Lemma payload_kept_app h n : payload_kept h (h ++ [n]).
Proof.
  intros a m Ha. exists m. split; [|apply same_payload_refl].
  by apply lookup_app_l_Some.
Qed.

Lemma lo_ret {A} (a : A) : links_only (ret a).
Proof. intros t. apply payload_kept_refl. Qed.

Lemma lo_raise {A} e : links_only (raise (A := A) e).
Proof. intros t. apply payload_kept_refl. Qed.

Lemma lo_diverge {A} : links_only (diverge (A := A)).
Proof. intros t. apply payload_kept_refl. Qed.

Lemma lo_bind {A B} (m : T A) (k : A -> T B) :
  links_only m -> (forall a, links_only (k a)) -> links_only (bind m k).
Proof.
  intros Hm Hk t. unfold bind. specialize (Hm t).
  destruct (m t) as [[a| | |] t1]; cbn [snd] in *; try done.
  eapply payload_kept_trans; [exact Hm|apply Hk].
Qed.

Lemma lo_load x : links_only (load x).
Proof.
  intros t. unfold load. destruct (heap t !! x); apply payload_kept_refl.
Qed.

Lemma lo_get {A} (f : RBNode -> A) x : links_only (get f x).
Proof. apply lo_bind; [apply lo_load|intros n; apply lo_ret]. Qed.

Lemma lo_set {A} (f : RBNode -> A -> RBNode) x v :
  (forall n, same_payload n (f n v)) -> links_only (set f x v).
Proof.
  intros Hf t. unfold set, bind, load.
  destruct (heap t !! x) as [n|] eqn:E; cbn [snd store heap].
  - eapply payload_kept_insert; eauto.
  - apply payload_kept_refl.
Qed.

Lemma lo_get_root : links_only get_root.
Proof. intros t. apply payload_kept_refl. Qed.

Lemma lo_set_root r : links_only (set_root r).
Proof. intros t. apply payload_kept_refl. Qed.

Lemma lo_incr_size : links_only incr_size.
Proof. intros t. apply payload_kept_refl. Qed.

Lemma lo_deref o : links_only (deref o).
Proof. destruct o; [apply lo_ret|apply lo_raise]. Qed.

Lemma lo_parent_of x : links_only (parent_of x).
Proof. apply lo_bind; [apply lo_get|intros o; apply lo_deref]. Qed.

Ltac lo_step :=
  lazymatch goal with
  | |- links_only (bind _ _) => apply lo_bind; [|intros ?]
  | |- links_only (ret _) => apply lo_ret
  | |- links_only (raise _) => apply lo_raise
  | |- links_only diverge => apply lo_diverge
  | |- links_only (get _ _) => apply lo_get
  | |- links_only (set _ _ _) => apply lo_set; intros ?; by split
  | |- links_only get_root => apply lo_get_root
  | |- links_only (set_root _) => apply lo_set_root
  | |- links_only incr_size => apply lo_incr_size
  | |- links_only (deref _) => apply lo_deref
  | |- links_only (parent_of _) => apply lo_parent_of
  | |- links_only (match ?x with _ => _ end) => destruct x
  end.

Lemma lo_left_rotate x : links_only (_left_rotate x).
Proof. unfold _left_rotate. repeat lo_step. Qed.

Lemma lo_right_rotate y : links_only (_right_rotate y).
Proof. unfold _right_rotate. repeat lo_step. Qed.

Lemma lo_fixup_left node : links_only (fixup_left node).
Proof.
  unfold fixup_left.
  repeat first [apply lo_left_rotate | apply lo_right_rotate | lo_step].
Qed.

Lemma lo_fixup_right node : links_only (fixup_right node).
Proof.
  unfold fixup_right.
  repeat first [apply lo_left_rotate | apply lo_right_rotate | lo_step].
Qed.

Lemma lo_fixup_loop fuel : forall node, links_only (fixup_loop fuel node).
Proof.
  induction fuel as [|fuel IH]; intros node; cbn [fixup_loop].
  - apply lo_diverge.
  - repeat first [apply IH | apply lo_fixup_left | apply lo_fixup_right
                 | lo_step].
Qed.

Lemma lo_insert_fixup fuel node : links_only (_insert_fixup fuel node).
Proof. unfold _insert_fixup. repeat first [apply lo_fixup_loop | lo_step]. Qed.

(** Linking a fresh node and rebalancing: every entry the tree had keeps
    its domain, score and counters, and the new cell carries the score
    it was created with and two zero counters. *)
Lemma insert_fresh_payload t tr d s :
  tree_inv t tr -> d ∉ keys tr ->
  payload_kept (heap t) (heap (snd (insert_domain d s t))) /\
  exists n, heap (snd (insert_domain d s t)) !! length (heap t) = Some n /\
            domain n = d /\ node_entry n = (s, 0, 0).
Proof.
  intros Hinv Hnin.
  destruct (tree_inv_descend _ _ d Hinv)
    as [(c & l & a & r & ctx' & _ & _ & Hp)|(ctx' & E & _)].
  { subst tr. destruct Hnin. eapply elem_keys, in_plug_node. }
  assert (Hlo : forall (new : ref) (par : option ref) fuel,
    links_only
      (match par with
       | None => set_root new
       | Some p =>
           k <- get domain p ;;
           if str_ltb d k then set with_left p new
           else set with_right p new
       end ;;;
       set with_color new RED ;;;
       incr_size ;;;
       _insert_fixup fuel new ;;;
       ret new)).
  { intros new par fuel. repeat first [apply lo_insert_fixup | lo_step]. }
  rewrite insert_domain_unfold, (bind_ok _ _ _ _ _ E), bind_alloc.
  set (nd := mkNode d s 0 0 RED NIL NIL (ctx_parent ctx')).
  set (t1 := mkTree (heap t ++ [nd]) (root t) (size t)).
  specialize (Hlo (length (heap t)) (ctx_parent ctx') (length (heap t)) t1).
  cbn [heap] in Hlo. fold t1 in Hlo.
  split.
  - eapply payload_kept_trans; [apply (payload_kept_app _ nd)|exact Hlo].
  - destruct (Hlo (length (heap t)) nd) as (n' & Hn' & Hd & He).
    { unfold t1. cbn [heap]. apply list_lookup_middle. done. }
    exists n'. split; [exact Hn'|]. split; [exact Hd|exact He].
Qed.

(** ** The table a store shows *)

Lemma rows_keys h (l : list (ref * str)) :
  map fst (map (fun ak => (snd ak, entry_at h (fst ak))) l) = map snd l.
Proof. rewrite map_map. by apply map_ext. Qed.

Lemma rows_insert_notin h (l : list (ref * str)) (a : ref) n :
  a ∉ map fst l ->
  map (fun ak => (snd ak, entry_at (<[a := n]> h) (fst ak))) l =
  map (fun ak => (snd ak, entry_at h (fst ak))) l.
Proof.
  intros Hnin. apply map_ext_in. intros [b k] Hb. cbn [fst snd].
  unfold entry_at. rewrite list_lookup_insert_ne; [done|].
  intros ->. apply Hnin. apply list_elem_of_In, in_map_iff.
  by exists (b, k).
Qed.

Lemma rows_kept h h' (l : list (ref * str)) :
  payload_kept h h' ->
  (forall a k, (a, k) ∈ l -> is_Some (h !! a)) ->
  map (fun ak => (snd ak, entry_at h' (fst ak))) l =
  map (fun ak => (snd ak, entry_at h (fst ak))) l.
Proof.
  intros Hk Hin. apply map_ext_in. intros [b k] Hb. cbn [fst snd].
  destruct (Hin b k) as [n Hn]; [by apply list_elem_of_In|].
  destruct (Hk _ _ Hn) as (n' & Hn' & _ & He).
  unfold entry_at. by rewrite Hn, Hn', He.
Qed.

Lemma entry_at_insert h (a : ref) n n' :
  h !! a = Some n -> entry_at (<[a := n']> h) a = node_entry n'.
Proof.
  intros Hn. unfold entry_at.
  rewrite list_lookup_insert_eq; [done|]. by eapply lookup_lt_Some.
Qed.

(** Overwriting the cell of one entry changes that row of the table and
    no other. *)
Lemma entries_update t tr (a : ref) d n n' :
  tree_inv t tr -> (a, d) ∈ elems tr -> heap t !! a = Some n ->
  exists lo hi,
    entries (heap t) tr = lo ++ (d, node_entry n) :: hi /\
    entries (<[a := n']> (heap t)) tr = lo ++ (d, node_entry n') :: hi /\
    Forall (fun r => str_lt (fst r) d) lo.
Proof.
  intros ((Hnil & Hrep & Hctx & Hnd) & _ & _ & Hasc) Hin Hn.
  cbn [plug] in Hnd. unfold addrs in Hnd. unfold ascending, keys in Hasc.
  destruct (list_elem_of_split _ _ Hin) as (l1 & l2 & Hel).
  unfold entries. rewrite Hel in Hnd, Hasc |- *.
  rewrite map_app in Hnd, Hasc. cbn [map fst snd] in Hnd, Hasc.
  apply NoDup_app in Hnd as (_ & Hd1 & Hnd2).
  apply NoDup_cons in Hnd2 as (Hd2 & _).
  apply StronglySorted_app in Hasc as (Hlt & _ & _).
  assert (Ha1 : a ∉ map fst l1).
  { intros H. apply (Hd1 _ H). apply elem_of_cons. by left. }
  eexists _, _. rewrite !map_app. cbn [map fst snd].
  rewrite (rows_insert_notin _ l1 _ _ Ha1), (rows_insert_notin _ l2 _ _ Hd2).
  rewrite (entry_at_insert _ _ _ _ Hn).
  split; [|split; [reflexivity|]].
  - unfold entry_at at 2. rewrite Hn. reflexivity.
  - apply Forall_forall. intros r Hr.
    apply list_elem_of_In, in_map_iff in Hr as ([b k] & <- & Hb).
    cbn [fst snd]. apply Hlt.
    + apply list_elem_of_In, in_map_iff. by exists (b, k).
    + apply elem_of_cons. by left.
Qed.

(** ** The same operations on a sorted table *)

Lemma table_insert_fresh lo hi d s :
  Forall (fun r : str * entry => str_lt (fst r) d) lo ->
  Forall (fun r : str * entry => str_lt d (fst r)) hi ->
  table_insert d s (lo ++ hi) = lo ++ (d, (s, 0, 0)) :: hi.
Proof.
  induction lo as [|[k e] lo IH]; intros Hlo Hhi; cbn [app table_insert].
  - destruct hi as [|[k e] hi]; [done|]. cbn [table_insert].
    apply Forall_cons in Hhi as [H _]. cbn [fst] in H. unfold str_lt in H.
    by rewrite H.
  - apply Forall_cons in Hlo as [H Hlo]. cbn [fst] in H. unfold str_lt in H.
    rewrite (str_ltb_asym _ _ H), H. f_equal. by apply IH.
Qed.

Lemma table_insert_found lo hi d e s :
  Forall (fun r : str * entry => str_lt (fst r) d) lo ->
  table_insert d s (lo ++ (d, e) :: hi) =
    lo ++ (d, (s, spam_of e, legit_of e)) :: hi.
Proof.
  induction lo as [|[k e'] lo IH]; intros Hlo; cbn [app table_insert].
  - by rewrite str_ltb_irrefl.
  - apply Forall_cons in Hlo as [H Hlo]. cbn [fst] in H. unfold str_lt in H.
    rewrite (str_ltb_asym _ _ H), H. f_equal. by apply IH.
Qed.

Lemma table_adjust_found lo hi d e f :
  Forall (fun r : str * entry => str_lt (fst r) d) lo ->
  table_adjust d f (lo ++ (d, e) :: hi) = lo ++ (d, f e) :: hi.
Proof.
  induction lo as [|[k e'] lo IH]; intros Hlo; cbn [app table_adjust].
  - unfold str_eqb. by rewrite bool_decide_eq_true_2.
  - apply Forall_cons in Hlo as [H Hlo]. cbn [fst] in H.
    unfold str_eqb. rewrite bool_decide_eq_false_2.
    + f_equal. by apply IH.
    + intros ->. by apply str_lt_ne in H.
Qed.

Lemma table_adjust_absent tb d f :
  d ∉ map fst tb -> table_adjust d f tb = tb.
Proof.
  induction tb as [|[k e] tb IH]; intros Hnin; cbn [table_adjust]; [done|].
  cbn [map fst] in Hnin. apply not_elem_of_cons in Hnin as [Hne Hnin].
  unfold str_eqb. rewrite bool_decide_eq_false_2; [|done].
  f_equal. by apply IH.
Qed.

Lemma table_find_found lo hi d e :
  Forall (fun r : str * entry => str_lt (fst r) d) lo ->
  table_find d (lo ++ (d, e) :: hi) = Some e.
Proof.
  induction lo as [|[k e'] lo IH]; intros Hlo; cbn [app table_find].
  - unfold str_eqb. by rewrite bool_decide_eq_true_2.
  - apply Forall_cons in Hlo as [H Hlo]. cbn [fst] in H.
    unfold str_eqb. rewrite bool_decide_eq_false_2; [by apply IH|].
    intros ->. by apply str_lt_ne in H.
Qed.

Lemma table_find_absent tb d :
  d ∉ map fst tb -> table_find d tb = None.
Proof.
  induction tb as [|[k e] tb IH]; intros Hnin; cbn [table_find]; [done|].
  cbn [map fst] in Hnin. apply not_elem_of_cons in Hnin as [Hne Hnin].
  unfold str_eqb. rewrite bool_decide_eq_false_2; [|done]. by apply IH.
Qed.

Lemma entries_keys h tr : map fst (entries h tr) = keys tr.
Proof. apply rows_keys. Qed.

Lemma entries_length h tr : length (entries h tr) = length (elems tr).
Proof. unfold entries. by rewrite length_map. Qed.

(** ** Every call acts on the table as its table operation *)

Lemma insert_table t tr d s :
  tree_inv t tr -> size t = Z.of_nat (length (elems tr)) ->
  exists t' tr' a, insert_domain d s t = (Ok a, t') /\ tree_inv t' tr' /\
    size t' = Z.of_nat (length (elems tr')) /\
    entries (heap t') tr' = table_insert d s (entries (heap t) tr).
Proof.
  intros Hinv Hsz. destruct (decide (d ∈ keys tr)) as [Hin|Hnin].
  - destruct (insert_existing _ _ d s Hinv Hin)
      as (a & n & Hel & Hn & Hd & E & Hinv').
    eexists _, tr, a. split; [exact E|]. split; [exact Hinv'|].
    split; [exact Hsz|]. cbn [heap].
    destruct (entries_update _ _ _ _ _ (with_reputation_score n s) Hinv Hel Hn)
      as (lo & hi & -> & -> & Hlo).
    by rewrite table_insert_found.
  - destruct (insert_fresh _ _ d s Hinv Hnin)
      as (t' & tr' & lo & hi & E & Hinv' & Hel & Hel' & Hsz' & Hlen).
    destruct (insert_fresh_payload _ _ d s Hinv Hnin) as (Hk & n & Hn & Hd & He).
    rewrite E in Hk, Hn. cbn [snd] in Hk, Hn.
    exists t', tr', (length (heap t)). split; [exact E|].
    split; [exact Hinv'|]. split.
    { rewrite Hsz', Hsz, Hel, Hel', !length_app. cbn [length]. lia. }
    assert (Hsome : forall a k, (a, k) ∈ lo ++ hi -> is_Some (heap t !! a)).
    { intros a k Hak. rewrite <- Hel in Hak.
      destruct Hinv as (Hh & _).
      destruct (holds_elem _ _ _ _ Hh Hak) as (m & Hm & _). by exists m. }
    destruct Hinv' as (_ & _ & _ & Hasc).
    unfold ascending, keys in Hasc. rewrite Hel', map_app in Hasc.
    cbn [map snd] in Hasc.
    apply StronglySorted_app in Hasc as (Hlt & _ & Hhi).
    apply StronglySorted_cons in Hhi as (Hhi & _).
    unfold entries. rewrite Hel, Hel', !map_app. cbn [map fst snd].
    rewrite (rows_kept _ _ lo Hk), (rows_kept _ _ hi Hk).
    2: { intros a k Hak. apply (Hsome a k), elem_of_app. by right. }
    2: { intros a k Hak. apply (Hsome a k), elem_of_app. by left. }
    assert (Hen : entry_at (heap t') (length (heap t)) = (s, 0, 0)).
    { unfold entry_at, ref. by rewrite Hn. }
    rewrite Hen.
    rewrite table_insert_fresh; [done| |].
    + apply Forall_forall. intros r Hr.
      apply list_elem_of_In, in_map_iff in Hr as ([b k] & <- & Hb).
      cbn [fst snd]. apply Hlt.
      * apply list_elem_of_In, in_map_iff. by exists (b, k).
      * apply elem_of_cons. by left.
    + apply Forall_forall. intros r Hr.
      apply list_elem_of_In, in_map_iff in Hr as ([b k] & <- & Hb).
      cbn [fst snd]. eapply Forall_forall in Hhi; [exact Hhi|].
      apply list_elem_of_In, in_map_iff. by exists (b, k).
Qed.

Lemma run_op_table o t tr :
  tree_inv t tr -> size t = Z.of_nat (length (elems tr)) ->
  exists t' tr', run_op o t = (Ok tt, t') /\ tree_inv t' tr' /\
    size t' = Z.of_nat (length (elems tr')) /\
    entries (heap t') tr' = table_step (entries (heap t) tr) o.
Proof.
  intros Hinv Hsz.
  destruct o as [d s|d|d s|d a|d a]; cbn [run_op table_step].
  - destruct (insert_table _ _ d s Hinv Hsz) as (t' & tr' & a & E & H).
    exists t', tr'. by rewrite E.
  - exists t, tr.
    destruct (search_domain_spec _ _ d Hinv) as [(a & n & E & _)|(E & _)];
      by rewrite E.
  - destruct (search_domain_spec _ _ d Hinv)
      as [(b & n & E & Hel & Hn & _)|(E & Hnin)].
    + rewrite (update_score_present _ _ _ _ s E Hn).
      eexists _, tr. split; [done|].
      split; [eapply tree_inv_update; eauto using same_links_score|].
      split; [exact Hsz|]. cbn [heap].
      destruct (entries_update _ _ _ _ _
                  (with_reputation_score n (Z.max 0 (Z.min 100 s))) Hinv Hel Hn)
        as (lo & hi & -> & -> & Hlo).
      by rewrite table_adjust_found.
    + rewrite (update_score_absent _ _ s E). exists t, tr.
      split; [done|]. split; [done|]. split; [done|].
      rewrite table_adjust_absent; [done|]. by rewrite entries_keys.
  - destruct (search_domain_spec _ _ d Hinv)
      as [(b & n & E & Hel & Hn & _)|(E & Hnin)].
    + rewrite (increment_spam_present _ _ _ _ a E Hn).
      eexists _, tr. split; [done|].
      split; [eapply tree_inv_update; eauto using same_links_spam_updated|].
      split; [exact Hsz|]. cbn [heap].
      destruct (entries_update _ _ _ _ _ (spam_updated n a) Hinv Hel Hn)
        as (lo & hi & -> & -> & Hlo).
      by rewrite table_adjust_found.
    + rewrite (increment_spam_absent _ _ a E). exists t, tr.
      split; [done|]. split; [done|]. split; [done|].
      rewrite table_adjust_absent; [done|]. by rewrite entries_keys.
  - destruct (search_domain_spec _ _ d Hinv)
      as [(b & n & E & Hel & Hn & _)|(E & Hnin)].
    + rewrite (increment_legit_present _ _ _ _ a E Hn).
      eexists _, tr. split; [done|].
      split; [eapply tree_inv_update; eauto using same_links_legit_updated|].
      split; [exact Hsz|]. cbn [heap].
      destruct (entries_update _ _ _ _ _ (legit_updated n a) Hinv Hel Hn)
        as (lo & hi & -> & -> & Hlo).
      by rewrite table_adjust_found.
    + rewrite (increment_legit_absent _ _ a E). exists t, tr.
      split; [done|]. split; [done|]. split; [done|].
      rewrite table_adjust_absent; [done|]. by rewrite entries_keys.
Qed.

Lemma run_table ops : forall t tr,
  tree_inv t tr -> size t = Z.of_nat (length (elems tr)) ->
  exists t' tr', run ops t = (Ok tt, t') /\ tree_inv t' tr' /\
    size t' = Z.of_nat (length (elems tr')) /\
    entries (heap t') tr' = fold_left table_step ops (entries (heap t) tr).
Proof.
  induction ops as [|o ops IH]; intros t tr Hinv Hsz.
  - by exists t, tr.
  - destruct (run_op_table o _ _ Hinv Hsz) as (t1 & tr1 & E1 & Hinv1 & Hsz1 & Ht1).
    destruct (IH _ _ Hinv1 Hsz1) as (t2 & tr2 & E2 & Hinv2 & Hsz2 & Ht2).
    exists t2, tr2. cbn [run fold_left]. rewrite E1.
    split; [done|]. split; [done|]. split; [done|]. by rewrite Ht2, Ht1.
Qed.

(** Every history returns, and leaves a store that holds a red-black
    tree whose table is the one the same calls build on a sorted list;
    [self.size] is the number of its rows. *)
Lemma run_table_init ops :
  exists t tr, run ops __init__ = (Ok tt, t) /\ tree_inv t tr /\
    entries (heap t) tr = table_of ops /\
    size t = Z.of_nat (length (table_of ops)).
Proof.
  destruct (run_table ops _ _ tree_inv_init) as (t & tr & E & Hinv & Hsz & Ht);
    [done|].
  exists t, tr. split; [done|]. split; [done|].
  cbn [entries elems map] in Ht. unfold table_of. rewrite <- Ht.
  split; [done|]. by rewrite entries_length.
Qed.

(** ** The traversals *)

Lemma entry_at_lookup h (a : ref) n :
  h !! a = Some n -> entry_at h a = node_entry n.
Proof. intros Hn. unfold entry_at. by rewrite Hn. Qed.

Lemma collect_all_nil fuel acc : _inorder_collect_all fuel NIL acc = ret acc.
Proof. by destruct fuel. Qed.

Lemma collect_all_spec tr : forall fuel par t acc,
  rep (heap t) par tr -> (length (elems tr) <= fuel)%nat ->
  _inorder_collect_all fuel (addr_of tr) acc t =
    (Ok (acc ++ scores (entries (heap t) tr)), t).
Proof.
  induction tr as [|c l IHl a k r IHr]; intros fuel par t acc Hrep Hfuel.
  - cbn [addr_of]. rewrite collect_all_nil. unfold ret.
    cbn [entries elems map scores]. by rewrite app_nil_r.
  - cbn [rep] in Hrep.
    destruct Hrep as ((Hne & n & Hn & Hc & Hk & Hp & Hl & Hr) & Hrl & Hrr).
    cbn [elems] in Hfuel. rewrite length_app in Hfuel. cbn [length] in Hfuel.
    destruct fuel as [|fuel]; [lia|]. cbn [addr_of _inorder_collect_all].
    rewrite (proj2 (Nat.eqb_neq _ _) Hne).
    rewrite (bind_ok _ _ _ _ _ (get_ok left _ _ _ Hn)), Hl.
    rewrite (bind_ok _ _ _ _ _ (IHl fuel (Some a) t acc Hrl ltac:(lia))).
    rewrite (bind_ok _ _ _ _ _ (get_ok domain _ _ _ Hn)).
    rewrite (bind_ok _ _ _ _ _ (get_ok reputation_score _ _ _ Hn)).
    rewrite (bind_ok _ _ _ _ _ (get_ok right _ _ _ Hn)), Hr.
    rewrite (IHr fuel (Some a) t _ Hrr ltac:(lia)).
    f_equal. f_equal. unfold scores, entries. cbn [elems].
    rewrite !map_app. cbn [map fst snd].
    rewrite (entry_at_lookup _ _ _ Hn), Hk.
    rewrite <- !app_assoc. reflexivity.
Qed.

Lemma get_all_domains_spec t tr :
  holds t tr ->
  get_all_domains t = (Ok (scores (entries (heap t) tr)), t).
Proof.
  intros Hz.
  assert (Hun : get_all_domains t =
                _inorder_collect_all (length (heap t)) (root t) [] t)
    by reflexivity.
  rewrite Hun, (zrep_root _ _ Hz).
  pose proof (holds_bound _ _ Hz) as Hb.
  destruct Hz as (_ & Hrep & _).
  rewrite (collect_all_spec tr _ None t [] Hrep); [done|lia].
Qed.

Lemma collect_blacklisted_nil fuel th acc :
  _inorder_collect_blacklisted fuel NIL th acc = ret acc.
Proof. by destruct fuel. Qed.

Lemma collect_blacklisted_spec tr th : forall fuel par t acc,
  rep (heap t) par tr -> (length (elems tr) <= fuel)%nat ->
  _inorder_collect_blacklisted fuel (addr_of tr) th acc t =
    (Ok (acc ++ List.filter (fun r => snd r <? th)
                   (scores (entries (heap t) tr))), t).
Proof.
  induction tr as [|c l IHl a k r IHr]; intros fuel par t acc Hrep Hfuel.
  - cbn [addr_of]. rewrite collect_blacklisted_nil. unfold ret.
    cbn [entries elems map scores List.filter]. by rewrite app_nil_r.
  - cbn [rep] in Hrep.
    destruct Hrep as ((Hne & n & Hn & Hc & Hk & Hp & Hl & Hr) & Hrl & Hrr).
    cbn [elems] in Hfuel. rewrite length_app in Hfuel. cbn [length] in Hfuel.
    destruct fuel as [|fuel]; [lia|].
    cbn [addr_of _inorder_collect_blacklisted].
    rewrite (proj2 (Nat.eqb_neq _ _) Hne).
    rewrite (bind_ok _ _ _ _ _ (get_ok left _ _ _ Hn)), Hl.
    rewrite (bind_ok _ _ _ _ _ (IHl fuel (Some a) t acc Hrl ltac:(lia))).
    rewrite (bind_ok _ _ _ _ _ (get_ok reputation_score _ _ _ Hn)).
    unfold scores, entries. cbn [elems].
    rewrite !map_app, !List.filter_app. cbn [map fst snd List.filter].
    rewrite (entry_at_lookup _ _ _ Hn).
    change (score_of (node_entry n)) with (reputation_score n).
    destruct (reputation_score n <? th).
    + rewrite bind_assoc.
      rewrite (bind_ok _ _ _ _ _ (get_ok domain _ _ _ Hn)).
      rewrite bind_assoc.
      rewrite (bind_ok _ _ _ _ _ (get_ok reputation_score _ _ _ Hn)).
      rewrite bind_ret.
      rewrite (bind_ok _ _ _ _ _ (get_ok right _ _ _ Hn)), Hr.
      rewrite (IHr fuel (Some a) t _ Hrr ltac:(lia)).
      f_equal. f_equal. unfold scores, entries. rewrite Hk.
      rewrite <- !app_assoc. reflexivity.
    + rewrite bind_ret.
      rewrite (bind_ok _ _ _ _ _ (get_ok right _ _ _ Hn)), Hr.
      rewrite (IHr fuel (Some a) t _ Hrr ltac:(lia)).
      f_equal. f_equal. unfold scores, entries.
      rewrite <- !app_assoc. reflexivity.
Qed.

Lemma get_blacklisted_domains_spec t tr th :
  holds t tr ->
  get_blacklisted_domains th t =
    (Ok (List.filter (fun r => snd r <? th) (scores (entries (heap t) tr))), t).
Proof.
  intros Hz.
  assert (Hun : get_blacklisted_domains th t =
                _inorder_collect_blacklisted (length (heap t)) (root t) th [] t)
    by reflexivity.
  rewrite Hun, (zrep_root _ _ Hz).
  pose proof (holds_bound _ _ Hz) as Hb.
  destruct Hz as (_ & Hrep & _).
  rewrite (collect_blacklisted_spec tr th _ None t [] Hrep); [done|lia].
Qed.

(** ** Facts about tables *)

Lemma scores_keys tb : map fst (scores tb) = map fst tb.
Proof. unfold scores. rewrite map_map. by apply map_ext. Qed.

Lemma table_insert_keys d s tb k :
  k ∈ map fst (table_insert d s tb) <-> k = d \/ k ∈ map fst tb.
Proof.
  induction tb as [|[k' e] tb IH]; cbn [table_insert map fst].
  - rewrite elem_of_cons. tauto.
  - destruct (str_ltb d k') eqn:E1; [|destruct (str_ltb k' d) eqn:E2];
      cbn [map fst]; rewrite ?elem_of_cons, ?IH, ?elem_of_cons.
    + tauto.
    + tauto.
    + destruct (str_ltb_total d k' E1 E2). tauto.
Qed.

Lemma table_adjust_keys d f tb : map fst (table_adjust d f tb) = map fst tb.
Proof.
  induction tb as [|[k e] tb IH]; cbn [table_adjust map fst]; [done|].
  destruct (str_eqb d k); cbn [map fst]; [done|]. by rewrite IH.
Qed.

Lemma table_step_keys tb o k :
  k ∈ map fst (table_step tb o) <-> k ∈ inserted [o] \/ k ∈ map fst tb.
Proof.
  destruct o as [d s|d|d s|d a|d a]; cbn [table_step inserted];
    rewrite ?table_adjust_keys, ?table_insert_keys,
            ?elem_of_cons, ?elem_of_nil; tauto.
Qed.

Lemma table_run_keys ops : forall tb k,
  k ∈ map fst (fold_left table_step ops tb) <->
  k ∈ inserted ops \/ k ∈ map fst tb.
Proof.
  induction ops as [|o ops IH]; intros tb k; cbn [fold_left].
  - cbn [inserted]. rewrite elem_of_nil. tauto.
  - rewrite IH, table_step_keys, (inserted_cons o ops). tauto.
Qed.

Lemma table_of_keys ops k : k ∈ map fst (table_of ops) <-> k ∈ inserted ops.
Proof.
  unfold table_of. rewrite table_run_keys. cbn [map]. rewrite elem_of_nil.
  tauto.
Qed.

Lemma sorted_nodup (l : list str) : StronglySorted str_lt l -> NoDup l.
Proof.
  induction l as [|x l IH]; [constructor|].
  rewrite StronglySorted_cons, NoDup_cons. intros (Hall & Hs).
  split; [|by apply IH]. intros Hin.
  eapply Forall_forall in Hall; [|exact Hin]. by apply str_lt_ne in Hall.
Qed.

(** X1. After any history of calls, [get_all_domains] returns: it yields
    the rows of the table the same calls build on a sorted list, each
    domain with its current score; the domains are strictly ascending
    and are exactly the domains inserted; the tree is left unchanged. *)
Theorem get_all_domains_sorted_table (ops : list op) :
  exists t, run ops __init__ = (Ok tt, t) /\
    get_all_domains t = (Ok (scores (table_of ops)), t) /\
    StronglySorted str_lt (map fst (scores (table_of ops))) /\
    (forall d, d ∈ map fst (scores (table_of ops)) <-> d ∈ inserted ops).
Proof.
  destruct (run_table_init ops) as (t & tr & E & Hinv & Ht & Hsz).
  exists t. split; [exact E|].
  destruct Hinv as (Hz & _ & _ & Hasc).
  split; [by rewrite (get_all_domains_spec _ _ Hz), Ht|].
  rewrite scores_keys. split.
  - by rewrite <- Ht, entries_keys.
  - apply table_of_keys.
Qed.

(** X2. After any history of calls, [get_blacklisted_domains threshold]
    returns exactly the rows of [get_all_domains] whose score is below
    the threshold, in the same order, and leaves the tree unchanged. *)
Theorem get_blacklisted_domains_filters (ops : list op) (threshold : Z) :
  exists t all,
    run ops __init__ = (Ok tt, t) /\
    get_all_domains t = (Ok all, t) /\
    get_blacklisted_domains threshold t =
      (Ok (List.filter (fun r => snd r <? threshold) all), t).
Proof.
  destruct (run_table_init ops) as (t & tr & E & Hinv & Ht & Hsz).
  destruct Hinv as (Hz & _).
  exists t, (scores (entries (heap t) tr)). split; [exact E|].
  split; [by apply get_all_domains_spec|by apply get_blacklisted_domains_spec].
Qed.

(** X3. After any history of calls, [search_domain d] answers as the
    table does: when the table has a row for [d] it returns an entry
    with that domain, score and report counters; when it has none it
    returns [None]. *)
Theorem search_domain_reads_table (ops : list op) (d : str) :
  exists t, run ops __init__ = (Ok tt, t) /\
    match table_find d (table_of ops) with
    | Some e =>
        exists a n, search_domain d t = (Ok (Some a), t) /\
          heap t !! a = Some n /\ domain n = d /\ node_entry n = e
    | None => search_domain d t = (Ok None, t)
    end.
Proof.
  destruct (run_table_init ops) as (t & tr & E & Hinv & Ht & Hsz).
  exists t. split; [exact E|]. rewrite <- Ht.
  destruct (search_domain_spec _ _ d Hinv)
    as [(a & n & Es & Hel & Hn & Hd)|(Es & Hnin)].
  - destruct (entries_update _ _ _ _ _ n Hinv Hel Hn) as (lo & hi & -> & _ & Hlo).
    rewrite (table_find_found lo hi d _ Hlo). by exists a, n.
  - rewrite table_find_absent; [done|]. by rewrite entries_keys.
Qed.

(** X4. After any history of calls, [self.size] is the number of
    distinct domains inserted, which is also the number of rows
    [get_all_domains] returns. *)
Theorem size_counts_domains (ops : list op) :
  exists t all,
    run ops __init__ = (Ok tt, t) /\
    get_all_domains t = (Ok all, t) /\
    size t = Z.of_nat (length all) /\
    size t = Z.of_nat (length (remove_dups (inserted ops))).
Proof.
  destruct (run_table_init ops) as (t & tr & E & Hinv & Ht & Hsz).
  destruct Hinv as (Hz & _ & _ & Hasc).
  exists t, (scores (table_of ops)). split; [exact E|].
  split; [by rewrite (get_all_domains_spec _ _ Hz), Ht|].
  unfold scores. rewrite length_map. split; [exact Hsz|].
  rewrite Hsz. f_equal.
  rewrite <- (length_map fst (table_of ops)).
  apply Permutation_length, NoDup_Permutation.
  - apply sorted_nodup. by rewrite <- Ht, entries_keys.
  - apply NoDup_remove_dups.
  - intros k. by rewrite elem_of_remove_dups, table_of_keys.
Qed.


(** ** Scores and counters in range *)

Lemma table_insert_Forall (P : str * entry -> Prop) d s tb :
  P (d, (s, 0, 0)) ->
  (forall e, P (d, e) -> P (d, (s, snd (fst e), snd e))) ->
  Forall P tb -> Forall P (table_insert d s tb).
Proof.
  intros Hnew Hupd. induction tb as [|[k e] tb IH]; intros Hall;
    cbn [table_insert].
  - by constructor.
  - apply Forall_cons in Hall as [Hk Hall].
    destruct (str_ltb d k) eqn:E1; [|destruct (str_ltb k d) eqn:E2].
    + constructor; [done|by constructor].
    + constructor; [done|by apply IH].
    + destruct (str_ltb_total d k E1 E2). constructor; [by apply Hupd|done].
Qed.

Lemma table_adjust_Forall (P : str * entry -> Prop) d f tb :
  (forall e, P (d, e) -> P (d, f e)) ->
  Forall P tb -> Forall P (table_adjust d f tb).
Proof.
  intros Hf. induction tb as [|[k e] tb IH]; intros Hall;
    cbn [table_adjust]; [done|].
  apply Forall_cons in Hall as [Hk Hall].
  unfold str_eqb. case_bool_decide as Heq.
  - subst k. constructor; [by apply Hf|done].
  - constructor; [done|by apply IH].
Qed.

Lemma table_step_in_range tb o :
  in_range o ->
  Forall (fun r : str * entry =>
            0 <= score_of (snd r) <= 100 /\ 0 <= spam_of (snd r) /\
            0 <= legit_of (snd r)) tb ->
  Forall (fun r : str * entry =>
            0 <= score_of (snd r) <= 100 /\ 0 <= spam_of (snd r) /\
            0 <= legit_of (snd r)) (table_step tb o).
Proof.
  intros Ho Hall. destruct o as [d s|d|d s|d a|d a];
    cbn [table_step in_range] in *; [| done | | |].
  - apply table_insert_Forall; [| |done].
    + unfold score_of, spam_of, legit_of. cbn. lia.
    + intros [[s0 sp] lg]. unfold score_of, spam_of, legit_of. cbn. lia.
  - apply table_adjust_Forall; [|done].
    intros [[s0 sp] lg]. unfold score_of, spam_of, legit_of. cbn. lia.
  - apply table_adjust_Forall; [|done].
    intros [[s0 sp] lg]. unfold score_of, spam_of, legit_of. cbn. lia.
  - apply table_adjust_Forall; [|done].
    intros [[s0 sp] lg]. unfold score_of, spam_of, legit_of. cbn. lia.
Qed.

Lemma table_run_in_range ops : forall tb,
  Forall in_range ops ->
  Forall (fun r : str * entry =>
            0 <= score_of (snd r) <= 100 /\ 0 <= spam_of (snd r) /\
            0 <= legit_of (snd r)) tb ->
  Forall (fun r : str * entry =>
            0 <= score_of (snd r) <= 100 /\ 0 <= spam_of (snd r) /\
            0 <= legit_of (snd r)) (fold_left table_step ops tb).
Proof.
  induction ops as [|o ops IH]; intros tb Hops Hall; cbn [fold_left]; [done|].
  apply Forall_cons in Hops as [Ho Hops].
  apply IH; [done|]. by apply table_step_in_range.
Qed.

(** X8. If every insert of a history carries a score from 0 to 100 and
    every report amount is non-negative, then afterwards every score
    [get_all_domains] returns lies in 0..100, and every entry
    [search_domain] returns has a score in 0..100 and non-negative
    report counters. *)
Theorem scores_stay_in_range (ops : list op) :
  Forall in_range ops ->
  exists t all,
    run ops __init__ = (Ok tt, t) /\
    get_all_domains t = (Ok all, t) /\
    Forall (fun r => 0 <= snd r <= 100) all /\
    (forall d a n, search_domain d t = (Ok (Some a), t) ->
       heap t !! a = Some n ->
       0 <= reputation_score n <= 100 /\ 0 <= spam_reports n /\
       0 <= legitimate_reports n).
Proof.
  intros Hops.
  destruct (run_table_init ops) as (t & tr & E & Hinv & Ht & Hsz).
  pose proof (table_run_in_range ops [] Hops (Forall_nil_2 _)) as Hall.
  fold (table_of ops) in Hall.
  exists t, (scores (table_of ops)). split; [exact E|].
  pose proof Hinv as (Hz & _).
  split; [by rewrite (get_all_domains_spec _ _ Hz), Ht|]. split.
  - unfold scores. apply Forall_forall. intros r Hr.
    apply list_elem_of_In, in_map_iff in Hr as (r0 & <- & Hr0).
    apply list_elem_of_In in Hr0.
    eapply Forall_forall in Hall; [|exact Hr0]. cbn [snd]. tauto.
  - intros d a n Es Hn.
    destruct (search_domain_spec _ _ d Hinv)
      as [(a' & n' & Es' & Hel & Hn' & Hd)|(Es' & _)]; [|congruence].
    assert (a' = a) by congruence. subst a'.
    assert (n' = n) by congruence. subst n'.
    destruct (entries_update _ _ _ _ _ n Hinv Hel Hn) as (lo & hi & Hent & _).
    rewrite Ht in Hent. rewrite Hent in Hall.
    apply Forall_app in Hall as (_ & Hall).
    apply Forall_cons in Hall as (Hrow & _). exact Hrow.
Qed.

Lemma scores_stay_in_range_witness :
  Forall in_range
    [Insert (py "a.com") 50; SpamReport (py "a.com") 30;
     LegitReport (py "a.com") 2; UpdateScore (py "a.com") 500] /\
  exists t all,
    run [Insert (py "a.com") 50; SpamReport (py "a.com") 30;
         LegitReport (py "a.com") 2; UpdateScore (py "a.com") 500]
        __init__ = (Ok tt, t) /\
    get_all_domains t = (Ok all, t) /\
    Forall (fun r => 0 <= snd r <= 100) all /\
    (forall d a n, search_domain d t = (Ok (Some a), t) ->
       heap t !! a = Some n ->
       0 <= reputation_score n <= 100 /\ 0 <= spam_reports n /\
       0 <= legitimate_reports n).
Proof.
  assert (H : Forall in_range
    [Insert (py "a.com") 50; SpamReport (py "a.com") 30;
     LegitReport (py "a.com") 2; UpdateScore (py "a.com") 500]).
  { repeat constructor; cbn [in_range]; lia. }
  split; [exact H|]. exact (scores_stay_in_range _ H).
Defined.

(** ** Rebalancing never touches a payload *)

(** X10. On every store, well formed or not, and however the call ends,
    [_left_rotate], [_right_rotate] and [_insert_fixup] leave the
    domain, the score and both report counters of every cell as they
    were: they write links and colours only. *)
Theorem rebalancing_keeps_payloads (fuel : nat) (x : ref) (t : RedBlackTree) :
  payload_kept (heap t) (heap (snd (_left_rotate x t))) /\
  payload_kept (heap t) (heap (snd (_right_rotate x t))) /\
  payload_kept (heap t) (heap (snd (_insert_fixup fuel x t))).
Proof.
  split; [apply lo_left_rotate|]. split; [apply lo_right_rotate|].
  apply lo_insert_fixup.
Qed.

(** ** [verify_rb_properties] *)

Lemma is_red_node_spec par l t :
  rep (heap t) par l -> is_red_node (addr_of l) t = (Ok (is_red l), t).
Proof.
  destruct l as [|c l1 a k l2]; cbn [addr_of rep is_red].
  - intros _. reflexivity.
  - intros ((Hne & n & Hn & Hc & _) & _). unfold is_red_node.
    rewrite (proj2 (Nat.eqb_neq _ _) Hne). cbn [negb].
    rewrite (bind_ok _ _ _ _ _ (get_ok color _ _ _ Hn)), Hc. by destruct c.
Qed.

Lemma verify_no_red_red_nil fuel : _verify_no_red_red fuel NIL = ret true.
Proof. by destruct fuel. Qed.

Lemma verify_no_red_red_spec tr : forall fuel par t,
  rep (heap t) par tr -> (length (elems tr) <= fuel)%nat ->
  _verify_no_red_red fuel (addr_of tr) t = (Ok (no_red_red_b tr), t).
Proof.
  induction tr as [|c l IHl a k r IHr]; intros fuel par t Hrep Hfuel.
  - cbn [addr_of]. by rewrite verify_no_red_red_nil.
  - cbn [rep] in Hrep.
    destruct Hrep as ((Hne & n & Hn & Hc & Hk & Hp & Hl & Hr) & Hrl & Hrr).
    cbn [elems] in Hfuel. rewrite length_app in Hfuel. cbn [length] in Hfuel.
    destruct fuel as [|fuel]; [lia|].
    cbn [addr_of _verify_no_red_red no_red_red_b].
    rewrite (proj2 (Nat.eqb_neq _ _) Hne).
    rewrite (bind_ok _ _ _ _ _ (get_ok color _ _ _ Hn)), Hc.
    assert (Htail :
      (l0 <- get left a ;;
       lok <- _verify_no_red_red fuel l0 ;;
       if lok : bool then r0 <- get right a ;; _verify_no_red_red fuel r0
       else ret false) t = (Ok (no_red_red_b l && no_red_red_b r), t)).
    { rewrite (bind_ok _ _ _ _ _ (get_ok left _ _ _ Hn)), Hl.
      rewrite (bind_ok _ _ _ _ _ (IHl fuel (Some a) t Hrl ltac:(lia))).
      destruct (no_red_red_b l); cbn [andb]; [|reflexivity].
      rewrite (bind_ok _ _ _ _ _ (get_ok right _ _ _ Hn)), Hr.
      apply (IHr fuel (Some a) t Hrr). lia. }
    destruct (Color_eqb c RED); cbn [andb].
    + rewrite bind_assoc.
      rewrite (bind_ok _ _ _ _ _ (get_ok left _ _ _ Hn)), Hl.
      rewrite bind_assoc.
      rewrite (bind_ok _ _ _ _ _ (is_red_node_spec _ _ _ Hrl)).
      destruct (is_red l); cbn [orb].
      * rewrite bind_ret. reflexivity.
      * rewrite bind_assoc.
        rewrite (bind_ok _ _ _ _ _ (get_ok right _ _ _ Hn)), Hr.
        rewrite (bind_ok _ _ _ _ _ (is_red_node_spec _ _ _ Hrr)).
        destruct (is_red r); [reflexivity|exact Htail].
    + rewrite bind_ret. exact Htail.
Qed.

Lemma get_black_height_nil fuel : _get_black_height fuel NIL = ret 1.
Proof. by destruct fuel. Qed.

Lemma get_black_height_spec tr : forall fuel par t,
  rep (heap t) par tr -> (length (elems tr) <= fuel)%nat ->
  _get_black_height fuel (addr_of tr) t = (Ok (black_height tr), t).
Proof.
  induction tr as [|c l IHl a k r IHr]; intros fuel par t Hrep Hfuel.
  - cbn [addr_of]. by rewrite get_black_height_nil.
  - cbn [rep] in Hrep.
    destruct Hrep as ((Hne & n & Hn & Hc & Hk & Hp & Hl & Hr) & Hrl & Hrr).
    cbn [elems] in Hfuel. rewrite length_app in Hfuel. cbn [length] in Hfuel.
    destruct fuel as [|fuel]; [lia|].
    cbn [addr_of _get_black_height black_height].
    rewrite (proj2 (Nat.eqb_neq _ _) Hne).
    rewrite (bind_ok _ _ _ _ _ (get_ok left _ _ _ Hn)), Hl.
    rewrite (bind_ok _ _ _ _ _ (IHl fuel (Some a) t Hrl ltac:(lia))).
    rewrite (bind_ok _ _ _ _ _ (get_ok right _ _ _ Hn)), Hr.
    rewrite (bind_ok _ _ _ _ _ (IHr fuel (Some a) t Hrr ltac:(lia))).
    destruct ((black_height l =? -1) || (black_height r =? -1)
              || negb (black_height l =? black_height r)); [reflexivity|].
    rewrite (bind_ok _ _ _ _ _ (get_ok color _ _ _ Hn)), Hc.
    by destruct (Color_eqb c BLACK).
Qed.

Lemma verify_rb_properties_spec t tr :
  holds t tr ->
  verify_rb_properties t =
    (Ok (let e1 := if is_red tr then [py "Root is not black"] else [] in
         let e2 := if no_red_red_b tr then e1
                   else e1 ++ [py "Red-Red violation found"] in
         let e3 := if black_height tr =? -1
                   then e2 ++ [py "Black height violation found"] else e2 in
         (match e3 with [] => true | _ => false end, e3)), t).
Proof.
  intros Hz. pose proof (zrep_root _ _ Hz) as Hroot.
  pose proof (holds_bound _ _ Hz) as Hb.
  destruct Hz as (_ & Hrep & _). cbn [ctx_parent] in Hrep.
  unfold verify_rb_properties. unfold bind at 1. cbv beta iota.
  rewrite bind_ret, bind_assoc, bind_get_root, Hroot.
  assert (H1 : forall K : list str -> T (bool * list str),
    bind (if negb (addr_of tr =? NIL)%nat
          then c <- get color (addr_of tr) ;;
               if negb (Color_eqb c BLACK)
               then ret ([] ++ [py "Root is not black"]) else ret []
          else ret []) K t =
    K (if is_red tr then [py "Root is not black"] else []) t).
  { intros K. destruct tr as [|c l a k r]; cbn [addr_of is_red].
    - reflexivity.
    - cbn [rep] in Hrep. destruct Hrep as ((Hne & n & Hn & Hc & _) & _).
      rewrite (proj2 (Nat.eqb_neq _ _) Hne). cbn [negb].
      rewrite bind_assoc.
      rewrite (bind_ok _ _ _ _ _ (get_ok color _ _ _ Hn)), Hc.
      by destruct c. }
  rewrite H1. clear H1.
  rewrite bind_assoc, bind_get_root, Hroot, bind_assoc.
  rewrite (bind_ok _ _ _ _ _
             (verify_no_red_red_spec tr (length (heap t)) None t Hrep
                ltac:(lia))).
  destruct (no_red_red_b tr); cbn [negb]; rewrite bind_ret;
    rewrite bind_assoc, bind_get_root, Hroot;
    rewrite (bind_ok _ _ _ _ _
               (get_black_height_spec tr (length (heap t)) None t Hrep
                  ltac:(lia)));
    destruct (black_height tr =? -1); rewrite bind_ret; reflexivity.
Qed.

(** *** What the three checks decide *)

Lemma is_red_root_black tr : is_red tr = false <-> root_black tr.
Proof.
  destruct tr as [|[] l a k r]; cbn [is_red root_black]; split; try done.
Qed.

Lemma no_red_red_b_spec tr : no_red_red_b tr = true <-> no_red_red tr.
Proof.
  induction tr as [|c l IHl a k r IHr]; cbn [no_red_red_b no_red_red].
  - done.
  - rewrite <- IHl, <- IHr, <- !is_red_root_black.
    destruct c, (is_red l), (is_red r), (no_red_red_b l), (no_red_red_b r);
      cbn [Color_eqb andb orb]; intuition congruence.
Qed.

Lemma path_blacks_nonempty tr : path_blacks tr <> [].
Proof.
  induction tr as [|c l IHl a k r IHr]; cbn [path_blacks]; [done|].
  destruct (path_blacks l); [done|]. done.
Qed.

Lemma black_height_balanced tr n :
  Forall (fun m => m = n) (path_blacks tr) ->
  black_height tr = Z.of_nat n + 1.
Proof.
  revert n. induction tr as [|c l IHl a k r IHr]; intros n;
    cbn [path_blacks black_height].
  - intros H. apply Forall_cons in H as [<- _]. done.
  - intros H. apply Forall_fmap in H. apply Forall_app in H as [Hl Hr].
    destruct (path_blacks l) as [|m pl] eqn:El;
      [by destruct (path_blacks_nonempty l)|].
    pose proof Hl as Hl'. apply Forall_cons in Hl' as [Hm _].
    cbn [compose] in Hm.
    assert (Hl2 : Forall (fun x => x = m) (m :: pl)).
    { eapply Forall_impl; [exact Hl|]. intros x Hx. cbn [compose] in Hx. lia. }
    assert (Hr2 : Forall (fun x => x = m) (path_blacks r)).
    { eapply Forall_impl; [exact Hr|]. intros x Hx. cbn [compose] in Hx. lia. }
    rewrite (IHl _ Hl2), (IHr _ Hr2).
    replace (Z.of_nat m + 1 =? -1) with false by (symmetry; lia).
    rewrite Z.eqb_refl. cbn [orb negb]. subst n.
    destruct c; cbn [Color_eqb blacks]; lia.
Qed.




(** X5. After any history of calls, [verify_rb_properties] returns
    [(True, [])] and leaves the tree unchanged: the code's own checker
    accepts every tree the public methods can build. *)
Theorem verify_accepts_reachable (ops : list op) :
  exists t, run ops __init__ = (Ok tt, t) /\
    verify_rb_properties t = (Ok (true, []), t).
Proof.
  destruct (run_init ops) as (t & tr & E & Hinv & _).
  exists t. split; [exact E|].
  destruct Hinv as (Hz & Hroot & (n & Hrb) & _).
  rewrite (verify_rb_properties_spec _ _ Hz).
  rewrite (proj2 (is_red_root_black tr) Hroot).
  rewrite (proj2 (no_red_red_b_spec tr) (rbh_no_red_red _ _ Hrb)).
  rewrite (black_height_balanced tr n (rbh_path_blacks _ _ Hrb)).
  rewrite (proj2 (Z.eqb_neq (Z.of_nat n + 1) (-1))) by lia.
  reflexivity.
Qed.



(** ** [get_height] *)

Lemma calculate_height_nil fuel : _calculate_height fuel NIL = ret 0.
Proof. by destruct fuel. Qed.

Lemma calculate_height_spec tr : forall fuel par t,
  rep (heap t) par tr -> (length (elems tr) <= fuel)%nat ->
  _calculate_height fuel (addr_of tr) t = (Ok (height tr), t).
Proof.
  induction tr as [|c l IHl a k r IHr]; intros fuel par t Hrep Hfuel.
  - cbn [addr_of]. by rewrite calculate_height_nil.
  - cbn [rep] in Hrep.
    destruct Hrep as ((Hne & n & Hn & Hc & Hk & Hp & Hl & Hr) & Hrl & Hrr).
    cbn [elems] in Hfuel. rewrite length_app in Hfuel. cbn [length] in Hfuel.
    destruct fuel as [|fuel]; [lia|].
    cbn [addr_of _calculate_height height].
    rewrite (proj2 (Nat.eqb_neq _ _) Hne).
    rewrite (bind_ok _ _ _ _ _ (get_ok left _ _ _ Hn)), Hl.
    rewrite (bind_ok _ _ _ _ _ (IHl fuel (Some a) t Hrl ltac:(lia))).
    rewrite (bind_ok _ _ _ _ _ (get_ok right _ _ _ Hn)), Hr.
    rewrite (bind_ok _ _ _ _ _ (IHr fuel (Some a) t Hrr ltac:(lia))).
    reflexivity.
Qed.

Lemma get_height_spec t tr :
  holds t tr -> get_height t = (Ok (height tr), t).
Proof.
  intros Hz.
  assert (Hun : get_height t =
                _calculate_height (length (heap t)) (root t) t)
    by reflexivity.
  rewrite Hun, (zrep_root _ _ Hz).
  pose proof (holds_bound _ _ Hz) as Hb.
  destruct Hz as (_ & Hrep & _).
  apply (calculate_height_spec tr _ None t Hrep). lia.
Qed.

Lemma rbh_height tr : forall n,
  rbh tr n ->
  height tr <= 2 * Z.of_nat n + (if is_red tr then 1 else 0).
Proof.
  induction tr as [|c l IHl a k r IHr]; intros n; cbn [rbh height is_red].
  - intros ->. lia.
  - destruct c.
    + intros (Hbl & Hbr & Hl & Hr).
      specialize (IHl _ Hl). specialize (IHr _ Hr).
      rewrite (proj2 (is_red_root_black l) Hbl) in IHl.
      rewrite (proj2 (is_red_root_black r) Hbr) in IHr. lia.
    + intros (m & -> & Hl & Hr).
      specialize (IHl _ Hl). specialize (IHr _ Hr).
      destruct (is_red l), (is_red r); lia.
Qed.

Lemma rbh_nodes tr : forall n,
  rbh tr n -> 2 ^ Z.of_nat n <= Z.of_nat (length (elems tr)) + 1.
Proof.
  induction tr as [|c l IHl a k r IHr]; intros n; cbn [rbh elems].
  - intros ->. cbn. lia.
  - rewrite length_app. cbn [length]. destruct c.
    + intros (_ & _ & Hl & Hr).
      specialize (IHl _ Hl). specialize (IHr _ Hr). lia.
    + intros (m & -> & Hl & Hr).
      specialize (IHl _ Hl). specialize (IHr _ Hr).
      rewrite Nat2Z.inj_succ, Z.pow_succ_r by lia. lia.
Qed.

(** X7. After any history of calls, [get_height] returns a height of at
    most [2 * log2 (size + 1)], where [size] is the number of domains
    the tree holds, and leaves the tree unchanged. *)
Theorem get_height_logarithmic (ops : list op) :
  exists t h,
    run ops __init__ = (Ok tt, t) /\
    get_height t = (Ok h, t) /\
    0 <= h <= 2 * Z.log2 (size t + 1).
Proof.
  destruct (run_table_init ops) as (t & tr & E & Hinv & Ht & Hsz).
  destruct Hinv as (Hz & Hroot & (n & Hrb) & _).
  exists t, (height tr). split; [exact E|].
  split; [by apply get_height_spec|].
  pose proof (rbh_height _ _ Hrb) as Hh.
  rewrite (proj2 (is_red_root_black tr) Hroot) in Hh.
  pose proof (rbh_nodes _ _ Hrb) as Hn.
  assert (Hlen : size t = Z.of_nat (length (elems tr))).
  { rewrite Hsz, <- Ht. by rewrite entries_length. }
  rewrite Hlen.
  assert (Hlog : Z.of_nat n <= Z.log2 (Z.of_nat (length (elems tr)) + 1)).
  { rewrite <- (Z.log2_pow2 (Z.of_nat n)) at 1 by lia.
    by apply Z.log2_le_mono. }
  split; [|lia].
  clear. induction tr as [|c l IHl a k r IHr]; cbn [height]; lia.
Qed.

(** ** The queries write nothing *)

Lemma ro_ret {A} (a : A) : forall t : RedBlackTree, snd (ret a t) = t.
Proof. done. Qed.

Lemma ro_diverge {A} : forall t : RedBlackTree, snd (diverge (A := A) t) = t.
Proof. done. Qed.

Lemma ro_bind {A B} (m : T A) (k : A -> T B) :
  (forall t, snd (m t) = t) -> (forall a t, snd (k a t) = t) ->
  forall t, snd (bind m k t) = t.
Proof.
  intros Hm Hk t. unfold bind. specialize (Hm t).
  destruct (m t) as [[a| | |] t1]; cbn [snd] in *; subst;
    first [apply Hk | done].
Qed.

Lemma ro_get {A} (f : RBNode -> A) x : forall t, snd (get f x t) = t.
Proof.
  intros t. unfold get, bind, load. by destruct (heap t !! x).
Qed.

Lemma ro_get_root : forall t, snd (get_root t) = t.
Proof. done. Qed.

Ltac ro_step :=
  lazymatch goal with
  | |- forall t, snd (bind _ _ t) = t => apply ro_bind; [|intros ?]
  | |- forall t, snd (ret _ t) = t => apply ro_ret
  | |- forall t, snd (diverge t) = t => apply ro_diverge
  | |- forall t, snd (get _ _ t) = t => apply ro_get
  | |- forall t, snd (get_root t) = t => apply ro_get_root
  | |- forall t, snd ((match ?x with _ => _ end) t) = t => destruct x
  | |- forall t, _ => intros t; reflexivity
  end.

Lemma ro_search_loop fuel d : forall cur t, snd (search_loop fuel d cur t) = t.
Proof.
  induction fuel as [|fuel IH]; intros cur; cbn [search_loop].
  - destruct (cur =? NIL)%nat; [apply ro_ret|apply ro_diverge].
  - repeat first [apply IH | ro_step].
Qed.

Lemma ro_collect_all fuel : forall node acc t,
  snd (_inorder_collect_all fuel node acc t) = t.
Proof.
  induction fuel as [|fuel IH]; intros node acc; cbn [_inorder_collect_all].
  - destruct (node =? NIL)%nat; [apply ro_ret|apply ro_diverge].
  - repeat first [apply IH | ro_step].
Qed.

Lemma ro_collect_blacklisted fuel th : forall node acc t,
  snd (_inorder_collect_blacklisted fuel node th acc t) = t.
Proof.
  induction fuel as [|fuel IH]; intros node acc;
    cbn [_inorder_collect_blacklisted].
  - destruct (node =? NIL)%nat; [apply ro_ret|apply ro_diverge].
  - repeat first [apply IH | ro_step].
Qed.

Lemma ro_calculate_height fuel : forall node t,
  snd (_calculate_height fuel node t) = t.
Proof.
  induction fuel as [|fuel IH]; intros node; cbn [_calculate_height].
  - destruct (node =? NIL)%nat; [apply ro_ret|apply ro_diverge].
  - repeat first [apply IH | ro_step].
Qed.

Lemma ro_is_red_node c : forall t, snd (is_red_node c t) = t.
Proof. unfold is_red_node. repeat ro_step. Qed.

Lemma ro_verify_no_red_red fuel : forall node t,
  snd (_verify_no_red_red fuel node t) = t.
Proof.
  induction fuel as [|fuel IH]; intros node; cbn [_verify_no_red_red].
  - destruct (node =? NIL)%nat; [apply ro_ret|apply ro_diverge].
  - repeat first [apply IH | apply ro_is_red_node | ro_step].
Qed.

Lemma ro_get_black_height fuel : forall node t,
  snd (_get_black_height fuel node t) = t.
Proof.
  induction fuel as [|fuel IH]; intros node; cbn [_get_black_height].
  - destruct (node =? NIL)%nat; [apply ro_ret|apply ro_diverge].
  - repeat first [apply IH | ro_step].
Qed.

(** X19. On every store, well formed or not, and however the call ends,
    [search_domain], [get_all_domains], [get_blacklisted_domains],
    [get_height] and [verify_rb_properties] leave the tree object
    exactly as they found it. *)
Theorem queries_change_nothing (d : str) (threshold : Z) (t : RedBlackTree) :
  snd (search_domain d t) = t /\
  snd (get_all_domains t) = t /\
  snd (get_blacklisted_domains threshold t) = t /\
  snd (get_height t) = t /\
  snd (verify_rb_properties t) = t.
Proof.
  split; [|split; [|split; [|split]]]; revert t.
  - unfold search_domain. repeat first [apply ro_search_loop | ro_step].
  - unfold get_all_domains. repeat first [apply ro_collect_all | ro_step].
  - unfold get_blacklisted_domains.
    repeat first [apply ro_collect_blacklisted | ro_step].
  - unfold get_height. repeat first [apply ro_calculate_height | ro_step].
  - unfold verify_rb_properties.
    repeat first [apply ro_verify_no_red_red | apply ro_get_black_height
                 | ro_step].
Qed.

End rbtree_proofs.

(** ** Proofs about bloom_filter.py *)

Module bloom_proofs.
Import bloom_filter.

(** *** Read-only methods *)

Lemma read_only_ret {A} (a : A) : read_only (ret a).
Proof. by intros bf. Qed.

Lemma read_only_raise {A} e : read_only (raise e : B A).
Proof. by intros bf. Qed.

Lemma read_only_bind {A C} (m : B A) (k : A -> B C) :
  read_only m -> (forall a, read_only (k a)) -> read_only (bind m k).
Proof.
  intros Hm Hk bf. unfold bind. specialize (Hm bf).
  destruct (m bf) as [[a| | |] bf']; cbn [snd] in *; subst; try done.
  apply Hk.
Qed.

Lemma read_only_py_mod x m : read_only (py_mod x m).
Proof. unfold py_mod. destruct (m =? 0); [apply read_only_raise | apply read_only_ret]. Qed.

Lemma read_only_get_size : read_only get_size.
Proof. by intros bf. Qed.

Lemma read_only_get_bit idx : read_only (get_bit idx).
Proof.
  intros bf. unfold get_bit.
  destruct (py_index _ idx); [|done]. by destruct (bit_array bf !! n).
Qed.

Lemma read_only_hash f key seed : read_only (hash_function f key seed).
Proof.
  unfold hash_function.
  repeat case_match; unfold _murmur_hash, _fnv_hash, _djb2_hash, _sdbm_hash;
    repeat case_match;
    auto using read_only_raise, read_only_bind, read_only_get_size,
      read_only_py_mod.
Qed.

Section with_lower.
Variable lower : str -> str.

Lemma read_only_hash_loop key js : forall acc, read_only (hash_loop key js acc).
Proof.
  induction js as [|i js IH]; intros acc; cbn [hash_loop].
  - apply read_only_ret.
  - apply read_only_bind; [apply read_only_hash | auto].
Qed.

Lemma read_only_get_hash_values s : read_only (_get_hash_values lower s).
Proof.
  unfold _get_hash_values. apply read_only_bind; [by intros bf|].
  intros k. apply read_only_hash_loop.
Qed.

Lemma read_only_all_set indices : read_only (all_set indices).
Proof.
  induction indices as [|idx rest IH]; cbn [all_set].
  - apply read_only_ret.
  - apply read_only_bind; [apply read_only_get_bit|].
    intros []; cbn [negb]; [done | apply read_only_ret].
Qed.

Lemma read_only_contains item : read_only (contains lower item).
Proof.
  unfold contains. destruct (rejected item); [apply read_only_ret|].
  destruct item; try apply read_only_ret.
  apply read_only_bind; [apply read_only_get_hash_values|].
  intros indices. apply read_only_all_set.
Qed.

End with_lower.

Lemma read_only_eq {A} (m : B A) bf : read_only m -> m bf = (fst (m bf), bf).
Proof. intros H. specialize (H bf). destruct (m bf). cbn in *. by subst. Qed.

(** *** Indices depend on the configuration only *)

Lemma hash_config f key seed bf bf' :
  size bf' = size bf ->
  fst (hash_function f key seed bf') = fst (hash_function f key seed bf).
Proof.
  intros Hs. unfold hash_function.
  repeat case_match; unfold _murmur_hash, _fnv_hash, _djb2_hash, _sdbm_hash;
    repeat case_match; try done;
    unfold bind, get_size; rewrite Hs;
    rewrite (read_only_eq _ bf (read_only_py_mod _ _)),
            (read_only_eq _ bf' (read_only_py_mod _ _));
    unfold py_mod; by case_match.
Qed.

Section with_lower.
Variable lower : str -> str.

Lemma hash_loop_config key js bf bf' : forall acc,
  size bf' = size bf ->
  fst (hash_loop key js acc bf') = fst (hash_loop key js acc bf).
Proof.
  induction js as [|i js IH]; intros acc Hs; cbn [hash_loop]; [done|].
  unfold bind.
  rewrite (read_only_eq _ bf (read_only_hash _ _ _)),
          (read_only_eq _ bf' (read_only_hash _ _ _)).
  rewrite (hash_config _ _ _ bf bf' Hs).
  destruct (fst (hash_function _ _ _ bf)); try done. by apply IH.
Qed.

Lemma get_hash_values_config s bf bf' :
  size bf' = size bf -> num_hashes bf' = num_hashes bf ->
  fst (_get_hash_values lower s bf') = fst (_get_hash_values lower s bf).
Proof.
  intros Hs Hk. unfold _get_hash_values, bind, get_num_hashes.
  rewrite Hk. by apply hash_loop_config.
Qed.

(** *** Bits only ever get set *)

Lemma grows_refl bf : grows bf bf.
Proof. by repeat split. Qed.

Lemma grows_trans bf1 bf2 bf3 : grows bf1 bf2 -> grows bf2 bf3 -> grows bf1 bf3.
Proof.
  intros (? & ? & ? & ? & ? & H12) (? & ? & ? & ? & ? & H23).
  repeat split; try congruence. auto.
Qed.

Lemma py_index_lt len idx i : py_index len idx = Some i -> (i < len)%nat.
Proof.
  unfold py_index. case_match; [|done]. intros [= <-].
  repeat case_match; lia.
Qed.

Lemma set_bit_spec idx bf :
  match py_index (length (bit_array bf)) idx with
  | Some i =>
      set_bit idx bf =
        (Ok tt, mkBloom (expected_items bf) (false_positive_rate bf) (size bf)
                        (num_hashes bf) (<[i := true]> (bit_array bf))
                        (items_added bf))
  | None => set_bit idx bf = (Raise IndexError, bf)
  end.
Proof. unfold set_bit. by destruct (py_index _ idx). Qed.

Lemma set_bit_grows idx bf : grows bf (snd (set_bit idx bf)).
Proof.
  pose proof (set_bit_spec idx bf) as H.
  destruct (py_index _ idx) as [i|]; rewrite H; cbn [snd];
    [|apply grows_refl].
  repeat split; cbn; [by rewrite length_insert|].
  intros j Hj. destruct (decide (i = j)) as [->|Hne].
  - apply list_lookup_insert_eq. by eapply lookup_lt_Some.
  - by rewrite list_lookup_insert_ne.
Qed.

Lemma for_each_set_grows indices : forall bf,
  grows bf (snd (for_each indices set_bit bf)).
Proof.
  induction indices as [|idx rest IH]; intros bf; cbn [for_each].
  - apply grows_refl.
  - unfold bind. pose proof (set_bit_grows idx bf) as Hg.
    destruct (set_bit idx bf) as [[[]| | |] bf']; cbn [snd] in *; try done.
    eapply grows_trans; [exact Hg | apply IH].
Qed.

Lemma covers_grows bf bf' indices :
  grows bf bf' -> covers bf indices -> covers bf' indices.
Proof.
  intros (_ & _ & _ & _ & Hlen & Hbits) Hc. unfold covers in *. rewrite Hlen.
  eapply Forall_impl; [exact Hc|]. intros idx (i & Hi & Hb). eauto.
Qed.

Lemma for_each_set_covers indices : forall bf bf1,
  for_each indices set_bit bf = (Ok tt, bf1) -> covers bf1 indices.
Proof.
  induction indices as [|idx rest IH]; intros bf bf1; cbn [for_each].
  - intros _. constructor.
  - unfold bind. pose proof (set_bit_spec idx bf) as Hs.
    destruct (py_index _ idx) as [i|] eqn:Hi; rewrite Hs; [|done].
    intros Hrest.
    match type of Hrest with
    | for_each _ _ ?b = _ => pose proof (for_each_set_grows rest b) as Hg
    end.
    rewrite Hrest in Hg. cbn [snd] in Hg.
    constructor; [|by eapply IH].
    destruct Hg as (_ & _ & _ & _ & Hlen & Hbits). cbn in Hlen, Hbits.
    exists i. rewrite Hlen, length_insert. split; [done|].
    apply Hbits, list_lookup_insert_eq. by eapply py_index_lt.
Qed.

Lemma add_grows item bf : grows bf (snd (add lower item bf)).
Proof.
  unfold add. destruct (rejected item); [apply grows_refl|].
  destruct item; try apply grows_refl.
  unfold bind.
  rewrite (read_only_eq _ bf (read_only_get_hash_values lower s)).
  destruct (fst (_get_hash_values lower s bf)) as [indices| | |];
    try apply grows_refl.
  pose proof (for_each_set_grows indices bf) as Hg.
  destruct (for_each indices set_bit bf) as [[[]| | |] bf']; cbn [snd] in *;
    try done.
Qed.

Lemma add_all_grows items : forall bf, grows bf (add_all lower items bf).
Proof.
  induction items as [|item items IH]; intros bf; cbn [add_all].
  - apply grows_refl.
  - eapply grows_trans; [apply add_grows | apply IH].
Qed.

Lemma add_ok_covers s bf bf1 :
  rejected (PyStr s) = false ->
  add lower (PyStr s) bf = (Ok tt, bf1) ->
  exists indices,
    _get_hash_values lower s bf = (Ok indices, bf) /\ covers bf1 indices.
Proof.
  intros Hrej. unfold add. rewrite Hrej. unfold bind.
  rewrite (read_only_eq _ bf (read_only_get_hash_values lower s)).
  destruct (fst (_get_hash_values lower s bf)) as [indices| | |]; try done.
  destruct (for_each indices set_bit bf) as [[[]| | |] bf'] eqn:Hfe; try done.
  intros [= <-]. exists indices. split; [done|].
  apply for_each_set_covers in Hfe.
  eapply covers_grows; [|exact Hfe]. by repeat split.
Qed.

Lemma all_set_covers indices bf :
  covers bf indices -> all_set indices bf = (Ok true, bf).
Proof.
  induction 1 as [|idx rest (i & Hi & Hb) _ IH]; cbn [all_set]; [done|].
  unfold bind, get_bit. by rewrite Hi, Hb.
Qed.

End with_lower.

(** C2, as amended. For every string that is not blank (not empty once
    trimmed) and every filter state in which [add] of it returns, after
    any further sequence of [add] calls, whatever each of them does,
    [contains] of the same string returns [True]. *)
Theorem C2_no_false_negatives (lower : str -> str) (bf bf1 : BloomFilter)
    (s : str) (items : list pyobj) :
  rejected (PyStr s) = false ->
  add lower (PyStr s) bf = (Ok tt, bf1) ->
  contains lower (PyStr s) (add_all lower items bf1) =
    (Ok true, add_all lower items bf1).
Proof.
  intros Hrej Hadd.
  destruct (add_ok_covers lower s bf bf1 Hrej Hadd) as (indices & Hh & Hc).
  pose proof (add_grows lower (PyStr s) bf) as Hg1. rewrite Hadd in Hg1.
  cbn [snd] in Hg1.
  pose proof (add_all_grows lower items bf1) as Hg2.
  pose proof (grows_trans _ _ _ Hg1 Hg2) as Hg.
  unfold contains. rewrite Hrej. unfold bind.
  rewrite (read_only_eq _ _ (read_only_get_hash_values lower s)).
  destruct Hg as (_ & _ & Hsz & Hk & _).
  rewrite (get_hash_values_config lower s bf _ Hsz Hk), Hh. cbn [fst].
  apply all_set_covers. by eapply covers_grows.
Qed.

Lemma C2_witness :
  rejected (PyStr (py "viagra")) = false /\
  add ascii_lower (PyStr (py "viagra")) demo_filter =
    (Ok tt, snd (add ascii_lower (PyStr (py "viagra")) demo_filter)) /\
  contains ascii_lower (PyStr (py "viagra"))
    (add_all ascii_lower [PyStr (py "casino"); PyNone]
       (snd (add ascii_lower (PyStr (py "viagra")) demo_filter))) =
    (Ok true,
     add_all ascii_lower [PyStr (py "casino"); PyNone]
       (snd (add ascii_lower (PyStr (py "viagra")) demo_filter))).
Proof.
  assert (H1 : rejected (PyStr (py "viagra")) = false) by reflexivity.
  assert (H2 : add ascii_lower (PyStr (py "viagra")) demo_filter =
               (Ok tt, snd (add ascii_lower (PyStr (py "viagra")) demo_filter)))
    by (vm_compute; reflexivity).
  split; [exact H1|]. split; [exact H2|].
  exact (C2_no_false_negatives ascii_lower demo_filter _ (py "viagra")
           [PyStr (py "casino"); PyNone] H1 H2).
Defined.

(** C2 as stated fails: a single space is a non-empty string, [add] of
    it returns, and [contains] of it is [False]. *)
Lemma C2_counterexample :
  py " " <> [] /\
  add ascii_lower (PyStr (py " ")) demo_filter = (Ok tt, demo_filter) /\
  contains ascii_lower (PyStr (py " ")) demo_filter = (Ok false, demo_filter).
Proof. split; [discriminate|]. split; reflexivity. Qed.

(** C8. For every filter state and every input that is not a string or
    is empty once lowered and trimmed, [add] returns having changed
    nothing (no bit, no counter) and [contains] returns [False] having
    changed nothing; neither raises.  [lower] is any function that, like
    [str.lower], maps no non-blank string to a blank one. *)
Theorem C8_rejected_inputs (lower : str -> str) (bf : BloomFilter)
    (item : pyobj) :
  (forall s, strip (lower s) = [] -> strip s = []) ->
  normalizes_to_nothing lower item ->
  add lower item bf = (Ok tt, bf) /\
  contains lower item bf = (Ok false, bf).
Proof.
  intros Hlower Hn.
  assert (Hrej : rejected item = true).
  { destruct item; try done. cbn in *. by rewrite (Hlower _ Hn). }
  unfold add, contains. by rewrite Hrej.
Qed.

Lemma isspace_ascii_lower c :
  isspace (if (65 <=? c) && (c <=? 90) then c + 32 else c) = isspace c.
Proof.
  destruct ((65 <=? c) && (c <=? 90)) eqn:H; [|done].
  apply andb_true_iff in H as [H1 H2].
  apply Z.leb_le in H1, H2. unfold isspace.
  repeat match goal with
         | |- context [?a <=? ?b] => destruct (Z.leb_spec a b); try lia
         | |- context [?a =? ?b] => destruct (Z.eqb_spec a b); try lia
         end; reflexivity.
Qed.

Lemma lstrip_ascii_lower s : lstrip (ascii_lower s) = ascii_lower (lstrip s).
Proof.
  induction s as [|c s IH]; [done|].
  cbn [ascii_lower map lstrip]. rewrite isspace_ascii_lower.
  by destruct (isspace c).
Qed.

Lemma strip_ascii_lower s : strip (ascii_lower s) = ascii_lower (strip s).
Proof.
  unfold strip. rewrite lstrip_ascii_lower.
  unfold ascii_lower at 1. rewrite <- map_rev. fold (ascii_lower (rev (lstrip s))).
  rewrite lstrip_ascii_lower. unfold ascii_lower. by rewrite map_rev.
Qed.

Lemma ascii_lower_keeps_blank s : strip (ascii_lower s) = [] -> strip s = [].
Proof.
  rewrite strip_ascii_lower. unfold ascii_lower. by destruct (strip s).
Qed.

Lemma C8_witness :
  normalizes_to_nothing ascii_lower (PyStr (py "  ")) /\
  add ascii_lower (PyStr (py "  ")) demo_filter = (Ok tt, demo_filter) /\
  contains ascii_lower (PyStr (py "  ")) demo_filter = (Ok false, demo_filter).
Proof.
  assert (H : normalizes_to_nothing ascii_lower (PyStr (py "  ")))
    by reflexivity.
  split; [exact H|].
  exact (C8_rejected_inputs ascii_lower demo_filter (PyStr (py "  "))
           ascii_lower_keeps_blank H).
Defined.

(** C10. For every filter state and every input, a string or not, added
    or not, [contains] leaves the filter as it was ([bit_array],
    [items_added], [size], [num_hashes] and the rest), whether it returns
    or raises. *)
Theorem C10_contains_changes_nothing (lower : str -> str) (bf : BloomFilter)
    (item : pyobj) :
  snd (contains lower item bf) = bf.
Proof. apply read_only_contains. Qed.

(** *** [clear] *)

Lemma do_call_config lower c bf :
  let bf' := snd (do_call lower c bf) in
  expected_items bf' = expected_items bf /\
  false_positive_rate bf' = false_positive_rate bf /\
  size bf' = size bf /\ num_hashes bf' = num_hashes bf.
Proof.
  destruct c as [item|item|]; cbn [do_call].
  - pose proof (add_grows lower item bf) as (? & ? & ? & ? & _).
    by destruct (add lower item bf).
  - pose proof (read_only_contains lower item bf) as H.
    destruct (contains lower item bf). cbn in *. by subst.
  - done.
Qed.

Lemma do_calls_config lower cs : forall bf,
  let bf' := snd (do_calls lower cs bf) in
  expected_items bf' = expected_items bf /\
  false_positive_rate bf' = false_positive_rate bf /\
  size bf' = size bf /\ num_hashes bf' = num_hashes bf.
Proof.
  induction cs as [|c cs IH]; intros bf; cbn [do_calls]; [done|].
  pose proof (do_call_config lower c bf) as Hc.
  destruct (do_call lower c bf) as [a bf1]. cbn [snd] in Hc.
  specialize (IH bf1). destruct (do_calls lower cs bf1) as [answers bf2].
  cbn [snd] in *. destruct_and!. repeat split; congruence.
Qed.

(** C9. For every filter state reached from a freshly constructed
    filter by any calls, [clear] resets all bits and the counter: the
    filter is again the freshly constructed one.  Hence every later
    sequence of calls gives the answers and the filter it gives on a
    fresh instance of the same configuration. *)
Theorem C9_clear_restores_fresh (lower : str -> str) (n : Z) (p : R)
    (m k : Z) (cs cs' : list call) :
  let bf := snd (do_calls lower cs (fresh n p m k)) in
  clear bf = (Ok tt, fresh n p m k) /\
  do_calls lower cs' (snd (clear bf)) = do_calls lower cs' (fresh n p m k).
Proof.
  intros bf.
  assert (H : clear bf = (Ok tt, fresh n p m k)).
  { pose proof (do_calls_config lower cs (fresh n p m k)) as (H1 & H2 & H3 & H4).
    fold bf in H1, H2, H3, H4. unfold clear, fresh. cbn in *.
    by rewrite H1, H2, H3, H4. }
  split; [exact H|]. by rewrite H.
Qed.

(** *** Construction *)

Open Scope R_scope.

Lemma ln_2_pos : 0 < ln 2.
Proof. rewrite <- ln_1. apply ln_increasing; lra. Qed.

Lemma math_log_2 : math_log 2 = Ok (ln 2).
Proof. unfold math_log. destruct (Rle_dec 2 0); [lra|done]. Qed.

Lemma truediv_ln2 x : py_truediv x (ln 2 ^ 2) = Ok (x / ln 2 ^ 2).
Proof.
  unfold py_truediv. destruct (Req_dec_T (ln 2 ^ 2) 0) as [H|]; [|done].
  pose proof ln_2_pos. apply pow_nonzero in H; [done|lra].
Qed.

Lemma math_ceil_0 : math_ceil 0 = 0%Z.
Proof.
  unfold math_ceil, Int_part. rewrite Ropp_0.
  rewrite <- (tech_up 0 1); [done| simpl; lra | simpl; lra].
Qed.

(** C5, as amended. Construction fails (raises, and no filter object
    results) whenever [expected_item_count] is 0 or
    [target_false_positive_rate] is not positive. *)
Theorem C5_construction_rejects (n : Z) (p : R) :
  n = 0%Z \/ p <= 0 ->
  exists e, __init__ n p = Raise e.
Proof.
  intros H. unfold __init__, _calculate_optimal_size.
  unfold math_log at 1. destruct (Rle_dec p 0) as [Hp|Hp].
  { by exists ValueError. }
  destruct H as [->|H]; [|lra].
  cbn [obind]. rewrite math_log_2. cbn [obind]. rewrite truediv_ln2.
  cbn [obind]. unfold _calculate_optimal_hash_count, py_truediv.
  destruct (Req_dec_T (IZR 0) 0) as [_|Hne]; [|done].
  by exists ZeroDivisionError.
Qed.

Lemma C5_witness :
  (0%Z = 0%Z \/ 1 / 2 <= 0) /\ exists e, __init__ 0 (1 / 2) = Raise e.
Proof.
  assert (H : 0%Z = 0%Z \/ 1 / 2 <= 0) by (left; reflexivity).
  split; [exact H|]. exact (C5_construction_rejects 0 (1 / 2) H).
Defined.

(** C5 as stated fails: a target rate of 1 lies outside (0,1), yet
    construction returns a filter (of no bits and no hash function). *)
Lemma C5_counterexample :
  ~ (0 < 1 < 1) /\ __init__ 1 1 = Ok (fresh 1 1 0 0).
Proof.
  split; [lra|].
  unfold __init__, _calculate_optimal_size.
  unfold math_log at 1. destruct (Rle_dec 1 0) as [Hp|Hp]; [lra|].
  cbn [obind]. rewrite math_log_2. cbn [obind]. rewrite truediv_ln2.
  cbn [obind]. rewrite ln_1.
  replace (- (1 * 0) / ln 2 ^ 2) with 0 by (unfold Rdiv; ring).
  rewrite math_ceil_0.
  unfold _calculate_optimal_hash_count, py_truediv.
  destruct (Req_dec_T 1 0) as [H|_]; [lra|].
  cbn [obind]. rewrite math_log_2. cbn [obind].
  replace (0 / 1 * ln 2) with 0 by (unfold Rdiv; ring).
  by rewrite math_ceil_0.
Qed.

Close Scope R_scope.

(** ** [__init__] in double precision *)

(** C7, amended. Whenever construction returns a filter, its two sizes
    are the ceilings of the sizing formulas evaluated in double
    precision: with [lp] and [l2] the doubles [math.log] returns for the
    rate and for 2, the bit-array length is the ceiling of the double
    [-(n * lp) / (l2 * l2)] and the hash count is the ceiling of the
    double [(m / n) * l2], every operation rounded to the nearest double
    and both results finite; the filter holds exactly that many bits,
    all cleared, and has counted no item. *)
Theorem C7_sizes_in_double_precision (log : float -> float) (n : Z)
    (p : float) (bf : BloomFilter) :
  bloom_filter_ieee.__init__ log n p = Ok bf ->
  exists lp l2 : float,
    bloom_filter_ieee.math_log log p = Ok lp /\
    bloom_filter_ieee.math_log log 2 = Ok l2 /\
    let M := (- (bloom_filter_ieee.float_of_int n * lp) / (l2 * l2))%float in
    let K := (bloom_filter_ieee.int_quotient (size bf) n * l2)%float in
    is_finite M = true /\ is_finite K = true /\
    size bf = bloom_filter_ieee.ceiling M /\
    num_hashes bf = bloom_filter_ieee.ceiling K /\
    bit_array bf = replicate (Z.to_nat (size bf)) false /\
    items_added bf = 0 /\ expected_items bf = n.
Proof.
  unfold bloom_filter_ieee.__init__, bloom_filter_ieee._calculate_optimal_size,
    bloom_filter_ieee._calculate_optimal_hash_count.
  destruct (bloom_filter_ieee.math_log log p) as [lp| | |] eqn:Elp;
    cbn [obind]; try discriminate.
  unfold bloom_filter_ieee.int_to_float.
  destruct (is_infinity (bloom_filter_ieee.float_of_int n));
    cbn [obind]; try discriminate.
  destruct (bloom_filter_ieee.math_log log 2) as [l2| | |] eqn:El2;
    cbn [obind]; try discriminate.
  unfold bloom_filter_ieee.float_pow_2.
  destruct (is_infinity (l2 * l2) && negb (is_infinity l2));
    cbn [obind]; try discriminate.
  unfold bloom_filter_ieee.float_truediv.
  destruct (l2 * l2 =? 0)%float; cbn [obind]; try discriminate.
  unfold bloom_filter_ieee.math_ceil at 1.
  destruct (is_nan (- (bloom_filter_ieee.float_of_int n * lp) / (l2 * l2)))
    eqn:EnM; cbn [obind]; try discriminate.
  destruct (is_infinity (- (bloom_filter_ieee.float_of_int n * lp) / (l2 * l2)))
    eqn:EiM; cbn [obind]; try discriminate.
  unfold bloom_filter_ieee.int_truediv.
  destruct (n =? 0); cbn [obind]; try discriminate.
  destruct (is_infinity (bloom_filter_ieee.int_quotient _ n));
    cbn [obind]; try discriminate.
  unfold bloom_filter_ieee.math_ceil.
  match goal with |- context [is_nan ?k] => destruct (is_nan k) eqn:EnK end;
    try discriminate.
  match goal with |- context [is_infinity ?k] =>
    destruct (is_infinity k) eqn:EiK end; try discriminate.
  intros [= <-]. exists lp, l2. cbn [size num_hashes bit_array items_added
    expected_items fresh].
  unfold is_finite. rewrite EnM, EiM, EnK, EiK. done.
Qed.

Lemma ieee_size_example :
  bloom_filter_ieee._calculate_optimal_size bloom_filter_ieee.log_at
    12295127 0.0625 = Ok 70952475.
Proof. vm_compute. reflexivity. Qed.

Lemma ieee_hashes_example :
  bloom_filter_ieee._calculate_optimal_hash_count bloom_filter_ieee.log_at
    70952475 12295127 = Ok 4.
Proof. vm_compute. reflexivity. Qed.

Lemma ieee_init_example :
  bloom_filter_ieee.__init__ bloom_filter_ieee.log_at 12295127 0.0625 =
    Ok (fresh 12295127 (bloom_filter_ieee.float_val 0.0625) 70952475 4).
Proof.
  unfold bloom_filter_ieee.__init__. rewrite ieee_size_example. cbn [obind].
  rewrite ieee_hashes_example. reflexivity.
Qed.

Lemma ieee_init_overflow :
  bloom_filter_ieee.__init__ bloom_filter_ieee.log_at (10 ^ 400) 0.0625 =
    Raise OverflowError.
Proof.
  unfold bloom_filter_ieee.__init__.
  assert (H : bloom_filter_ieee._calculate_optimal_size
                bloom_filter_ieee.log_at (10 ^ 400) 0.0625 =
              Raise OverflowError) by (vm_compute; reflexivity).
  rewrite H. reflexivity.
Qed.

Lemma C7_witness :
  exists lp l2 : float,
    bloom_filter_ieee.math_log bloom_filter_ieee.log_at 0.0625 = Ok lp /\
    bloom_filter_ieee.math_log bloom_filter_ieee.log_at 2 = Ok l2 /\
    let M := (- (bloom_filter_ieee.float_of_int 12295127 * lp) / (l2 * l2))%float in
    let K := (bloom_filter_ieee.int_quotient 70952475 12295127 * l2)%float in
    is_finite M = true /\ is_finite K = true /\
    70952475 = bloom_filter_ieee.ceiling M /\
    4 = bloom_filter_ieee.ceiling K /\
    replicate (Z.to_nat 70952475) false = replicate (Z.to_nat 70952475) false /\
    0 = 0 /\ 12295127 = 12295127.
Proof.
  exact (C7_sizes_in_double_precision bloom_filter_ieee.log_at 12295127 0.0625
           (fresh 12295127 (bloom_filter_ieee.float_val 0.0625) 70952475 4)
           ieee_init_example).
Defined.

(** *** The exact values of the formulas at the same configuration *)

Open Scope R_scope.

Lemma exp_term_series x i :
  / INR (fact i) * x ^ i = bloom_filter_ieee.exp_term x i.
Proof.
  induction i as [|i IH]; cbn [bloom_filter_ieee.exp_term].
  - simpl. lra.
  - rewrite <- IH, fact_simpl, mult_INR. cbn [pow].
    field. split; [apply INR_fact_neq_0|apply not_0_INR; discriminate].
Qed.

Lemma exp_sum_series x k :
  sum_f_R0 (fun i => / INR (fact i) * x ^ i) k = bloom_filter_ieee.exp_sum x k.
Proof.
  induction k as [|k IH]; cbn [sum_f_R0 bloom_filter_ieee.exp_sum].
  - apply exp_term_series.
  - rewrite IH. f_equal. apply exp_term_series.
Qed.

Lemma exp_term_nonneg x i : 0 <= x -> 0 <= bloom_filter_ieee.exp_term x i.
Proof.
  intros Hx. induction i as [|i IH]; cbn [bloom_filter_ieee.exp_term]; [lra|].
  apply Rmult_le_pos; [apply Rmult_le_pos; assumption|].
  apply Rlt_le, Rinv_0_lt_compat, lt_0_INR. lia.
Qed.

Lemma exp_term_halves x i :
  0 <= x <= 1 ->
  2 * bloom_filter_ieee.exp_term x (S (S i)) <=
  bloom_filter_ieee.exp_term x (S i).
Proof.
  intros Hx. pose proof (exp_term_nonneg x (S i) (proj1 Hx)) as Ht.
  change (bloom_filter_ieee.exp_term x (S (S i)))
    with (bloom_filter_ieee.exp_term x (S i) * x / INR (S (S i))).
  assert (Hi : 2 <= INR (S (S i))).
  { rewrite !S_INR. pose proof (pos_INR i). lra. }
  assert (Hp : 0 < INR (S (S i))) by lra.
  apply Rmult_le_reg_r with (INR (S (S i))); [exact Hp|].
  replace (2 * (bloom_filter_ieee.exp_term x (S i) * x / INR (S (S i)))
             * INR (S (S i)))
    with (2 * x * bloom_filter_ieee.exp_term x (S i)) by (field; lra).
  nra.
Qed.

Lemma exp_sum_tail x k n :
  0 <= x <= 1 ->
  bloom_filter_ieee.exp_sum x (k + n) +
    2 * bloom_filter_ieee.exp_term x (S (k + n)) <=
  bloom_filter_ieee.exp_sum x k + 2 * bloom_filter_ieee.exp_term x (S k).
Proof.
  intros Hx. induction n as [|n IH].
  - rewrite Nat.add_0_r. lra.
  - rewrite Nat.add_succ_r. cbn [bloom_filter_ieee.exp_sum].
    pose proof (exp_term_halves x (k + n) Hx). lra.
Qed.

Lemma exp_sum_grows x k n :
  0 <= x ->
  bloom_filter_ieee.exp_sum x k <= bloom_filter_ieee.exp_sum x (k + n).
Proof.
  intros Hx. induction n as [|n IH].
  - rewrite Nat.add_0_r. lra.
  - rewrite Nat.add_succ_r. cbn [bloom_filter_ieee.exp_sum].
    pose proof (exp_term_nonneg x (S (k + n)) Hx). lra.
Qed.

(** The exponential lies between a partial sum of its series and that
    sum plus twice the next term. *)
Lemma exp_upper x k :
  0 <= x <= 1 ->
  exp x <= bloom_filter_ieee.exp_sum x k +
           2 * bloom_filter_ieee.exp_term x (S k).
Proof.
  intros Hx.
  destruct (Rle_or_lt (exp x) (bloom_filter_ieee.exp_sum x k +
                               2 * bloom_filter_ieee.exp_term x (S k)))
    as [H|H]; [exact H|]. exfalso.
  pose proof (proj2_sig (exist_exp x)) as Hcv. fold (exp x) in Hcv.
  unfold exp_in, infinite_sum in Hcv.
  destruct (Hcv (exp x - (bloom_filter_ieee.exp_sum x k +
                          2 * bloom_filter_ieee.exp_term x (S k))))
    as (N & HN); [lra|].
  specialize (HN (k + N)%nat ltac:(lia)).
  rewrite exp_sum_series in HN.
  pose proof (exp_sum_tail x k N Hx) as Ht.
  pose proof (exp_term_nonneg x (S (k + N)) (proj1 Hx)) as Hp.
  unfold Rdist in HN. apply Rabs_def2 in HN. lra.
Qed.

Lemma exp_lower x k : 0 <= x -> bloom_filter_ieee.exp_sum x k <= exp x.
Proof.
  intros Hx.
  destruct (Rle_or_lt (bloom_filter_ieee.exp_sum x k) (exp x))
    as [H|H]; [exact H|]. exfalso.
  pose proof (proj2_sig (exist_exp x)) as Hcv. fold (exp x) in Hcv.
  unfold exp_in, infinite_sum in Hcv.
  destruct (Hcv (bloom_filter_ieee.exp_sum x k - exp x)) as (N & HN); [lra|].
  specialize (HN (k + N)%nat ltac:(lia)).
  rewrite exp_sum_series in HN.
  pose proof (exp_sum_grows x k N Hx) as Ht.
  unfold Rdist in HN. apply Rabs_def2 in HN. lra.
Qed.

Lemma ln_2_above : 49180508 / 70952475 < ln 2.
Proof.
  apply exp_lt_inv. rewrite exp_ln by lra.
  eapply Rle_lt_trans; [apply (exp_upper _ 17); lra|].
  cbn [bloom_filter_ieee.exp_sum bloom_filter_ieee.exp_term INR]. lra.
Qed.

Lemma ln_2_below : ln 2 < 49180508 / 70952474.
Proof.
  apply exp_lt_inv. rewrite exp_ln by lra.
  eapply Rlt_le_trans; [|apply (exp_lower _ 12); lra].
  cbn [bloom_filter_ieee.exp_sum bloom_filter_ieee.exp_term INR]. lra.
Qed.

Lemma math_ceil_eq x c : IZR c - 1 < x <= IZR c -> math_ceil x = c.
Proof.
  intros Hx. unfold math_ceil, Int_part.
  rewrite <- (tech_up (- x) (- c + 1)); [lia| |];
    rewrite plus_IZR, opp_IZR; lra.
Qed.

Lemma ln_sixteenth : ln (/ 16) = - (4 * ln 2).
Proof.
  rewrite ln_Rinv by lra. replace 16 with (2 ^ 4) by lra.
  rewrite ln_pow by lra. simpl INR. lra.
Qed.

Lemma exact_size_example :
  _calculate_optimal_size 12295127 (/ 16) = Ok 70952475%Z.
Proof.
  unfold _calculate_optimal_size. unfold math_log at 1.
  destruct (Rle_dec (/ 16) 0) as [Hp|Hp]; [lra|].
  cbn [obind]. rewrite math_log_2. cbn [obind]. rewrite truediv_ln2.
  cbn [obind]. f_equal. apply math_ceil_eq. rewrite ln_sixteenth.
  pose proof ln_2_above as Ha. pose proof ln_2_below as Hb.
  assert (Hl : 0 < ln 2) by lra.
  replace (- (12295127 * - (4 * ln 2)) / ln 2 ^ 2) with (49180508 / ln 2)
    by (field; lra).
  split.
  - apply Rmult_lt_reg_r with (ln 2); [exact Hl|].
    replace (49180508 / ln 2 * ln 2) with 49180508 by (field; lra). lra.
  - apply Rmult_le_reg_r with (ln 2); [exact Hl|].
    replace (49180508 / ln 2 * ln 2) with 49180508 by (field; lra). lra.
Qed.

Lemma exact_hashes_example :
  _calculate_optimal_hash_count 70952475 12295127 = Ok 5%Z.
Proof.
  unfold _calculate_optimal_hash_count, py_truediv.
  destruct (Req_dec_T 12295127 0) as [H|_]; [lra|].
  cbn [obind]. rewrite math_log_2. cbn [obind]. f_equal.
  apply math_ceil_eq.
  pose proof ln_2_above as Ha. pose proof ln_2_below as Hb. lra.
Qed.

Lemma exact_init_example :
  __init__ 12295127 (/ 16) = Ok (fresh 12295127 (/ 16) 70952475 5).
Proof.
  unfold __init__. rewrite exact_size_example. cbn [obind].
  by rewrite exact_hashes_example.
Qed.

Lemma float_val_example : bloom_filter_ieee.float_val 0.0625 = / 16.
Proof.
  unfold bloom_filter_ieee.float_val.
  replace (Prim2SF 0.0625) with (S754_finite false 4503599627370496 (-56))
    by (vm_compute; reflexivity).
  cbn [Z.leb Z.compare Z.opp].
  replace (2 ^ (- (-56)))%Z with 72057594037927936%Z
    by (vm_compute; reflexivity).
  lra.
Qed.

(** C7 as stated fails. At the valid configuration n = 12295127,
    p = 0.0625 the formulas, evaluated exactly, give m = 70952475 and
    k = 5, since (m/n) ln 2 lies just above 4; the code computes in
    doubles, (m/n) * log 2 rounds to 4.0, and the filter gets 4 hash
    functions.  At n = 10^400, p = 0.0625 the code raises
    OverflowError, n having no double. *)
Lemma C7_counterexample :
  bloom_filter_ieee.__init__ bloom_filter_ieee.log_at 12295127 0.0625 =
    Ok (fresh 12295127 (bloom_filter_ieee.float_val 0.0625) 70952475 4) /\
  bloom_filter_ieee.float_val 0.0625 = / 16 /\
  __init__ 12295127 (/ 16) = Ok (fresh 12295127 (/ 16) 70952475 5) /\
  bloom_filter_ieee.__init__ bloom_filter_ieee.log_at (10 ^ 400) 0.0625 =
    Raise OverflowError.
Proof.
  split; [exact ieee_init_example|]. split; [exact float_val_example|].
  split; [exact exact_init_example|exact ieee_init_overflow].
Qed.

Close Scope R_scope.

(** ** Hash values and the bits they name *)

Lemma bind_returned {A C} (m : B A) (k : A -> B C) bf a bf' :
  m bf = (Ok a, bf') -> bind m k bf = k a bf'.
Proof. unfold bind. by intros ->. Qed.

Lemma py_mod_ok x m bf : m <> 0 -> py_mod x m bf = (Ok (x mod m), bf).
Proof. intros H. unfold py_mod. by rewrite (proj2 (Z.eqb_neq _ _) H). Qed.

Lemma hash_function_ok f key seed bf :
  size bf <> 0 -> is_Some (encode_utf8 key) ->
  exists hv, hash_function f key seed bf = (Ok (hv mod size bf), bf).
Proof.
  intros Hs [bs Hbs]. unfold hash_function.
  repeat case_match;
    unfold _murmur_hash, _fnv_hash, _djb2_hash, _sdbm_hash;
    rewrite ?Hbs; unfold bind, get_size; rewrite py_mod_ok by done; eauto.
Qed.

Lemma range_length k : length (range k) = Z.to_nat k.
Proof. unfold range. by rewrite length_map, length_seq. Qed.

Lemma range_nonpos k : k <= 0 -> range k = [].
Proof. intros H. unfold range. by replace (Z.to_nat k) with 0%nat by lia. Qed.

Lemma range_pos k : 0 < k -> exists js, range k = 0 :: js.
Proof.
  intros H. unfold range. destruct (Z.to_nat k) as [|n] eqn:E; [lia|].
  cbn [seq map]. eauto.
Qed.

Lemma hash_function_first : hash_function (0 mod 4) = _murmur_hash.
Proof. reflexivity. Qed.

Section with_lower.
Variable lower : str -> str.

Lemma hash_loop_ok key js bf : forall acc,
  size bf <> 0 -> is_Some (encode_utf8 key) ->
  exists vs, hash_loop key js acc bf = (Ok (acc ++ vs), bf) /\
    length vs = length js /\
    Forall (fun v => exists hv, v = hv mod size bf) vs.
Proof.
  induction js as [|i js IH]; intros acc Hs He; cbn [hash_loop].
  - exists []. rewrite app_nil_r. by repeat split.
  - destruct (hash_function_ok (i mod 4) key (i / 4) bf Hs He) as (hv & Hh).
    rewrite (bind_returned _ _ _ _ _ Hh).
    destruct (IH (acc ++ [hv mod size bf]) Hs He) as (vs & Hl & Hlen & Hall).
    exists (hv mod size bf :: vs). rewrite Hl, <- app_assoc.
    split; [done|]. split; [cbn [length]; lia|].
    constructor; [by exists hv|done].
Qed.

Lemma get_hash_values_ok s bf :
  size bf <> 0 -> is_Some (encode_utf8 (strip (lower s))) ->
  exists vs, _get_hash_values lower s bf = (Ok vs, bf) /\
    length vs = Z.to_nat (num_hashes bf) /\
    Forall (fun v => exists hv, v = hv mod size bf) vs.
Proof.
  intros Hs He. unfold _get_hash_values, bind, get_num_hashes.
  destruct (hash_loop_ok (strip (lower s)) (range (num_hashes bf)) bf [] Hs He)
    as (vs & Hl & Hlen & Hall).
  exists vs. rewrite Hl. split; [done|]. split; [|done].
  by rewrite Hlen, range_length.
Qed.

Lemma get_hash_values_unencodable s bf :
  encode_utf8 (strip (lower s)) = None -> 0 < num_hashes bf ->
  _get_hash_values lower s bf = (Raise UnicodeEncodeError, bf).
Proof.
  intros He Hk. unfold _get_hash_values, bind, get_num_hashes.
  destruct (range_pos _ Hk) as (js & ->). cbn [hash_loop].
  rewrite hash_function_first. unfold bind, _murmur_hash. by rewrite He.
Qed.

Lemma get_hash_values_zero_size s bf :
  is_Some (encode_utf8 (strip (lower s))) -> 0 < num_hashes bf ->
  size bf = 0 ->
  _get_hash_values lower s bf = (Raise ZeroDivisionError, bf).
Proof.
  intros [bs He] Hk Hs. unfold _get_hash_values, bind, get_num_hashes.
  destruct (range_pos _ Hk) as (js & ->). cbn [hash_loop].
  rewrite hash_function_first. unfold bind, _murmur_hash. rewrite He.
  unfold bind, get_size, py_mod. by rewrite Hs.
Qed.

End with_lower.

Lemma py_index_in len idx :
  0 <= idx < Z.of_nat len -> py_index len idx = Some (Z.to_nat idx).
Proof.
  intros H. unfold py_index.
  rewrite (proj2 (Z.ltb_ge idx 0)) by lia.
  rewrite (proj2 (Z.leb_le 0 idx)) by lia.
  by rewrite (proj2 (Z.ltb_lt idx (Z.of_nat len))) by lia.
Qed.

Lemma py_index_empty idx : py_index 0 idx = None.
Proof.
  unfold py_index. cbv zeta. change (Z.of_nat 0) with 0.
  destruct (idx <? 0) eqn:E; rewrite ?Z.add_0_r.
  - by rewrite (proj2 (Z.leb_gt 0 idx)) by lia.
  - by rewrite E, andb_false_r.
Qed.

Lemma for_each_set_ok indices : forall bf,
  Forall (fun idx => 0 <= idx < Z.of_nat (length (bit_array bf))) indices ->
  exists bf', for_each indices set_bit bf = (Ok tt, bf') /\
    items_added bf' = items_added bf.
Proof.
  induction indices as [|idx rest IH]; intros bf Hall; cbn [for_each].
  - by exists bf.
  - apply Forall_cons in Hall as [Hidx Hall].
    pose proof (set_bit_spec idx bf) as Hs.
    rewrite (py_index_in _ _ Hidx) in Hs.
    rewrite (bind_returned _ _ _ _ _ Hs).
    match goal with
    | |- context [for_each rest set_bit ?b] => destruct (IH b) as (bf' & E & Hi)
    end.
    { cbn [bit_array]. by rewrite length_insert. }
    exists bf'. by rewrite E, Hi.
Qed.

Lemma set_bit_covered idx i bf :
  py_index (length (bit_array bf)) idx = Some i ->
  bit_array bf !! i = Some true ->
  set_bit idx bf = (Ok tt, bf).
Proof.
  intros Hi Hb. unfold set_bit. rewrite Hi, list_insert_id by done.
  by destruct bf.
Qed.

Lemma for_each_covered indices bf :
  covers bf indices -> for_each indices set_bit bf = (Ok tt, bf).
Proof.
  induction 1 as [|idx rest (i & Hi & Hb) _ IH]; cbn [for_each]; [done|].
  by rewrite (bind_returned _ _ _ _ _ (set_bit_covered _ _ _ Hi Hb)).
Qed.

(** X11. On a filter with at least one bit and as many bits as its size
    says, [add] of a string that is not blank and that UTF-8 can encode
    returns: it raises nothing, counts one more item, sets bits without
    clearing any, and leaves the filter in the same shape. *)
Theorem add_returns_on_well_formed (lower : str -> str) (s : str)
    (bf : BloomFilter) :
  well_formed bf ->
  rejected (PyStr s) = false ->
  is_Some (encode_utf8 (strip (lower s))) ->
  exists bf',
    add lower (PyStr s) bf = (Ok tt, bf') /\
    items_added bf' = items_added bf + 1 /\
    grows bf bf' /\ well_formed bf'.
Proof.
  intros (Hpos & Hlen) Hrej He.
  destruct (get_hash_values_ok lower s bf ltac:(lia) He) as (vs & Hh & _ & Hall).
  destruct (for_each_set_ok vs bf) as (bf1 & Hfe & Hi).
  { eapply Forall_impl; [exact Hall|]. intros v (hv & ->). rewrite Hlen.
    apply Z.mod_pos_bound. lia. }
  assert (Hadd : add lower (PyStr s) bf =
                 (Ok tt, snd (incr_items_added bf1))).
  { unfold add. rewrite Hrej. rewrite (bind_returned _ _ _ _ _ Hh).
    by rewrite (bind_returned _ _ _ _ _ Hfe). }
  pose proof (add_grows lower (PyStr s) bf) as Hg. rewrite Hadd in Hg.
  cbn [snd] in Hg.
  eexists. split; [exact Hadd|]. split; [cbn; lia|]. split; [exact Hg|].
  destruct Hg as (_ & _ & Hsz & _ & Hl & _).
  split; [lia|]. by rewrite Hl, Hsz.
Qed.

Lemma add_returns_on_well_formed_witness :
  well_formed demo_filter /\
  rejected (PyStr (py "casino")) = false /\
  is_Some (encode_utf8 (strip (ascii_lower (py "casino")))) /\
  exists bf',
    add ascii_lower (PyStr (py "casino")) demo_filter = (Ok tt, bf') /\
    items_added bf' = items_added demo_filter + 1 /\
    grows demo_filter bf' /\ well_formed bf'.
Proof.
  assert (H1 : well_formed demo_filter) by (split; [reflexivity|reflexivity]).
  assert (H2 : rejected (PyStr (py "casino")) = false) by reflexivity.
  assert (H3 : is_Some (encode_utf8 (strip (ascii_lower (py "casino")))))
    by (vm_compute; eauto).
  split; [exact H1|]. split; [exact H2|]. split; [exact H3|].
  exact (add_returns_on_well_formed ascii_lower _ _ H1 H2 H3).
Defined.

(** X12. When the lowered and trimmed string has no UTF-8 encoding (it
    holds a lone surrogate) and the filter uses at least one hash
    function, [add] and [contains] raise UnicodeEncodeError and leave
    the filter as it was: no bit set, no item counted. *)
Theorem unencodable_item_raises (lower : str -> str) (s : str)
    (bf : BloomFilter) :
  rejected (PyStr s) = false ->
  encode_utf8 (strip (lower s)) = None ->
  0 < num_hashes bf ->
  add lower (PyStr s) bf = (Raise UnicodeEncodeError, bf) /\
  contains lower (PyStr s) bf = (Raise UnicodeEncodeError, bf).
Proof.
  intros Hrej He Hk.
  pose proof (get_hash_values_unencodable lower s bf He Hk) as Hh.
  unfold add, contains, bind. by rewrite Hrej, Hh.
Qed.

Lemma unencodable_item_raises_witness :
  rejected (PyStr [55296]) = false /\
  encode_utf8 (strip (ascii_lower [55296])) = None /\
  0 < num_hashes demo_filter /\
  add ascii_lower (PyStr [55296]) demo_filter =
    (Raise UnicodeEncodeError, demo_filter) /\
  contains ascii_lower (PyStr [55296]) demo_filter =
    (Raise UnicodeEncodeError, demo_filter).
Proof.
  assert (H1 : rejected (PyStr [55296]) = false) by reflexivity.
  assert (H2 : encode_utf8 (strip (ascii_lower [55296])) = None)
    by reflexivity.
  assert (H3 : 0 < num_hashes demo_filter) by reflexivity.
  split; [exact H1|]. split; [exact H2|]. split; [exact H3|].
  exact (unencodable_item_raises ascii_lower _ _ H1 H2 H3).
Defined.

(** X13. A filter whose hash count is not positive (what construction
    gives for a target rate of 1) answers [True] to [contains] of every
    string that is not blank, whatever was added, and its [add] only
    counts the item: no bit is read or set. *)
Theorem no_hashes_contains_everything (lower : str -> str) (item : pyobj)
    (bf : BloomFilter) :
  num_hashes bf <= 0 ->
  rejected item = false ->
  contains lower item bf = (Ok true, bf) /\
  add lower item bf =
    (Ok tt, mkBloom (expected_items bf) (false_positive_rate bf) (size bf)
                    (num_hashes bf) (bit_array bf) (items_added bf + 1)).
Proof.
  intros Hk Hrej. destruct item as [s| | |]; try discriminate.
  unfold contains, add. rewrite Hrej.
  unfold _get_hash_values, bind, get_num_hashes.
  rewrite (range_nonpos _ Hk). by cbn.
Qed.

Lemma no_hashes_contains_everything_witness :
  num_hashes (fresh 1 1 0 0) <= 0 /\
  rejected (PyStr (py "viagra")) = false /\
  contains ascii_lower (PyStr (py "viagra")) (fresh 1 1 0 0) =
    (Ok true, fresh 1 1 0 0) /\
  add ascii_lower (PyStr (py "viagra")) (fresh 1 1 0 0) =
    (Ok tt, mkBloom (expected_items (fresh 1 1 0 0))
                    (false_positive_rate (fresh 1 1 0 0))
                    (size (fresh 1 1 0 0)) (num_hashes (fresh 1 1 0 0))
                    (bit_array (fresh 1 1 0 0))
                    (items_added (fresh 1 1 0 0) + 1)).
Proof.
  assert (H1 : num_hashes (fresh 1 1 0 0) <= 0) by (cbn; lia).
  assert (H2 : rejected (PyStr (py "viagra")) = false) by reflexivity.
  split; [exact H1|]. split; [exact H2|].
  exact (no_hashes_contains_everything ascii_lower _ _ H1 H2).
Defined.

(** X14. A filter with an empty bit array and at least one hash function
    (what construction gives for a negative expected count, or for a
    sizing that yields no bit) is unusable: for every string that is
    not blank and that UTF-8 can encode, [add] and [contains] raise,
    ZeroDivisionError when the size is 0 and IndexError otherwise, and
    leave the filter as it was. *)
Theorem empty_bit_array_raises (lower : str -> str) (s : str)
    (bf : BloomFilter) :
  bit_array bf = [] ->
  0 < num_hashes bf ->
  rejected (PyStr s) = false ->
  is_Some (encode_utf8 (strip (lower s))) ->
  let e := if size bf =? 0 then ZeroDivisionError else IndexError in
  add lower (PyStr s) bf = (Raise e, bf) /\
  contains lower (PyStr s) bf = (Raise e, bf).
Proof.
  intros Hb Hk Hrej He. destruct (size bf =? 0) eqn:Hs; cbn zeta.
  - apply Z.eqb_eq in Hs.
    pose proof (get_hash_values_zero_size lower s bf He Hk Hs) as Hh.
    unfold add, contains, bind. by rewrite Hrej, Hh.
  - apply Z.eqb_neq in Hs.
    destruct (get_hash_values_ok lower s bf Hs He) as (vs & Hh & Hlen & _).
    destruct vs as [|v vs]; [cbn [length] in Hlen; lia|].
    unfold add, contains. rewrite Hrej.
    rewrite !(bind_returned _ _ _ _ _ Hh). cbn [for_each all_set].
    unfold bind, set_bit, get_bit. by rewrite Hb, py_index_empty.
Qed.

Lemma empty_bit_array_raises_witness :
  bit_array (fresh (-5) (1 / 100) (-48) 7) = [] /\
  0 < num_hashes (fresh (-5) (1 / 100) (-48) 7) /\
  rejected (PyStr (py "viagra")) = false /\
  is_Some (encode_utf8 (strip (ascii_lower (py "viagra")))) /\
  let e := if size (fresh (-5) (1 / 100) (-48) 7) =? 0
           then ZeroDivisionError else IndexError in
  add ascii_lower (PyStr (py "viagra")) (fresh (-5) (1 / 100) (-48) 7) =
    (Raise e, fresh (-5) (1 / 100) (-48) 7) /\
  contains ascii_lower (PyStr (py "viagra")) (fresh (-5) (1 / 100) (-48) 7) =
    (Raise e, fresh (-5) (1 / 100) (-48) 7).
Proof.
  assert (H1 : bit_array (fresh (-5) (1 / 100) (-48) 7) = []) by reflexivity.
  assert (H2 : 0 < num_hashes (fresh (-5) (1 / 100) (-48) 7)) by reflexivity.
  assert (H3 : rejected (PyStr (py "viagra")) = false) by reflexivity.
  assert (H4 : is_Some (encode_utf8 (strip (ascii_lower (py "viagra")))))
    by (vm_compute; eauto).
  split; [exact H1|]. split; [exact H2|]. split; [exact H3|].
  split; [exact H4|].
  exact (empty_bit_array_raises ascii_lower _ _ H1 H2 H3 H4).
Defined.

(** X15. Adding a string a second time changes no bit: when [add] of a
    string that is not blank has returned, [add] of the same string on
    the resulting filter returns and only counts one more item. *)
Theorem add_again_changes_no_bit (lower : str -> str) (s : str)
    (bf bf1 : BloomFilter) :
  rejected (PyStr s) = false ->
  add lower (PyStr s) bf = (Ok tt, bf1) ->
  add lower (PyStr s) bf1 =
    (Ok tt, mkBloom (expected_items bf1) (false_positive_rate bf1) (size bf1)
                    (num_hashes bf1) (bit_array bf1) (items_added bf1 + 1)).
Proof.
  intros Hrej Hadd.
  destruct (add_ok_covers lower s bf bf1 Hrej Hadd) as (indices & Hh & Hc).
  pose proof (add_grows lower (PyStr s) bf) as Hg. rewrite Hadd in Hg.
  cbn [snd] in Hg. destruct Hg as (_ & _ & Hsz & Hk & _).
  assert (Hh1 : _get_hash_values lower s bf1 = (Ok indices, bf1)).
  { rewrite (read_only_eq _ bf1 (read_only_get_hash_values lower s)).
    by rewrite (get_hash_values_config lower s bf bf1 Hsz Hk), Hh. }
  unfold add. rewrite Hrej. rewrite (bind_returned _ _ _ _ _ Hh1).
  by rewrite (bind_returned _ _ _ _ _ (for_each_covered _ _ Hc)).
Qed.

Lemma add_again_changes_no_bit_witness :
  rejected (PyStr (py "viagra")) = false /\
  add ascii_lower (PyStr (py "viagra")) demo_filter =
    (Ok tt, snd (add ascii_lower (PyStr (py "viagra")) demo_filter)) /\
  add ascii_lower (PyStr (py "viagra"))
    (snd (add ascii_lower (PyStr (py "viagra")) demo_filter)) =
    (Ok tt,
     mkBloom
       (expected_items (snd (add ascii_lower (PyStr (py "viagra")) demo_filter)))
       (false_positive_rate
          (snd (add ascii_lower (PyStr (py "viagra")) demo_filter)))
       (size (snd (add ascii_lower (PyStr (py "viagra")) demo_filter)))
       (num_hashes (snd (add ascii_lower (PyStr (py "viagra")) demo_filter)))
       (bit_array (snd (add ascii_lower (PyStr (py "viagra")) demo_filter)))
       (items_added (snd (add ascii_lower (PyStr (py "viagra")) demo_filter))
        + 1)).
Proof.
  assert (H1 : rejected (PyStr (py "viagra")) = false) by reflexivity.
  assert (H2 : add ascii_lower (PyStr (py "viagra")) demo_filter =
               (Ok tt, snd (add ascii_lower (PyStr (py "viagra")) demo_filter)))
    by (vm_compute; reflexivity).
  split; [exact H1|]. split; [exact H2|].
  exact (add_again_changes_no_bit ascii_lower _ demo_filter _ H1 H2).
Defined.

(** X16. Membership ignores case and surrounding whitespace as far as
    [lower] and [strip] do: when [add] of a string that is not blank
    has returned, then after any further [add] calls [contains]
    returns [True] for every string that is not blank and has the same
    lowered and trimmed form. *)
Theorem contains_up_to_normal_form (lower : str -> str) (bf bf1 : BloomFilter)
    (s s' : str) (items : list pyobj) :
  rejected (PyStr s) = false ->
  rejected (PyStr s') = false ->
  strip (lower s') = strip (lower s) ->
  add lower (PyStr s) bf = (Ok tt, bf1) ->
  contains lower (PyStr s') (add_all lower items bf1) =
    (Ok true, add_all lower items bf1).
Proof.
  intros Hrej Hrej' Hnf Hadd.
  destruct (add_ok_covers lower s bf bf1 Hrej Hadd) as (indices & Hh & Hc).
  pose proof (add_grows lower (PyStr s) bf) as Hg1. rewrite Hadd in Hg1.
  cbn [snd] in Hg1.
  pose proof (add_all_grows lower items bf1) as Hg2.
  pose proof (grows_trans _ _ _ Hg1 Hg2) as Hg.
  assert (Hsame : _get_hash_values lower s' = _get_hash_values lower s).
  { unfold _get_hash_values. by rewrite Hnf. }
  unfold contains. rewrite Hrej', Hsame. unfold bind.
  rewrite (read_only_eq _ _ (read_only_get_hash_values lower s)).
  destruct Hg as (_ & _ & Hsz & Hk & _).
  rewrite (get_hash_values_config lower s bf _ Hsz Hk), Hh. cbn [fst].
  apply all_set_covers. by eapply covers_grows.
Qed.

Lemma contains_up_to_normal_form_witness :
  rejected (PyStr (py "viagra")) = false /\
  rejected (PyStr (py "  ViAgRa ")) = false /\
  strip (ascii_lower (py "  ViAgRa ")) = strip (ascii_lower (py "viagra")) /\
  add ascii_lower (PyStr (py "viagra")) demo_filter =
    (Ok tt, snd (add ascii_lower (PyStr (py "viagra")) demo_filter)) /\
  contains ascii_lower (PyStr (py "  ViAgRa "))
    (add_all ascii_lower [PyStr (py "casino")]
       (snd (add ascii_lower (PyStr (py "viagra")) demo_filter))) =
    (Ok true,
     add_all ascii_lower [PyStr (py "casino")]
       (snd (add ascii_lower (PyStr (py "viagra")) demo_filter))).
Proof.
  assert (H1 : rejected (PyStr (py "viagra")) = false) by reflexivity.
  assert (H2 : rejected (PyStr (py "  ViAgRa ")) = false) by reflexivity.
  assert (H3 : strip (ascii_lower (py "  ViAgRa ")) =
               strip (ascii_lower (py "viagra"))) by reflexivity.
  assert (H4 : add ascii_lower (PyStr (py "viagra")) demo_filter =
               (Ok tt, snd (add ascii_lower (PyStr (py "viagra")) demo_filter)))
    by (vm_compute; reflexivity).
  split; [exact H1|]. split; [exact H2|]. split; [exact H3|].
  split; [exact H4|].
  exact (contains_up_to_normal_form ascii_lower demo_filter _ _ _
           [PyStr (py "casino")] H1 H2 H3 H4).
Defined.

(** X17. After [clear], a filter with at least one bit and one hash
    function holds nothing: [contains] returns [False] for every string
    that is not blank and that UTF-8 can encode, whatever had been
    added. *)
Theorem clear_forgets_everything (lower : str -> str) (s : str)
    (bf : BloomFilter) :
  0 < size bf -> 0 < num_hashes bf ->
  rejected (PyStr s) = false ->
  is_Some (encode_utf8 (strip (lower s))) ->
  contains lower (PyStr s) (snd (clear bf)) = (Ok false, snd (clear bf)).
Proof.
  intros Hs Hk Hrej He. cbn [clear snd].
  set (bf0 := mkBloom _ _ _ _ _ _).
  destruct (get_hash_values_ok lower s bf0 ltac:(cbn; lia) He)
    as (vs & Hh & Hlen & Hall).
  destruct vs as [|v vs]; [cbn in Hlen; lia|].
  apply Forall_cons in Hall as [(hv & Hv) _]. cbn [size bf0] in Hv.
  unfold contains. rewrite Hrej, (bind_returned _ _ _ _ _ Hh). cbn [all_set].
  unfold bind, get_bit. cbn [bit_array bf0].
  assert (Hr : 0 <= v < size bf) by (subst v; apply Z.mod_pos_bound; lia).
  rewrite length_replicate, py_index_in by lia.
  rewrite lookup_replicate_2 by lia. done.
Qed.

Lemma clear_forgets_everything_witness :
  0 < size (snd (add ascii_lower (PyStr (py "viagra")) demo_filter)) /\
  0 < num_hashes (snd (add ascii_lower (PyStr (py "viagra")) demo_filter)) /\
  rejected (PyStr (py "viagra")) = false /\
  is_Some (encode_utf8 (strip (ascii_lower (py "viagra")))) /\
  contains ascii_lower (PyStr (py "viagra"))
    (snd (clear (snd (add ascii_lower (PyStr (py "viagra")) demo_filter)))) =
    (Ok false,
     snd (clear (snd (add ascii_lower (PyStr (py "viagra")) demo_filter)))).
Proof.
  assert (H1 : 0 < size (snd (add ascii_lower (PyStr (py "viagra"))
                                  demo_filter))) by (vm_compute; reflexivity).
  assert (H2 : 0 < num_hashes (snd (add ascii_lower (PyStr (py "viagra"))
                                        demo_filter)))
    by (vm_compute; reflexivity).
  assert (H3 : rejected (PyStr (py "viagra")) = false) by reflexivity.
  assert (H4 : is_Some (encode_utf8 (strip (ascii_lower (py "viagra")))))
    by (vm_compute; eauto).
  split; [exact H1|]. split; [exact H2|]. split; [exact H3|].
  split; [exact H4|].
  exact (clear_forgets_everything ascii_lower _ _ H1 H2 H3 H4).
Defined.

(** ** Construction in double precision *)

Lemma SFcompare_refl x : x <> S754_nan -> SFcompare x x = Some Eq.
Proof.
  destruct x as [s|s| |s m e]; cbn [SFcompare]; try done.
  - intros _. by destruct s.
  - intros _. rewrite Z.compare_refl, Pos.compare_cont_refl.
    by destruct s.
Qed.

Lemma leb_not_nan (p q : float) : (p <=? q)%float = true -> is_nan p = false.
Proof.
  rewrite leb_spec. unfold is_nan. rewrite FloatAxioms.eqb_spec.
  unfold SFleb, SFeqb. destruct (Prim2SF p) eqn:E; try done;
    intros _; by rewrite SFcompare_refl.
Qed.

Lemma ieee_size_settles log n p :
  (exists m, bloom_filter_ieee._calculate_optimal_size log n p = Ok m) \/
  (exists e, bloom_filter_ieee._calculate_optimal_size log n p = Raise e).
Proof.
  unfold bloom_filter_ieee._calculate_optimal_size,
    bloom_filter_ieee.math_log, bloom_filter_ieee.int_to_float,
    bloom_filter_ieee.float_pow_2, bloom_filter_ieee.float_truediv,
    bloom_filter_ieee.math_ceil.
  repeat (case_match; cbn [obind]; eauto).
Qed.

(** X18. In double precision as with exact arithmetic, construction
    raises whenever the expected count is 0 or the target rate is not
    above 0 (the test [p <= 0] on doubles: zero of either sign, any
    negative number, minus infinity), whatever the library logarithm
    returns. *)
Theorem ieee_construction_rejects (log : float -> float) (n : Z) (p : float) :
  n = 0 \/ (p <=? 0)%float = true ->
  exists e, bloom_filter_ieee.__init__ log n p = Raise e.
Proof.
  intros [->|Hp]; unfold bloom_filter_ieee.__init__.
  - destruct (ieee_size_settles log 0 p) as [(m & ->)|(e & ->)];
      cbn [obind]; [|eauto].
    exists ZeroDivisionError. reflexivity.
  - exists ValueError.
    unfold bloom_filter_ieee._calculate_optimal_size,
      bloom_filter_ieee.math_log.
    by rewrite (leb_not_nan _ _ Hp), Hp.
Qed.

Lemma ieee_construction_rejects_witness :
  (1 = 0 \/ ((-0.5)%float <=? 0)%float = true) /\
  exists e, bloom_filter_ieee.__init__ bloom_filter_ieee.log_at 1 (-0.5)
            = Raise e.
Proof.
  assert (H : 1 = 0 \/ ((-0.5)%float <=? 0)%float = true)
    by (right; reflexivity).
  split; [exact H|].
  exact (ieee_construction_rejects bloom_filter_ieee.log_at 1 (-0.5) H).
Defined.

End bloom_proofs.
